(** * Taxonomy core of unikmer: store, loaders and LCA (taxonomy.go)

    A shallow embedding of [taxonomy.go].  Go's [uint32]/[uint64]/[int] are
    modelled as [Z] with the wrap-around of each conversion written out, Go
    maps as stdpp's [gmap]/[gset], the two unbounded [for] loops of [LCA] as
    fuel-indexed fixpoints ([None] = loop still running when the fuel ran
    out), and the mutation of the receiver as explicit state passing. *)

From Stdlib Require Import ZArith Lia Ascii String.
From stdpp Require Import gmap strings list fin_maps sorting.

Local Open Scope Z_scope.

(** ** Machine integers *)

Definition uint32_max : Z := 4294967295.
Definition is_uint32 (x : Z) : Prop := 0 <= x <= uint32_max.

(** Go's conversion [uint32(x)] of an [int]: truncation to the low 32 bits. *)
Definition to_uint32 (x : Z) : Z := x mod 2 ^ 32.
(** Go's conversion [uint8(x)] of an [int]. *)
Definition to_uint8 (x : Z) : Z := x mod 2 ^ 8.

(** ** Errors and results *)

Inductive error : Type :=
| ErrIllegalColumnIndex
| ErrRankNotLoaded
| ErrTooManyRanks
| ErrNum (tok : string)          (* strconv.Atoi: *NumError citing the token *)
| ErrOpen                        (* the file could not be opened *)
| ErrWrapped (e : error).        (* fmt.Errorf("unikmer: %s", err) *)

(** Outcome of a call that may return an error or panic. *)
Inductive result (A : Type) : Type :=
| Ok (a : A)
| Err (e : error)
| Panic (e : option error).      (* [None]: runtime panic (index out of range) *)
Arguments Ok {A} a.
Arguments Err {A} e.
Arguments Panic {A} e.

(** ** The store *)

Record Taxonomy : Type := mkTaxonomy {
  rootNode : Z;
  Nodes : gmap Z Z;
  DelNodes : gset Z;
  MergeNodes : gmap Z Z;
  taxid2rankid : gmap Z Z;
  ranks : list string;
  Ranks : gset string;
  hasRanks : bool;
  hasDelNodes : bool;
  hasMergeNodes : bool;
  cacheLCA : bool;
  lcaCache : gmap Z Z;
  maxTaxid : Z
}.

Definition set_MergeNodes (t : Taxonomy) (m : gmap Z Z) : Taxonomy :=
  mkTaxonomy (rootNode t) (Nodes t) (DelNodes t) m (taxid2rankid t) (ranks t)
    (Ranks t) (hasRanks t) (hasDelNodes t) true (cacheLCA t) (lcaCache t)
    (maxTaxid t).

Definition set_DelNodes (t : Taxonomy) (m : gset Z) : Taxonomy :=
  mkTaxonomy (rootNode t) (Nodes t) m (MergeNodes t) (taxid2rankid t) (ranks t)
    (Ranks t) (hasRanks t) true (hasMergeNodes t) (cacheLCA t) (lcaCache t)
    (maxTaxid t).

Definition set_cacheLCA (t : Taxonomy) (b : bool) : Taxonomy :=
  mkTaxonomy (rootNode t) (Nodes t) (DelNodes t) (MergeNodes t)
    (taxid2rankid t) (ranks t) (Ranks t) (hasRanks t) (hasDelNodes t)
    (hasMergeNodes t) b (lcaCache t) (maxTaxid t).

Definition set_lcaCache (t : Taxonomy) (c : gmap Z Z) : Taxonomy :=
  mkTaxonomy (rootNode t) (Nodes t) (DelNodes t) (MergeNodes t)
    (taxid2rankid t) (ranks t) (Ranks t) (hasRanks t) (hasDelNodes t)
    (hasMergeNodes t) (cacheLCA t) c (maxTaxid t).

(** [MaxTaxid] *)
Definition MaxTaxid (t : Taxonomy) : Z := maxTaxid t.

(** [CacheLCA] *)
Definition CacheLCA (t : Taxonomy) : Taxonomy := set_cacheLCA t true.

(** ** LCA *)

(** [pack2uint32]: the smaller id in the high 32 bits. *)
Definition pack2uint32 (a b : Z) : Z :=
  if a <? b then Z.lor (Z.shiftl a 32) b
  else Z.lor (Z.shiftl b 32) a.

(** The head of both loops of [LCA]: look [child] up in [Nodes]; when it is
    missing and a merge map is loaded, substitute the merge target once and
    look that up.  [Some (child', parent)] is the state after the block,
    [None] is the [!flag] exit. *)
Definition resolve (t : Taxonomy) (child : Z) : option (Z * Z) :=
  match Nodes t !! child with
  | Some parent => Some (child, parent)
  | None =>
      if hasMergeNodes t then
        match MergeNodes t !! child with
        | Some newTaxid =>
            match Nodes t !! newTaxid with
            | Some parent => Some (newTaxid, parent)
            | None => None
            end
        | None => None
        end
      else None
  end.

(** How a loop of [LCA] is left: by a [return] inside it (always preceded by
    a store into the cache when caching is on) or by [break]. *)
Inductive loop_exit (B : Type) : Type :=
| Return (v : Z)
| Break (s : B).
Arguments Return {B} v.
Arguments Break {B} s.

(** First loop: walk from [a] to the root, recording every parent. *)
Fixpoint walkA (fuel : nat) (t : Taxonomy) (b : Z) (child : Z)
    (lineA : list Z) (mA : gset Z) : option (loop_exit (list Z * gset Z)) :=
  match fuel with
  | O => None
  | S fuel' =>
      match resolve t child with
      | None => Some (Return 0)
      | Some (child, parent) =>
          if parent =? child then
            Some (Break (lineA ++ [parent], {[parent]} ∪ mA))
          else if parent =? b then Some (Return b)
          else walkA fuel' t b parent (lineA ++ [parent]) ({[parent]} ∪ mA)
      end
  end.

(** Second loop: walk from [b] upwards until [a] or a recorded parent. *)
Fixpoint walkB (fuel : nat) (t : Taxonomy) (a : Z) (mA : gset Z)
    (child : Z) : option (loop_exit unit) :=
  match fuel with
  | O => None
  | S fuel' =>
      match resolve t child with
      | None => Some (Return 0)
      | Some (child, parent) =>
          if parent =? child then Some (Break tt)
          else if parent =? a then Some (Return a)
          else if bool_decide (parent ∈ mA) then Some (Return parent)
          else walkB fuel' t a mA parent
      end
  end.

(** Both loops; [Return v] for the cached exits, [Break] for the final
    [return t.rootNode]. *)
Definition walk (fuel : nat) (t : Taxonomy) (a b : Z)
    : option (loop_exit unit) :=
  match walkA fuel t b a [] ∅ with
  | None => None
  | Some (Return v) => Some (Return v)
  | Some (Break (_, mA)) => walkB fuel t a mA b
  end.

(** [t.lcaCache.Store(query, v)] under [if t.cacheLCA]. *)
Definition store (t : Taxonomy) (query v : Z) : Taxonomy :=
  if cacheLCA t then set_lcaCache t (<[query := v]> (lcaCache t)) else t.

(** [LCA]: the result and the store after the call. *)
Definition LCA (fuel : nat) (t : Taxonomy) (a b : Z)
    : option (Z * Taxonomy) :=
  if (a =? 0) || (b =? 0) then Some (0, t)
  else if a =? b then Some (a, t)
  else
    let query := if cacheLCA t then pack2uint32 a b else 0 in
    match (if cacheLCA t then lcaCache t !! query else None) with
    | Some tmp => Some (tmp, t)
    | None =>
        match walk fuel t a b with
        | None => None
        | Some (Return v) => Some (v, store t query v)
        | Some (Break _) => Some (rootNode t, t)
        end
    end.

(** The value of a call. *)
Definition lca (fuel : nat) (t : Taxonomy) (a b : Z) : option Z :=
  fst <$> LCA fuel t a b.

(** A store with the given parent and merge maps and nothing else. *)
Definition store_of (root : Z) (nodes : gmap Z Z) (merged : option (gmap Z Z))
    : Taxonomy :=
  mkTaxonomy root nodes ∅ (default ∅ merged) ∅ [] ∅ false false
    (bool_decide (is_Some merged)) false ∅ 0.

(** The tree of the end-to-end scenarios:
    1→1, 2→1, 3→2, 4→2, 5→3, 6→3, 7→4. *)
Definition demo_nodes : gmap Z Z :=
  list_to_map [(1, 1); (2, 1); (3, 2); (4, 2); (5, 3); (6, 3); (7, 4)].

(** ** Go's string helpers used by the line parsers

    A Go string is a byte sequence; so is a Rocq [string].  These follow
    [strings.TrimSpace], [strings.Split] and [strconv.Atoi] on ASCII input
    and a 64-bit [int]. *)

Definition tab : ascii := "009"%char.

Definition is_space (c : ascii) : bool :=
  let n := nat_of_ascii c in
  ((9 <=? n)%nat && (n <=? 13)%nat) || (n =? 32)%nat.

Fixpoint trim_left (s : string) : string :=
  match s with
  | EmptyString => EmptyString
  | String c s' => if is_space c then trim_left s' else s
  end.

Fixpoint trim_right (s : string) : string :=
  match s with
  | EmptyString => EmptyString
  | String c s' =>
      match trim_right s' with
      | EmptyString => if is_space c then EmptyString else String c EmptyString
      | r => String c r
      end
  end.

Definition TrimSpace (s : string) : string := trim_right (trim_left s).

(** [strings.Split(s, "\t")]: never empty; [Split "" = [""]]. *)
Fixpoint Split (s : string) : list string :=
  match s with
  | EmptyString => [EmptyString]
  | String c s' =>
      if Ascii.eqb c tab then EmptyString :: Split s'
      else match Split s' with
           | f :: fs => String c f :: fs
           | [] => [String c EmptyString]
           end
  end.

Fixpoint digits (s : string) (acc : Z) : option Z :=
  match s with
  | EmptyString => Some acc
  | String c s' =>
      let d := Z.of_nat (nat_of_ascii c) - 48 in
      if (0 <=? d) && (d <=? 9) then digits s' (acc * 10 + d) else None
  end.

(** [strconv.Atoi]: an optional sign, at least one decimal digit, and a
    value that fits an [int]. *)
Definition Atoi (s : string) : error + Z :=
  let '(neg, body) :=
    match s with
    | String "-"%char s' => (true, s')
    | String "+"%char s' => (false, s')
    | _ => (false, s)
    end in
  match body with
  | EmptyString => inl (ErrNum s)
  | _ =>
      match digits body 0 with
      | None => inl (ErrNum s)
      | Some n =>
          let v := if neg : bool then - n else n in
          if (- 2 ^ 63 <=? v) && (v <=? 2 ^ 63 - 1) then inr v
          else inl (ErrNum s)
      end
  end.

(** [items[i]]: [None] stands for the index-out-of-range panic. *)
Definition index {A} (items : list A) (i : Z) : option A :=
  if i <? 0 then None else items !! Z.to_nat i.

(** [minInt] *)
Definition minInt (a : Z) (vals : list Z) : Z :=
  fold_left (fun min v => if v <? min then v else min) vals a.

(** ** The streaming reader

    What a line callback does: [(nil, false, nil)], [(v, true, nil)],
    [(nil, false, e)], or a panic. *)
Inductive parsed (A : Type) : Type :=
| Skipped
| Parsed (a : A)
| ParseError (e : error)
| ParsePanic.
Arguments Skipped {A}.
Arguments Parsed {A} a.
Arguments ParseError {A} e.
Arguments ParsePanic {A}.

(** An element of [reader.Ch]. *)
Record Chunk (A : Type) : Type := mkChunk {
  Data : list A;
  ChunkErr : option error
}.
Arguments mkChunk {A} _ _.
Arguments Data {A} _.
Arguments ChunkErr {A} _.

(** A file on disk: [None] when it cannot be opened, else its lines. *)
Definition File : Type := option (list string).

(** One chunk of lines run through the callback, up to its first error. *)
Fixpoint parseLines {A} (fn : string -> parsed A) (lines : list string)
    (acc : list A) : result (Chunk A) :=
  match lines with
  | [] => Ok (mkChunk acc None)
  | line :: rest =>
      match fn line with
      | Skipped => parseLines fn rest acc
      | Parsed a => parseLines fn rest (acc ++ [a])
      | ParseError e => Ok (mkChunk acc (Some e))
      | ParsePanic => Panic None
      end
  end.

(** Lines grouped [n] at a time. *)
Fixpoint group {A} (n : nat) (cur : list A) (l : list A) : list (list A) :=
  match l with
  | [] => match cur with [] => [] | _ => [cur] end
  | x :: l' =>
      let cur' := cur ++ [x] in
      if (length cur' =? n)%nat then cur' :: group n [] l'
      else group n cur' l'
  end.

Fixpoint parseGroups {A} (fn : string -> parsed A) (gs : list (list string))
    : result (list (Chunk A)) :=
  match gs with
  | [] => Ok []
  | g :: rest =>
      match parseLines fn g [] with
      | Ok ch =>
          match ChunkErr ch with
          | Some _ => Ok [ch]
          | None =>
              match parseGroups fn rest with
              | Ok chs => Ok (ch :: chs)
              | other => other
              end
          end
      | Err e => Err e
      | Panic e => Panic e
      end
  end.

(** The reader of package breader, run sequentially: the lines of the file
    go through the callback in order, [chunkSize] lines per chunk, and the
    stream ends with the first chunk that carries an error. *)
Definition NewBufferedReader {A} (file : File) (bufferSize chunkSize : nat)
    (fn : string -> parsed A) : result (list (Chunk A)) :=
  match file with
  | None => Err ErrOpen
  | Some lines => parseGroups fn (group chunkSize [] lines)
  end.

(** [for chunk := range reader.Ch { if chunk.Err != nil { return ... };
    for _, data = range chunk.Data { body } }] *)
Fixpoint forData {S A} (body : S -> A -> result S) (s : S) (l : list A)
    : result S :=
  match l with
  | [] => Ok s
  | x :: l' =>
      match body s x with
      | Ok s' => forData body s' l'
      | other => other
      end
  end.

Fixpoint forChunks {S A} (body : S -> A -> result S) (s : S)
    (chunks : list (Chunk A)) : result S :=
  match chunks with
  | [] => Ok s
  | ch :: rest =>
      match ChunkErr ch with
      | Some e => Err (ErrWrapped e)
      | None =>
          match forData body s (Data ch) with
          | Ok s' => forChunks body s' rest
          | other => other
          end
      end
  end.

(** ** NewTaxonomy *)

Module NodeRec.
(** [type taxon struct] local to [NewTaxonomy]. *)
Record taxon : Type := mk { Taxid : Z; Parent : Z }.
End NodeRec.

Module RankRec.
(** [type taxon struct] local to [NewTaxonomyWithRank]. *)
Record taxon : Type := mk { Taxid : Z; Parent : Z; Rank : string }.
End RankRec.

(** The closure [parseFunc] of [NewTaxonomy]; [childColumn] and
    [parentColumn] are the decremented (0-based) values. *)
Definition nodesParseFunc (minColumns childColumn parentColumn : Z)
    (line : string) : parsed NodeRec.taxon :=
  let line := TrimSpace line in
  if String.eqb line EmptyString then Skipped
  else
    let items := Split line in
    if Z.of_nat (length items) <? minColumns then Skipped
    else
      match index items childColumn with
      | None => ParsePanic
      | Some tok =>
          match Atoi tok with
          | inl e => ParseError e
          | inr child =>
              match index items parentColumn with
              | None => ParsePanic
              | Some tok =>
                  match Atoi tok with
                  | inl e => ParseError e
                  | inr parent =>
                      Parsed (NodeRec.mk (to_uint32 child) (to_uint32 parent))
                  end
              end
          end
      end.

(** Body of the inner loop of [NewTaxonomy] on [(nodes, root, maxTaxid)]. *)
Definition nodesStep (s : gmap Z Z * Z * Z) (tax : NodeRec.taxon)
    : result (gmap Z Z * Z * Z) :=
  let '(nodes, root, maxTaxid) := s in
  let nodes := <[NodeRec.Taxid tax := NodeRec.Parent tax]> nodes in
  let root :=
    if NodeRec.Taxid tax =? NodeRec.Parent tax then NodeRec.Taxid tax
    else root in
  let maxTaxid :=
    if NodeRec.Taxid tax >? maxTaxid then NodeRec.Taxid tax else maxTaxid in
  Ok (nodes, root, maxTaxid).

(** The store literal returned by [NewTaxonomy] (the path is not kept). *)
Definition plainTaxonomy (nodes : gmap Z Z) (root maxTaxid : Z) : Taxonomy :=
  mkTaxonomy root nodes ∅ ∅ ∅ [] ∅ false false false false ∅ maxTaxid.

Definition NewTaxonomy (file : File) (childColumn parentColumn : Z)
    : result Taxonomy :=
  if (childColumn <? 1) || (parentColumn <? 1) then Err ErrIllegalColumnIndex
  else
    let minColumns := minInt childColumn [parentColumn] in
    let childColumn := childColumn - 1 in
    let parentColumn := parentColumn - 1 in
    match NewBufferedReader file 8 100
            (nodesParseFunc minColumns childColumn parentColumn) with
    | Err e => Err (ErrWrapped e)
    | Panic e => Panic e
    | Ok chunks =>
        match forChunks nodesStep (∅, 0, 0) chunks with
        | Ok (nodes, root, maxTaxid) => Ok (plainTaxonomy nodes root maxTaxid)
        | Err e => Err e
        | Panic e => Panic e
        end
    end.

Definition NewTaxonomyFromNCBI (file : File) : result Taxonomy :=
  NewTaxonomy file 1 3.

(** ** NewTaxonomyWithRank *)

Definition ranksParseFunc (minColumns childColumn parentColumn rankColumn : Z)
    (line : string) : parsed RankRec.taxon :=
  let line := TrimSpace line in
  if String.eqb line EmptyString then Skipped
  else
    let items := Split line in
    if Z.of_nat (length items) <? minColumns then Skipped
    else
      match index items childColumn with
      | None => ParsePanic
      | Some tok =>
          match Atoi tok with
          | inl e => ParseError e
          | inr child =>
              match index items parentColumn with
              | None => ParsePanic
              | Some tok =>
                  match Atoi tok with
                  | inl e => ParseError e
                  | inr parent =>
                      match index items rankColumn with
                      | None => ParsePanic
                      | Some rank =>
                          Parsed (RankRec.mk (to_uint32 child)
                                    (to_uint32 parent) rank)
                      end
                  end
              end
          end
      end.

(** The locals of [NewTaxonomyWithRank] that its loop updates. *)
Record builder : Type := mkBuilder {
  b_nodes : gmap Z Z;
  b_root : Z;
  b_maxTaxid : Z;
  b_taxid2rankid : gmap Z Z;
  b_ranks : list string;
  b_rank2rankid : gmap string Z;
  b_ranksMap : gset string
}.

Definition builder0 : builder := mkBuilder ∅ 0 0 ∅ [] ∅ ∅.

(** Body of the inner loop of [NewTaxonomyWithRank]. *)
Definition ranksStep (s : builder) (tax : RankRec.taxon) : result builder :=
  let nodes := <[RankRec.Taxid tax := RankRec.Parent tax]> (b_nodes s) in
  let root :=
    if RankRec.Taxid tax =? RankRec.Parent tax then RankRec.Taxid tax
    else b_root s in
  let maxTaxid :=
    if RankRec.Taxid tax >? b_maxTaxid s then RankRec.Taxid tax
    else b_maxTaxid s in
  match b_rank2rankid s !! RankRec.Rank tax with
  | Some rankid =>
      Ok (mkBuilder nodes root maxTaxid
            (<[RankRec.Taxid tax := to_uint8 rankid]> (b_taxid2rankid s))
            (b_ranks s) (b_rank2rankid s) (b_ranksMap s))
  | None =>
      let ranks := b_ranks s ++ [RankRec.Rank tax] in
      if Z.of_nat (length ranks) >? 255 then Err ErrTooManyRanks
      else
        Ok (mkBuilder nodes root maxTaxid
              (<[RankRec.Taxid tax := to_uint8 (Z.of_nat (length ranks) - 1)]>
                 (b_taxid2rankid s))
              ranks
              (<[RankRec.Rank tax := Z.of_nat (length ranks) - 1]>
                 (b_rank2rankid s))
              ({[RankRec.Rank tax]} ∪ b_ranksMap s))
  end.

Definition rankedTaxonomy (s : builder) : Taxonomy :=
  mkTaxonomy (b_root s) (b_nodes s) ∅ ∅ (b_taxid2rankid s) (b_ranks s)
    (b_ranksMap s) true false false false ∅ (b_maxTaxid s).

Definition NewTaxonomyWithRank (file : File)
    (childColumn parentColumn rankColumn : Z) : result Taxonomy :=
  if (childColumn <? 1) || (parentColumn <? 1) || (rankColumn <? 1)
  then Err ErrIllegalColumnIndex
  else
    let minColumns := minInt childColumn [parentColumn; rankColumn] in
    let childColumn := childColumn - 1 in
    let parentColumn := parentColumn - 1 in
    let rankColumn := rankColumn - 1 in
    match NewBufferedReader file 8 100
            (ranksParseFunc minColumns childColumn parentColumn rankColumn)
    with
    | Err e => Err (ErrWrapped e)
    | Panic e => Panic e
    | Ok chunks =>
        match forChunks ranksStep builder0 chunks with
        | Ok s => Ok (rankedTaxonomy s)
        | Err e => Err e
        | Panic e => Panic e
        end
    end.

Definition NewTaxonomyWithRankFromNCBI (file : File) : result Taxonomy :=
  NewTaxonomyWithRank file 1 3 5.

(** ** Rank *)

Definition Rank (t : Taxonomy) (taxid : Z) : result string :=
  if negb (hasRanks t) then Panic (Some ErrRankNotLoaded)
  else
    match taxid2rankid t !! taxid with
    | Some i =>
        match index (ranks t) i with
        | Some r => Ok r
        | None => Panic None
        end
    | None => Ok EmptyString
    end.

(** ** LoadMergedNodes and LoadDeletedNodes

    The receiver is mutated in place; the calls return the store after the
    call next to what Go returns. *)

Definition mergedParseFunc (minColumns oldColumn newColumn : Z)
    (line : string) : parsed (Z * Z) :=
  let items := Split (TrimSpace line) in
  if Z.of_nat (length items) <? minColumns then Skipped
  else
    match index items oldColumn with
    | None => ParsePanic
    | Some tok =>
        match Atoi tok with
        | inl e => ParseError e
        | inr old =>
            match index items newColumn with
            | None => ParsePanic
            | Some tok =>
                match Atoi tok with
                | inl e => ParseError e
                | inr new => Parsed (to_uint32 old, to_uint32 new)
                end
            end
        end
    end.

Definition mergedStep (m : gmap Z Z) (p : Z * Z) : result (gmap Z Z) :=
  Ok (<[fst p := snd p]> m).

Definition LoadMergedNodes (t : Taxonomy) (file : File)
    (oldColumn newColumn : Z) : result unit * Taxonomy :=
  if (oldColumn <? 1) || (newColumn <? 1) then (Err ErrIllegalColumnIndex, t)
  else
    let minColumns := oldColumn in
    let minColumns := if newColumn >? minColumns then newColumn
                      else minColumns in
    let oldColumn := oldColumn - 1 in
    let newColumn := newColumn - 1 in
    let m : gmap Z Z := ∅ in
    match NewBufferedReader file 3 50
            (mergedParseFunc minColumns oldColumn newColumn) with
    | Err e => (Err (ErrWrapped e), t)
    | Panic e => (Panic e, t)
    | Ok chunks =>
        match forChunks mergedStep m chunks with
        | Ok m => (Ok tt, set_MergeNodes t m)
        | Err e => (Err e, t)
        | Panic e => (Panic e, t)
        end
    end.

Definition LoadMergedNodesFromNCBI (t : Taxonomy) (file : File)
    : result unit * Taxonomy :=
  LoadMergedNodes t file 1 3.

Definition deletedParseFunc (column : Z) (line : string) : parsed Z :=
  let items := Split (TrimSpace line) in
  if Z.of_nat (length items) <? column then Skipped
  else
    match index items (column - 1) with
    | None => ParsePanic
    | Some tok =>
        match Atoi tok with
        | inl e => ParseError e
        | inr id => Parsed (to_uint32 id)
        end
    end.

Definition deletedStep (m : gset Z) (taxid : Z) : result (gset Z) :=
  Ok ({[taxid]} ∪ m).

Definition LoadDeletedNodes (t : Taxonomy) (file : File) (column : Z)
    : result unit * Taxonomy :=
  if column <? 1 then (Err ErrIllegalColumnIndex, t)
  else
    let m : gset Z := ∅ in
    match NewBufferedReader file 3 50 (deletedParseFunc column) with
    | Err e => (Err (ErrWrapped e), t)
    | Panic e => (Panic e, t)
    | Ok chunks =>
        match forChunks deletedStep m chunks with
        | Ok m => (Ok tt, set_DelNodes t m)
        | Err e => (Err e, t)
        | Panic e => (Panic e, t)
        end
    end.

Definition LoadDeletedNodesFromNCBI (t : Taxonomy) (file : File)
    : result unit * Taxonomy :=
  LoadDeletedNodes t file 1.

(** A line of tab-separated fields. *)
Definition tsv (fields : list string) : string :=
  match fields with
  | [] => EmptyString
  | f :: fs => fold_left (fun acc g => (acc ++ String tab g)%string) fs f
  end.


(** ** Vocabulary of the properties *)

(** The uncached computation of [LCA]: the fast paths and the two walks. *)
Definition value (fuel : nat) (t : Taxonomy) (a b : Z) : option Z :=
  if (a =? 0) || (b =? 0) then Some 0
  else if a =? b then Some a
  else
    match walk fuel t a b with
    | None => None
    | Some (Return v) => Some v
    | Some (Break _) => Some (rootNode t)
    end.

(** [path N c ps r]: [ps] are the proper ancestors of the key [c] in the
    parent map [N], nearest first, and [r] is the self-loop they end in. *)
Inductive path (N : gmap Z Z) : Z -> list Z -> Z -> Prop :=
| path_root c : N !! c = Some c -> path N c [] c
| path_step c p ps r :
    N !! c = Some p -> p <> c -> path N p ps r -> path N c (p :: ps) r.

(** The invariants of the data model: at most one self-loop, which is the
    recorded root; no dangling parent; no cycle besides the self-loop. *)
Record well_formed (t : Taxonomy) : Prop := mk_well_formed {
  wf_root : forall c, Nodes t !! c = Some c -> c = rootNode t;
  wf_closed : forall c p, Nodes t !! c = Some p -> is_Some (Nodes t !! p);
  wf_acyclic : exists depth : Z -> nat,
      forall c p, Nodes t !! c = Some p -> p <> c -> (depth p < depth c)%nat
}.

(** The stores reachable from [t0] by [LCA] calls on 32-bit arguments. *)
Inductive after_calls (t0 : Taxonomy) : Taxonomy -> Prop :=
| calls_none : after_calls t0 t0
| calls_more t fuel a b v t' :
    after_calls t0 t -> is_uint32 a -> is_uint32 b ->
    LCA fuel t a b = Some (v, t') -> after_calls t0 t'.

(** The records the builder loops consume: those of the chunks before the
    first chunk that carries an error. *)
Fixpoint delivered {A} (chunks : list (Chunk A)) : list A :=
  match chunks with
  | [] => []
  | ch :: rest =>
      match ChunkErr ch with
      | Some _ => []
      | None => Data ch ++ delivered rest
      end
  end.

Definition clean {A} (chunks : list (Chunk A)) : Prop :=
  Forall (fun ch => ChunkErr ch = None) chunks.

(** The readers that the four loaders create. *)
Definition nodesReader (file : File) (childColumn parentColumn : Z) :=
  NewBufferedReader file 8 100
    (nodesParseFunc (minInt childColumn [parentColumn])
       (childColumn - 1) (parentColumn - 1)).

Definition ranksReader (file : File) (childColumn parentColumn rankColumn : Z) :=
  NewBufferedReader file 8 100
    (ranksParseFunc (minInt childColumn [parentColumn; rankColumn])
       (childColumn - 1) (parentColumn - 1) (rankColumn - 1)).

Definition mergedReader (file : File) (oldColumn newColumn : Z) :=
  NewBufferedReader file 3 50
    (mergedParseFunc (if newColumn >? oldColumn then newColumn else oldColumn)
       (oldColumn - 1) (newColumn - 1)).

Definition deletedReader (file : File) (column : Z) :=
  NewBufferedReader file 3 50 (deletedParseFunc column).

(** Number of distinct rank strings among records. *)
Definition distinct_ranks (recs : list RankRec.taxon) : nat :=
  size (list_to_set (RankRec.Rank <$> recs) : gset string).

(** The rank of the last record for [x], if any. *)
Definition rank_of (x : Z) (recs : list RankRec.taxon) : option string :=
  fold_left (fun acc r => if RankRec.Taxid r =? x then Some (RankRec.Rank r)
                          else acc) recs None.

(** The replacement in the last pair for [k], if any. *)
Definition new_of (k : Z) (recs : list (Z * Z)) : option Z :=
  fold_left (fun acc p => if fst p =? k then Some (snd p) else acc) recs None.

(** A store whose only edge is 2→3: the parent 3 is not a key. *)
Definition dangling : Taxonomy := store_of 0 {[2 := 3]} None.

(** The scenario tree as an NCBI-style dump (child | parent | rank). *)
Definition demo_file : File :=
  Some [tsv ["1"; "|"; "1"; "|"; "no rank"];
        tsv ["2"; "|"; "1"; "|"; "superkingdom"];
        tsv ["3"; "|"; "2"; "|"; "phylum"];
        tsv ["4"; "|"; "2"; "|"; "phylum"];
        tsv ["5"; "|"; "3"; "|"; "class"];
        tsv ["6"; "|"; "3"; "|"; "class"];
        tsv ["7"; "|"; "4"; "|"; "class"]]%string.

Definition merged_file_1 : File :=
  Some [tsv ["99"; "|"; "5"]; tsv ["98"; "|"; "6"]]%string.
Definition merged_file_2 : File :=
  Some [tsv ["97"; "|"; "7"]]%string.
Definition deleted_file_1 : File := Some ["50"; "51"]%string.
Definition deleted_file_2 : File := Some ["52"]%string.

(** A dump of [n] taxa with pairwise distinct two-letter ranks. *)
Definition rank_name (i : nat) : string :=
  String (ascii_of_nat (65 + i mod 16)) (String (ascii_of_nat (65 + i / 16))
    EmptyString).

Definition ranks_file (n : nat) : File :=
  Some (map (fun i => tsv ["1"%string; "1"%string; rank_name i]) (seq 0 n)).

(** [nodesStep] as a total function. *)
Definition nodesStep_pure (s : gmap Z Z * Z * Z) (tax : NodeRec.taxon)
    : gmap Z Z * Z * Z :=
  (<[NodeRec.Taxid tax := NodeRec.Parent tax]> (s.1.1),
   (if NodeRec.Taxid tax =? NodeRec.Parent tax then NodeRec.Taxid tax
    else s.1.2),
   Z.max s.2 (NodeRec.Taxid tax)).

(** What the locals of [NewTaxonomyWithRank] satisfy after the records
    [recs] have gone through the loop. *)
Record rank_inv (s : builder) (recs : list RankRec.taxon) : Prop := {
  ri_nodup : NoDup (b_ranks s);
  ri_len : (length (b_ranks s) <= 255)%nat;
  ri_ids : forall r i, b_rank2rankid s !! r = Some i
                       <-> 0 <= i /\ b_ranks s !! Z.to_nat i = Some r;
  ri_elems : forall r, r ∈ b_ranks s <-> r ∈ RankRec.Rank <$> recs;
  ri_set : b_ranksMap s = list_to_set (b_ranks s);
  ri_max : b_maxTaxid s = fold_left Z.max (RankRec.Taxid <$> recs) 0;
  ri_rank : forall x,
      match rank_of x recs with
      | Some r => exists i, b_taxid2rankid s !! x = Some i /\ 0 <= i
                            /\ b_ranks s !! Z.to_nat i = Some r
      | None => b_taxid2rankid s !! x = None
      end
}.

(** [t'] has the tree of [t]: the fields that the walks read. *)
Definition same_tree (t t' : Taxonomy) : Prop :=
  Nodes t' = Nodes t /\ MergeNodes t' = MergeNodes t
  /\ hasMergeNodes t' = hasMergeNodes t /\ rootNode t' = rootNode t.

(** [t] has the tree of [t0] and every entry of its cache is the answer
    computed on [t0]. *)
Definition cache_ok (t0 t : Taxonomy) : Prop :=
  same_tree t0 t
  /\ forall a b v, is_uint32 a -> is_uint32 b -> a <> 0 -> b <> 0 -> a <> b ->
       lcaCache t !! pack2uint32 a b = Some v ->
       exists fuel, value fuel t0 a b = Some v.

(** [ancestor N x y]: [y] is the key [x] or one of its ancestors. *)
Definition ancestor (N : gmap Z Z) (x y : Z) : Prop :=
  exists ps r, path N x ps r /\ y ∈ x :: ps.

(** The store with another merge map and merge flag. *)
Definition with_merge (t : Taxonomy) (m : gmap Z Z) (h : bool) : Taxonomy :=
  mkTaxonomy (rootNode t) (Nodes t) (DelNodes t) m (taxid2rankid t) (ranks t)
    (Ranks t) (hasRanks t) (hasDelNodes t) h (cacheLCA t) (lcaCache t)
    (maxTaxid t).

(** A ranked record without its rank. *)
Definition strip (tax : RankRec.taxon) : NodeRec.taxon :=
  NodeRec.mk (RankRec.Taxid tax) (RankRec.Parent tax).

(** The tree part of the locals of [NewTaxonomyWithRank]. *)
Definition tree_of (s : builder) : gmap Z Z * Z * Z :=
  (b_nodes s, b_root s, b_maxTaxid s).

(** A chunk of ranked records without their ranks. *)
Definition strip_chunk (ch : Chunk RankRec.taxon) : Chunk NodeRec.taxon :=
  mkChunk (strip <$> Data ch) (ChunkErr ch).

(** ** filterCode (cmd/filter.go)

    Go's [int] is 64 bits wide: [wrap64] is the wrap-around of an
    arithmetic result.  The counters of the [for] loops stay below their
    bounds and are not wrapped. *)
Definition wrap64 (x : Z) : Z := (x + 2 ^ 63) mod 2 ^ 64 - 2 ^ 63.

(** [scores[i] = v]; [None] stands for the index-out-of-range panic. *)
Definition put (scores : list Z) (i v : Z) : option (list Z) :=
  if (0 <=? i) && (i <? Z.of_nat (length scores))
  then Some (<[Z.to_nat i := v]> scores)
  else None.

(** First loop of [filterCode], [todo] iterations from [i] on. *)
Fixpoint scoreLoop (todo : nat) (i code last : Z) (scores : list Z)
    : option (list Z) :=
  match todo with
  | O => Some scores
  | S todo' =>
      let c := Z.land code 3 in
      match put scores i
              (if i >? 0 then if c =? last then 2 else -1 else 1) with
      | None => None
      | Some scores => scoreLoop todo' (i + 1) (Z.shiftr code 2) c scores
      end
  end.

(** [for j := 0; j < window; j++ { s += scores[j] }] *)
Fixpoint sumLoop (todo : nat) (j s : Z) (scores : list Z) : option Z :=
  match todo with
  | O => Some s
  | S todo' =>
      match index scores j with
      | None => None
      | Some x => sumLoop todo' (j + 1) (wrap64 (s + x)) scores
      end
  end.

(** Second loop of [filterCode], [todo] iterations from [i] on. *)
Fixpoint slideLoop (todo : nat) (i s pre threshold window : Z)
    (scores : list Z) : option bool :=
  match todo with
  | O => Some false
  | S todo' =>
      match (if i =? 0 then sumLoop (Z.to_nat window) 0 s scores
             else match index scores (wrap64 (wrap64 (i + window) - 1)) with
                  | None => None
                  | Some x => Some (wrap64 (wrap64 (s - pre) + x))
                  end) with
      | None => None
      | Some s =>
          match index scores i with
          | None => None
          | Some pre =>
              if s >=? threshold then Some true
              else slideLoop todo' (i + 1) s pre threshold window scores
          end
      end
  end.

(** [filterCode]: the answer and the score buffer after the call. *)
Definition filterCode (code k threshold window : Z) (scores : list Z)
    : result (bool * list Z) :=
  match scoreLoop (Z.to_nat k) 0 code 356 scores with
  | None => Panic None
  | Some scores =>
      let iLast := wrap64 (wrap64 (k - window) - 1) in
      let iLast := if iLast <? 0 then 0 else iLast in
      match slideLoop (Z.to_nat (iLast + 1)) 0 0 0 threshold window scores with
      | None => Panic None
      | Some hit => Ok (hit, scores)
      end
  end.

(** The [i]-th base of a k-mer code, counted from the low end. *)
Definition base (code : Z) (i : nat) : Z :=
  Z.land (Z.shiftr code (2 * Z.of_nat i)) 3.

(** The score of position [i]: 1 at the start, 2 for a base that repeats
    the one before it, -1 otherwise. *)
Definition score_at (code : Z) (i : nat) : Z :=
  match i with
  | O => 1
  | S j => if base code (S j) =? base code j then 2 else -1
  end.

(** The sum of [f] over the [w] positions from [i] on. *)
Definition window_sum (f : nat -> Z) (i w : nat) : Z :=
  fold_right Z.add 0 (f <$> seq i w).

(** The buffer once the first loop has scored [n] positions. *)
Definition scored (code : Z) (n : nat) (scores0 : list Z) : list Z :=
  (score_at code <$> seq 0 n) ++ drop n scores0.

(** Some window of [window] positions, starting at one of the positions that
    the second loop visits, scores at least [threshold]. *)
Definition low_complexity (code k threshold window : Z) : bool :=
  existsb (fun j => threshold <=? window_sum (score_at code) j (Z.to_nat window))
    (seq 0 (Z.to_nat (Z.max 1 (k - window)))).

(** The read loop of the filter command over the codes of the input file;
    the output is what went to [writer.Write]. *)
Fixpoint filterLoop (k threshold window : Z) (invert : bool)
    (codes : list Z) (scores : list Z) (out : list Z) : result (list Z) :=
  match codes with
  | [] => Ok out
  | code :: rest =>
      match filterCode code k threshold window scores with
      | Ok (hit, scores) =>
          if (if invert then negb hit else hit)
          then filterLoop k threshold window invert rest scores out
          else filterLoop k threshold window invert rest scores (out ++ [code])
      | Err e => Err e
      | Panic e => Panic e
      end
  end.

(** The filter command on one file of [k]-mers: the window is cut down to
    [k], the score buffer is allocated once and shared by all calls. *)
Definition filterRun (k threshold window : Z) (invert : bool)
    (codes : list Z) : result (list Z) :=
  let window := if window >? k then k else window in
  let scores := replicate (Z.to_nat k) 0 in
  filterLoop k threshold window invert codes scores [].

(** ** The intersection loop of the inter command (cmd/inter.go) *)

Module CT.
(** [unikmer.CodeTaxid], as the loop uses it. *)
Record CodeTaxid : Type := mk { Code : Z; Taxid : Z }.
End CT.

(** What the closure run on a file returns. *)
Inductive flag : Type := flagContinue | flagBreak | flagReturn.

(** [l[i] = v]; [None] stands for the index-out-of-range panic. *)
Definition assign {A} (l : list A) (i : Z) (v : A) : option (list A) :=
  if (0 <=? i) && (i <? Z.of_nat (length l))
  then Some (<[Z.to_nat i := v]> l)
  else None.

(** The [for] loop that walks [mc] and the records of a later file, both
    in step.  [rest] holds the records that [reader.ReadCodeWithTaxid] has
    not returned yet (it answers [io.EOF] when there is none left); the
    outer [None] is a loop, or an [LCA] call, that the fuel did not let
    finish. *)
Fixpoint interLoop (fuel lfuel : nat) (hasTaxid : bool) (taxondb : Taxonomy)
    (mc : list CT.CodeTaxid) (m : list bool) (ii qCode qtaxid code taxid : Z)
    (rest : list (Z * Z))
    : option (result (Taxonomy * list CT.CodeTaxid * list bool)) :=
  match fuel with
  | O => None
  | S fuel' =>
      if qCode <? code then
        let ii := ii + 1 in
        if ii >=? Z.of_nat (length mc) then Some (Ok (taxondb, mc, m))
        else
          match index mc ii with
          | None => Some (Panic None)
          | Some q =>
              interLoop fuel' lfuel hasTaxid taxondb mc m ii
                (CT.Code q) (CT.Taxid q) code taxid rest
          end
      else if qCode =? code then
        match (if hasTaxid then
                 match LCA lfuel taxondb qtaxid taxid with
                 | None => None
                 | Some (v, taxondb) =>
                     Some (taxondb,
                           match index mc ii with
                           | None => None
                           | Some q => assign mc ii (CT.mk (CT.Code q) v)
                           end)
                 end
               else Some (taxondb, Some mc)) with
        | None => None
        | Some (_, None) => Some (Panic None)
        | Some (taxondb, Some mc) =>
            match assign m ii true with
            | None => Some (Panic None)
            | Some m =>
                let ii := ii + 1 in
                if ii >=? Z.of_nat (length mc) then Some (Ok (taxondb, mc, m))
                else
                  match index mc ii with
                  | None => Some (Panic None)
                  | Some q =>
                      match rest with
                      | [] => Some (Ok (taxondb, mc, m))
                      | (code, taxid) :: rest =>
                          interLoop fuel' lfuel hasTaxid taxondb mc m ii
                            (CT.Code q) (CT.Taxid q) code taxid rest
                      end
                  end
            end
        end
      else
        match rest with
        | [] => Some (Ok (taxondb, mc, m))
        | (code, taxid) :: rest =>
            interLoop fuel' lfuel hasTaxid taxondb mc m ii qCode qtaxid
              code taxid rest
        end
  end.

(** [for ii, found := range m { if found { mc1 = append(mc1, mc[ii]) } }] *)
Fixpoint collect (m : list bool) (ii : Z) (mc mc1 : list CT.CodeTaxid)
    : result (list CT.CodeTaxid) :=
  match m with
  | [] => Ok mc1
  | found :: m' =>
      if found then
        match index mc ii with
        | None => Panic None
        | Some q => collect m' (ii + 1) mc (mc1 ++ [q])
        end
      else collect m' (ii + 1) mc mc1
  end.

(** The closure on a file that is not the first one.  (The count [n] of the
    first loop is only the capacity of [mc1]; [hasInter] only chooses a log
    message.) *)
Definition interFile (fuel lfuel : nat) (hasTaxid : bool) (taxondb : Taxonomy)
    (mc : list CT.CodeTaxid) (m : list bool) (stream : list (Z * Z))
    : option (result (flag * Taxonomy * list CT.CodeTaxid * list bool)) :=
  match index mc 0 with
  | None => Some (Panic None)
  | Some q =>
      match stream with
      | [] => Some (Ok (flagBreak, taxondb, mc, m))
      | (code, taxid) :: rest =>
          match interLoop fuel lfuel hasTaxid taxondb mc m 0
                  (CT.Code q) (CT.Taxid q) code taxid rest with
          | None => None
          | Some (Err e) => Some (Err e)
          | Some (Panic e) => Some (Panic e)
          | Some (Ok (taxondb, mc, m)) =>
              match collect m 0 mc [] with
              | Err e => Some (Err e)
              | Panic e => Some (Panic e)
              | Ok mc1 =>
                  let n := length mc1 in
                  let m := replicate n false in
                  if (n =? 0)%nat then Some (Ok (flagBreak, taxondb, mc1, m))
                  else Some (Ok (flagContinue, taxondb, mc1, m))
              end
          end
      end
  end.

(** The loop over the input files; the result is [mc], the k-mers that the
    command goes on to write. *)
Fixpoint interFiles (fuel lfuel : nat) (hasTaxid : bool) (taxondb : Taxonomy)
    (firstFile : bool) (mc : list CT.CodeTaxid) (m : list bool)
    (files : list (list (Z * Z)))
    : option (result (Taxonomy * list CT.CodeTaxid)) :=
  match files with
  | [] => Some (Ok (taxondb, mc))
  | stream :: files =>
      if firstFile then
        interFiles fuel lfuel hasTaxid taxondb false
          (mc ++ ((fun r => CT.mk r.1 r.2) <$> stream))
          (m ++ replicate (length stream) false) files
      else
        match interFile fuel lfuel hasTaxid taxondb mc m stream with
        | None => None
        | Some (Err e) => Some (Err e)
        | Some (Panic e) => Some (Panic e)
        | Some (Ok (flagContinue, taxondb, mc, m)) =>
            interFiles fuel lfuel hasTaxid taxondb false mc m files
        | Some (Ok (_, taxondb, mc, _)) => Some (Ok (taxondb, mc))
        end
  end.

Definition interRun (fuel lfuel : nat) (hasTaxid : bool) (taxondb : Taxonomy)
    (files : list (list (Z * Z))) : option (result (Taxonomy * list CT.CodeTaxid)) :=
  interFiles fuel lfuel hasTaxid taxondb true [] [] files.

(** Codes strictly increasing, as in a sorted file without duplicates. *)
Definition increasing (codes : list Z) : Prop := StronglySorted Z.lt codes.

(** The same, as a test. *)
Fixpoint increasingb (codes : list Z) : bool :=
  match codes with
  | [] => true
  | c :: codes' => forallb (Z.ltb c) codes' && increasingb codes'
  end.

(** The record of a stream for [code], if any. *)
Definition record_of (code : Z) (stream : list (Z * Z)) : option (Z * Z) :=
  List.find (fun r => r.1 =? code) stream.

(** What a walk over [stream] makes of an entry of [mc]: marked when its
    code is in the stream, and then with the LCA of the two taxids when
    taxids are kept. *)
Definition met (lfuel : nat) (hasTaxid : bool) (taxondb : Taxonomy)
    (stream : list (Z * Z)) (q : CT.CodeTaxid) : bool * CT.CodeTaxid :=
  match record_of (CT.Code q) stream with
  | None => (false, q)
  | Some r =>
      (true,
       if hasTaxid
       then CT.mk (CT.Code q)
              (default 0 (lca lfuel taxondb (CT.Taxid q) r.2))
       else q)
  end.

(** The errors a loader passes on from the reader, wrapped: the file could
    not be opened, or a token is no number. *)
Definition reader_error (e : error) : Prop :=
  e = ErrWrapped ErrOpen \/ exists tok, e = ErrWrapped (ErrNum tok).

(** The rank strings of an input: the field in column [rankColumn] of every
    line that has one. *)
Definition rank_column (file : File) (rankColumn : Z) : list string :=
  match file with
  | None => []
  | Some lines =>
      omap (fun line => index (Split (TrimSpace line)) (rankColumn - 1)) lines
  end.

(** A callback whose only errors are those of [strconv.Atoi]. *)
Definition num_errors {A} (fn : string -> parsed A) : Prop :=
  forall line e, fn line = ParseError e -> exists tok, e = ErrNum tok.

(** A chunk whose error, if any, is one of [strconv.Atoi]. *)
Definition num_chunk {A} (ch : Chunk A) : Prop :=
  forall e, ChunkErr ch = Some e -> exists tok, e = ErrNum tok.

(** * Properties *)

Example lca_5_6 : lca 10 (store_of 1 demo_nodes None) 5 6 = Some 3.
Proof. vm_compute. reflexivity. Qed.
Example lca_5_7 : lca 10 (store_of 1 demo_nodes None) 5 7 = Some 2.
Proof. vm_compute. reflexivity. Qed.
Example lca_3_5 : lca 10 (store_of 1 demo_nodes None) 3 5 = Some 3.
Proof. vm_compute. reflexivity. Qed.
Example lca_5_2 : lca 10 (store_of 1 demo_nodes None) 5 2 = Some 2.
Proof. vm_compute. reflexivity. Qed.
Example lca_99_6_merged :
  lca 10 (store_of 1 demo_nodes (Some {[99 := 5]})) 99 6 = Some 3.
Proof. vm_compute. reflexivity. Qed.
Example lca_99_6 : lca 10 (store_of 1 demo_nodes (Some ∅)) 99 6 = Some 0.
Proof. vm_compute. reflexivity. Qed.
Example split_tsv : Split (tsv ["5"; "|"; "3"; "|"; "class"]%string)
                    = ["5"; "|"; "3"; "|"; "class"]%string.
Proof. vm_compute. reflexivity. Qed.
Example trim_ex : TrimSpace (String tab " 12 3  ")%string = "12 3"%string.
Proof. vm_compute. reflexivity. Qed.
Example atoi_ex : Atoi "-12"%string = inr (-12) /\ Atoi "+7"%string = inr 7
  /\ Atoi "1x"%string = inl (ErrNum "1x"%string)
  /\ Atoi "-"%string = inl (ErrNum "-"%string)
  /\ Atoi ""%string = inl (ErrNum ""%string)
  /\ Atoi "9223372036854775808"%string = inl (ErrNum "9223372036854775808"%string).
Proof. vm_compute. repeat split. Qed.
Example demo_build :
  exists t, NewTaxonomyWithRank demo_file 1 3 5 = Ok t
    /\ Nodes t = demo_nodes /\ rootNode t = 1 /\ MaxTaxid t = 7
    /\ ranks t = ["no rank"; "superkingdom"; "phylum"; "class"]%string
    /\ Rank t 6 = Ok "class"%string /\ Rank t 8 = Ok ""%string.
Proof. eexists. vm_compute. repeat split. Qed.

(** ** Fast paths and unresolvable arguments of LCA *)

(** C3: [LCA x x] is [x] for every [x], present in the parent map or not,
    [LCA 0 x] and [LCA x 0] are [0]; none of these calls enters a loop or
    touches the store. *)
Theorem LCA_fast_paths (fuel : nat) (t : Taxonomy) (x : Z) :
  LCA fuel t x x = Some (x, t) /\ LCA fuel t 0 x = Some (0, t)
  /\ LCA fuel t x 0 = Some (0, t)
  /\ lca fuel t x x = Some x /\ lca fuel t 0 x = Some 0
  /\ lca fuel t x 0 = Some 0.
Proof.
  assert (Hxx : LCA fuel t x x = Some (x, t)).
  { unfold LCA. destruct (x =? 0) eqn:Hx; simpl.
    - apply Z.eqb_eq in Hx. by subst.
    - by rewrite Z.eqb_refl. }
  assert (H0x : LCA fuel t 0 x = Some (0, t)) by done.
  assert (Hx0 : LCA fuel t x 0 = Some (0, t)).
  { unfold LCA. by rewrite orb_true_r. }
  unfold lca. rewrite Hxx, H0x, Hx0. done.
Qed.

Lemma resolve_unknown (t : Taxonomy) (a : Z) :
  Nodes t !! a = None -> MergeNodes t !! a = None -> resolve t a = None.
Proof.
  intros Hn Hm. unfold resolve. rewrite Hn, Hm. by destruct (hasMergeNodes t).
Qed.

(** C2, as the code has it: a taxid [a] that is a key of neither map gives
    [0] against every [b] other than [0] and [a] itself, whenever the answer
    is computed (caching off, or no entry for the pair). *)
Theorem LCA_unresolvable (fuel : nat) (t : Taxonomy) (a b : Z) :
  Nodes t !! a = None -> MergeNodes t !! a = None ->
  b <> 0 -> b <> a ->
  (cacheLCA t = true -> lcaCache t !! pack2uint32 a b = None) ->
  lca (S fuel) t a b = Some 0.
Proof.
  intros Hn Hm Hb Hab Hc. unfold lca, LCA.
  destruct (a =? 0) eqn:Ha0; [done|].
  destruct (b =? 0) eqn:Hb0; [apply Z.eqb_eq in Hb0; done|]. simpl orb. cbv iota.
  destruct (a =? b) eqn:Hab'; [apply Z.eqb_eq in Hab'; congruence|].
  cbv zeta.
  assert (Hw : walk (S fuel) t a b = Some (Return 0)).
  { unfold walk. simpl. by rewrite (resolve_unknown t a Hn Hm). }
  rewrite Hw.
  destruct (cacheLCA t) eqn:Hcache; [rewrite (Hc eq_refl)|]; done.
Qed.

Lemma LCA_unresolvable_witness :
  lca 1 (store_of 1 demo_nodes (Some {[99 := 5]})) 98 6 = Some 0.
Proof.
  apply (LCA_unresolvable 0 (store_of 1 demo_nodes (Some {[99 := 5]})) 98 6).
  - vm_compute. reflexivity.
  - vm_compute. reflexivity.
  - lia.
  - lia.
  - vm_compute. intros H. discriminate H.
Defined.

(** C2 as stated fails at [b = a]: the equality check answers [a]. *)
Lemma LCA_unresolvable_same_taxid :
  ~ (forall (fuel : nat) (t : Taxonomy) (a b : Z),
        Nodes t !! a = None -> MergeNodes t !! a = None -> b <> 0 ->
        lca (S fuel) t a b = Some 0).
Proof.
  intros H.
  specialize (H 0%nat (store_of 0 ∅ None) 99 99).
  vm_compute in H. specialize (H eq_refl eq_refl).
  assert (Hne : Zpos 99 = 0 -> False) by discriminate.
  specialize (H Hne). discriminate H.
Qed.

(** With caching on, an entry written for the swapped pair is served even
    though the first argument is in neither map. *)
Example LCA_unresolvable_cached :
  exists t, LCA 5 (CacheLCA dangling) 2 3 = Some (3, t)
    /\ Nodes t !! 3 = None /\ MergeNodes t !! 3 = None
    /\ lca 5 t 3 2 = Some 3.
Proof. eexists. vm_compute. repeat split. Qed.

(** ** Short lines in the node parsers *)

(** C5 fails on the code: [NewTaxonomy] and [NewTaxonomyWithRank] compare
    the field count with the minimum of the column indices, so a line with
    two fields read with columns 1 and 3 passes the guard and indexing the
    third field panics; [LoadMergedNodes], which compares with the maximum,
    skips the same line. *)
Theorem NewTaxonomy_short_line_panics :
  let line := tsv ["5"; "2"]%string in
  nodesParseFunc (minInt 1 [3]) 0 2 line = ParsePanic
  /\ NewTaxonomy (Some [line]) 1 3 = Panic None
  /\ ranksParseFunc (minInt 1 [3; 5]) 0 2 4 line = ParsePanic
  /\ NewTaxonomyWithRank (Some [line]) 1 3 5 = Panic None
  /\ mergedParseFunc 3 0 2 line = Skipped
  /\ fst (LoadMergedNodes (store_of 0 ∅ None) (Some [line]) 1 3) = Ok tt.
Proof. vm_compute. repeat split. Qed.

(** In general: a line with at least min and fewer than max(columns) fields
    is never skipped by the node parser; it panics, unless the field read
    first is there and is no number. *)
Lemma nodesParseFunc_short_line (c p : Z) (line : string) :
  1 <= c -> 1 <= p -> TrimSpace line <> EmptyString ->
  Z.min c p <= Z.of_nat (length (Split (TrimSpace line))) < Z.max c p ->
  nodesParseFunc (minInt c [p]) (c - 1) (p - 1) line = ParsePanic
  \/ exists e, nodesParseFunc (minInt c [p]) (c - 1) (p - 1) line
               = ParseError e.
Proof.
  intros Hc Hp Hne Hn. unfold nodesParseFunc, minInt, index. simpl fold_left.
  apply String.eqb_neq in Hne. rewrite Hne.
  set (items := Split (TrimSpace line)) in *.
  assert (Hmin : (if p <? c then p else c) = Z.min c p)
    by (destruct (Z.ltb_spec p c); lia).
  rewrite Hmin. destruct (Z.ltb_spec (Z.of_nat (length items)) (Z.min c p));
    [lia|].
  destruct (Z.ltb_spec (c - 1) 0); [lia|]. destruct (Z.ltb_spec (p - 1) 0); [lia|].
  destruct (items !! Z.to_nat (c - 1)) as [tok|] eqn:Hic; [|by left].
  destruct (Atoi tok) as [e|child]; [right; by exists e|].
  destruct (items !! Z.to_nat (p - 1)) as [tok'|] eqn:Hip; [|by left].
  apply lookup_lt_Some in Hic, Hip. lia.
Qed.

(** ** The builder loops *)

Section total_body.
Context {S A : Type} (body : S -> A -> result S) (f : S -> A -> S).
Hypothesis body_total : forall s x, body s x = Ok (f s x).

Lemma forData_total (l : list A) (s : S) :
  forData body s l = Ok (fold_left f l s).
Proof.
  revert s. induction l as [|x l IH]; intros s; simpl; [done|].
  rewrite body_total. apply IH.
Qed.

Lemma forChunks_total (chunks : list (Chunk A)) (s : S) :
  match forChunks body s chunks with
  | Ok s' => clean chunks /\ s' = fold_left f (delivered chunks) s
  | Err e => ~ clean chunks /\ exists e', e = ErrWrapped e'
  | Panic _ => False
  end.
Proof.
  revert s. induction chunks as [|ch chunks IH]; intros s; simpl.
  - split; [constructor|done].
  - destruct (ChunkErr ch) as [e|] eqn:He.
    + split; [|by exists e]. intros Hc. inversion Hc; congruence.
    + rewrite forData_total. specialize (IH (fold_left f (Data ch) s)).
      destruct (forChunks body (fold_left f (Data ch) s) chunks).
      * destruct IH as [Hc ->]. split; [by constructor|].
        by rewrite fold_left_app.
      * destruct IH as [Hc He']. split; [|done].
        intros Hc'. inversion Hc'; auto.
      * done.
Qed.
End total_body.

Lemma nodesStep_total s tax : nodesStep s tax = Ok (nodesStep_pure s tax).
Proof.
  destruct s as [[nodes root] m]. unfold nodesStep, nodesStep_pure. simpl.
  do 2 f_equal. destruct (Z.gtb_spec (NodeRec.Taxid tax) m); lia.
Qed.

Lemma mergedStep_total m p : mergedStep m p = Ok (<[fst p := snd p]> m).
Proof. done. Qed.

Lemma deletedStep_total m x : deletedStep m x = Ok ({[x]} ∪ m).
Proof. done. Qed.

Lemma fold_max_nonneg (l : list Z) (m : Z) :
  0 <= m -> fold_left Z.max l m = Z.max m (fold_right Z.max 0 l).
Proof.
  revert m. induction l as [|x l IH]; intros m Hm; simpl; [lia|].
  rewrite IH by lia. lia.
Qed.

Lemma nodes_fold_max (recs : list NodeRec.taxon) s :
  (fold_left nodesStep_pure recs s).2
  = fold_left Z.max (NodeRec.Taxid <$> recs) s.2.
Proof.
  revert s. induction recs as [|r recs IH]; intros s; simpl; [done|].
  by rewrite IH.
Qed.

(** What a successful [NewTaxonomy] returns, in terms of the records that
    its reader delivered. *)
Lemma NewTaxonomy_Ok file c p t :
  NewTaxonomy file c p = Ok t ->
  exists chunks, nodesReader file c p = Ok chunks /\ clean chunks
    /\ t = (let s := fold_left nodesStep_pure (delivered chunks) (∅, 0, 0) in
            plainTaxonomy s.1.1 s.1.2 s.2).
Proof.
  unfold NewTaxonomy, nodesReader.
  destruct ((c <? 1) || (p <? 1)); [done|]. cbv zeta.
  destruct (NewBufferedReader _ _ _ _) as [chunks| |]; [|done..].
  pose proof (forChunks_total nodesStep nodesStep_pure nodesStep_total
                chunks (∅, 0, 0)) as H.
  destruct (forChunks nodesStep (∅, 0, 0) chunks) as [[[n r] m]| |]; [|done..].
  destruct H as [Hc Hs]. intros [= <-]. exists chunks.
  split; [done|]. split; [done|]. by rewrite <- Hs.
Qed.

(** ** Merged and deleted nodes *)

(** C9: a [LoadMergedNodes] or [LoadDeletedNodes] that returns an error
    (illegal column, file that cannot be opened, parse error on a line)
    leaves the store as it was: merge map, delete set and flags included. *)
Theorem Load_error_keeps_store (t t' : Taxonomy) (file : File) (e : error)
    (oldColumn newColumn column : Z) :
  LoadMergedNodes t file oldColumn newColumn = (Err e, t')
  \/ LoadDeletedNodes t file column = (Err e, t') ->
  t' = t.
Proof.
  intros [H|H]; revert H.
  - unfold LoadMergedNodes.
    destruct ((oldColumn <? 1) || (newColumn <? 1)); [by intros [= _ <-]|].
    cbv zeta.
    destruct (NewBufferedReader _ _ _ _) as [chunks| |]; [|by intros [= _ <-]..].
    destruct (forChunks _ _ _); by intros [= _ <-].
  - unfold LoadDeletedNodes.
    destruct (column <? 1); [by intros [= _ <-]|]. cbv zeta.
    destruct (NewBufferedReader _ _ _ _) as [chunks| |]; [|by intros [= _ <-]..].
    destruct (forChunks _ _ _); by intros [= _ <-].
Qed.

(** The three ways to fail: illegal column, unreadable file, bad token. *)
Example Load_errors (t : Taxonomy) :
  LoadMergedNodes t merged_file_1 0 3 = (Err ErrIllegalColumnIndex, t)
  /\ LoadMergedNodes t None 1 3 = (Err (ErrWrapped ErrOpen), t)
  /\ LoadMergedNodes t (Some [tsv ["99"; "|"; "5"]; tsv ["98"; "|"; "x"]]%string)
       1 3 = (Err (ErrWrapped (ErrNum "x")), t)
  /\ LoadDeletedNodes t deleted_file_1 0 = (Err ErrIllegalColumnIndex, t)
  /\ LoadDeletedNodes t None 1 = (Err (ErrWrapped ErrOpen), t)
  /\ LoadDeletedNodes t (Some ["50"; "5o"]%string) 1
     = (Err (ErrWrapped (ErrNum "5o")), t).
Proof. repeat split. Qed.

Lemma Load_error_keeps_store_witness :
  let t := store_of 1 demo_nodes (Some {[99 := 5]}) in
  snd (LoadMergedNodes t (Some [tsv ["98"; "|"; "x"]]%string) 1 3) = t.
Proof.
  intros t.
  apply (Load_error_keeps_store t _ (Some [tsv ["98"; "|"; "x"]]%string)
           (ErrWrapped (ErrNum "x")) 1 3 1).
  left. vm_compute. reflexivity.
Defined.

Lemma merged_fold_lookup (recs : list (Z * Z)) (m : gmap Z Z) (k : Z) :
  fold_left (fun m p => <[fst p := snd p]> m) recs m !! k
  = fold_left (fun acc p => if fst p =? k then Some (snd p) else acc)
      recs (m !! k).
Proof.
  revert m. induction recs as [|p recs IH]; intros m; simpl; [done|].
  rewrite IH. f_equal. destruct (Z.eqb_spec (fst p) k) as [->|Hne].
  - by rewrite lookup_insert_eq.
  - by rewrite lookup_insert_ne.
Qed.

Lemma deleted_fold_elem (recs : list Z) (m : gset Z) (x : Z) :
  x ∈ fold_left (fun m y => {[y]} ∪ m) recs m <-> x ∈ recs \/ x ∈ m.
Proof.
  revert m. induction recs as [|y recs IH]; intros m; simpl.
  - set_solver.
  - rewrite IH. set_solver.
Qed.

(** C10: a successful load replaces the merge map (the delete set): on any
    store, so also on one that an earlier load has filled, the map after the
    call holds exactly the pairs of this file, the last pair for a key
    winning, and the flag is set. *)
Theorem Load_replaces (t t' : Taxonomy) (file : File)
    (oldColumn newColumn column : Z) :
  (LoadMergedNodes t file oldColumn newColumn = (Ok tt, t') ->
   exists chunks, mergedReader file oldColumn newColumn = Ok chunks
     /\ clean chunks /\ hasMergeNodes t' = true
     /\ forall k, MergeNodes t' !! k = new_of k (delivered chunks))
  /\ (LoadDeletedNodes t file column = (Ok tt, t') ->
   exists chunks, deletedReader file column = Ok chunks
     /\ clean chunks /\ hasDelNodes t' = true
     /\ forall x, x ∈ DelNodes t' <-> x ∈ delivered chunks).
Proof.
  split.
  - unfold LoadMergedNodes, mergedReader.
    destruct ((oldColumn <? 1) || (newColumn <? 1)); [done|]. cbv zeta.
    destruct (NewBufferedReader _ _ _ _) as [chunks| |]; [|done..].
    pose proof (forChunks_total mergedStep _ mergedStep_total chunks ∅) as H.
    destruct (forChunks mergedStep ∅ chunks) as [m| |]; [|done..].
    destruct H as [Hc ->]. intros [= <-]. exists chunks.
    repeat split; [done|]. intros k. simpl.
    by rewrite merged_fold_lookup, lookup_empty.
  - unfold LoadDeletedNodes, deletedReader.
    destruct (column <? 1); [done|]. cbv zeta.
    destruct (NewBufferedReader _ _ _ _) as [chunks| |]; [|done..].
    pose proof (forChunks_total deletedStep _ deletedStep_total chunks ∅) as H.
    destruct (forChunks deletedStep ∅ chunks) as [m| |]; [|done..].
    destruct H as [Hc ->]. intros [= <-]. exists chunks.
    repeat split; [done|..]; simpl; rewrite deleted_fold_elem; set_solver.
Qed.

(** Two loads in a row: what the first one loaded is gone. *)
Example Load_twice :
  let t0 := store_of 1 demo_nodes None in
  exists t1 t2 d1 d2,
    LoadMergedNodes t0 merged_file_1 1 3 = (Ok tt, t1)
    /\ LoadMergedNodes t1 merged_file_2 1 3 = (Ok tt, t2)
    /\ MergeNodes t1 = {[99 := 5; 98 := 6]} /\ MergeNodes t2 = {[97 := 7]}
    /\ LoadDeletedNodes t2 deleted_file_1 1 = (Ok tt, d1)
    /\ LoadDeletedNodes d1 deleted_file_2 1 = (Ok tt, d2)
    /\ DelNodes d1 = {[50; 51]} /\ DelNodes d2 = {[52]}.
Proof. do 4 eexists. vm_compute. repeat split. Qed.

Lemma Load_replaces_witness :
  let t1 := snd (LoadMergedNodes (store_of 1 demo_nodes None)
                   merged_file_1 1 3) in
  let t2 := snd (LoadMergedNodes t1 merged_file_2 1 3) in
  MergeNodes t1 !! 99 = Some 5 /\ MergeNodes t2 !! 99 = None
  /\ MergeNodes t2 !! 97 = Some 7.
Proof.
  intros t1 t2.
  destruct (proj1 (Load_replaces t1 t2 merged_file_2 1 3 1))
    as (chunks & Hr & _ & _ & Hk); [vm_compute; reflexivity|].
  split; [vm_compute; reflexivity|].
  rewrite !Hk. vm_compute in Hr. injection Hr as <-.
  split; vm_compute; reflexivity.
Defined.

(** ** The rank table under construction *)

Lemma rank_inv_start : rank_inv builder0 [].
Proof.
  split; simpl; try done.
  - constructor.
  - lia.
  - intros r i. rewrite lookup_empty. split; [done|]. by intros [_ ?].
Qed.

Lemma rank_inv_distinct s recs :
  rank_inv s recs -> distinct_ranks recs = length (b_ranks s).
Proof.
  intros H. unfold distinct_ranks.
  rewrite <- (size_list_to_set (C := gset string) (b_ranks s))
    by apply H.
  f_equal. apply set_eq. intros r. rewrite !elem_of_list_to_set.
  symmetry. apply H.
Qed.

Lemma distinct_ranks_app_le pre l :
  (distinct_ranks pre <= distinct_ranks (pre ++ l))%nat.
Proof.
  unfold distinct_ranks. apply subseteq_size. rewrite fmap_app.
  intros r. rewrite !elem_of_list_to_set, elem_of_app. auto.
Qed.

Lemma rank_of_snoc x recs tax :
  rank_of x (recs ++ [tax])
  = if RankRec.Taxid tax =? x then Some (RankRec.Rank tax)
    else rank_of x recs.
Proof. unfold rank_of. by rewrite fold_left_app. Qed.

Lemma fmap_snoc_max recs tax :
  fold_left Z.max (RankRec.Taxid <$> recs ++ [tax]) 0
  = Z.max (fold_left Z.max (RankRec.Taxid <$> recs) 0) (RankRec.Taxid tax).
Proof. by rewrite fmap_app, fold_left_app. Qed.

Lemma gtb_max (x m : Z) : (if x >? m then x else m) = Z.max m x.
Proof. destruct (Z.gtb_spec x m); lia. Qed.

Lemma to_uint8_small (i : Z) : 0 <= i < 256 -> to_uint8 i = i.
Proof. intros H. unfold to_uint8. by apply Z.mod_small. Qed.

Lemma rank_not_listed s recs r :
  rank_inv s recs -> b_rank2rankid s !! r = None -> r ∉ b_ranks s.
Proof.
  intros H Hn Hin. apply list_elem_of_lookup in Hin as [j Hj].
  assert (b_rank2rankid s !! r = Some (Z.of_nat j)) as Hs.
  { apply H. split; [lia|]. by rewrite Nat2Z.id. }
  congruence.
Qed.

Lemma distinct_ranks_fresh s recs tax :
  rank_inv s recs -> b_rank2rankid s !! RankRec.Rank tax = None ->
  distinct_ranks (recs ++ [tax]) = S (length (b_ranks s)).
Proof.
  intros H Hn. rewrite <- (rank_inv_distinct s recs H).
  unfold distinct_ranks. rewrite fmap_app, list_to_set_app_L. simpl.
  rewrite size_union.
  - rewrite union_empty_r_L, size_singleton. lia.
  - rewrite union_empty_r_L. apply disjoint_singleton_r.
    rewrite elem_of_list_to_set. intros Hin. apply H in Hin.
    by apply (rank_not_listed s recs _ H Hn).
Qed.

Lemma ranksStep_inv s recs tax :
  rank_inv s recs ->
  match ranksStep s tax with
  | Ok s' => rank_inv s' (recs ++ [tax])
  | Err e => e = ErrTooManyRanks /\ (255 < distinct_ranks (recs ++ [tax]))%nat
  | Panic _ => False
  end.
Proof.
  intros H. unfold ranksStep. rewrite gtb_max.
  destruct (b_rank2rankid s !! RankRec.Rank tax) as [rankid|] eqn:Hr.
  - pose proof Hr as Hr'. apply (ri_ids _ _ H) in Hr' as [Hge Hlk].
    pose proof (lookup_lt_Some _ _ _ Hlk) as Hlt.
    pose proof (ri_len _ _ H) as Hlen.
    split; simpl; try apply H.
    + intros r. rewrite fmap_app, elem_of_app, <- (ri_elems _ _ H). simpl.
      rewrite list_elem_of_singleton. split; [auto|].
      intros [Hin| ->]; [done|]. by eapply list_elem_of_lookup_2.
    + by rewrite fmap_snoc_max, (ri_max _ _ H).
    + intros x. rewrite rank_of_snoc.
      destruct (Z.eqb_spec (RankRec.Taxid tax) x) as [->|Hne].
      * exists rankid. rewrite lookup_insert_eq, to_uint8_small by lia. done.
      * rewrite lookup_insert_ne by done. apply H.
  - pose proof (distinct_ranks_fresh s recs tax H Hr) as Hd.
    pose proof (rank_not_listed s recs _ H Hr) as Hfresh.
    rewrite length_app. simpl length.
    destruct (Z.gtb_spec (Z.of_nat (length (b_ranks s) + 1)) 255) as [Hgt|Hle].
    + split; [done|]. lia.
    + assert (Hidx : Z.of_nat (length (b_ranks s) + 1) - 1
                     = Z.of_nat (length (b_ranks s))) by lia.
      rewrite Hidx.
      split; simpl.
      * apply NoDup_app. split; [apply H|]. split; [|apply NoDup_singleton].
        intros r Hin ->%list_elem_of_singleton. done.
      * rewrite length_app. simpl. lia.
      * intros r i. destruct (decide (RankRec.Rank tax = r)) as [<-|Hne].
        -- rewrite lookup_insert_eq. split.
           ++ intros [= <-]. split; [lia|]. rewrite Nat2Z.id.
              by rewrite lookup_app_r, Nat.sub_diag.
           ++ intros [Hi Hlk]. f_equal.
              destruct (decide (Z.to_nat i < length (b_ranks s))%nat) as [Hlt|Hge].
              ** rewrite lookup_app_l in Hlk by done.
                 exfalso. apply Hfresh. by eapply list_elem_of_lookup_2.
              ** apply lookup_lt_Some in Hlk. rewrite length_app in Hlk.
                 simpl in Hlk. lia.
        -- rewrite lookup_insert_ne by done. rewrite (ri_ids _ _ H). split.
           ++ intros [Hi Hlk]. split; [done|].
              rewrite lookup_app_l; [done|]. by eapply lookup_lt_Some.
           ++ intros [Hi Hlk]. split; [done|].
              destruct (decide (Z.to_nat i < length (b_ranks s))%nat) as [Hlt|Hge].
              ** by rewrite lookup_app_l in Hlk.
              ** rewrite lookup_app_r in Hlk by lia.
                 destruct (Z.to_nat i - length (b_ranks s))%nat; simpl in Hlk;
                   [congruence|done].
      * intros r. rewrite fmap_app, !elem_of_app, <- (ri_elems _ _ H). done.
      * rewrite list_to_set_app_L, (ri_set _ _ H). simpl. set_solver.
      * by rewrite fmap_snoc_max, (ri_max _ _ H).
      * intros x. rewrite rank_of_snoc.
        destruct (Z.eqb_spec (RankRec.Taxid tax) x) as [->|Hne].
        -- exists (Z.of_nat (length (b_ranks s))).
           rewrite lookup_insert_eq, to_uint8_small by lia.
           split; [done|]. split; [lia|]. rewrite Nat2Z.id.
           by rewrite lookup_app_r, Nat.sub_diag.
        -- rewrite lookup_insert_ne by done.
           pose proof (ri_rank _ _ H x) as Hx.
           destruct (rank_of x recs); [|done].
           destruct Hx as (i & Hi & Hge & Hlk). exists i.
           split; [done|]. split; [done|].
           rewrite lookup_app_l; [done|]. by eapply lookup_lt_Some.
Qed.

Lemma forData_ranks (l : list RankRec.taxon) s pre :
  rank_inv s pre ->
  match forData ranksStep s l with
  | Ok s' => rank_inv s' (pre ++ l)
  | Err e => e = ErrTooManyRanks /\ (255 < distinct_ranks (pre ++ l))%nat
  | Panic _ => False
  end.
Proof.
  revert s pre. induction l as [|tax l IH]; intros s pre H; simpl.
  - by rewrite app_nil_r.
  - pose proof (ranksStep_inv s pre tax H) as Hstep.
    destruct (ranksStep s tax) as [s'|e|]; [|
      | done].
    + specialize (IH s' (pre ++ [tax]) Hstep).
      by rewrite <- app_assoc in IH.
    + destruct Hstep as [-> Hd]. split; [done|].
      pose proof (distinct_ranks_app_le (pre ++ [tax]) l) as Hle.
      rewrite <- app_assoc in Hle. simpl in Hle. lia.
Qed.

Lemma forChunks_ranks (chunks : list (Chunk RankRec.taxon)) s pre :
  rank_inv s pre ->
  match forChunks ranksStep s chunks with
  | Ok s' => clean chunks /\ rank_inv s' (pre ++ delivered chunks)
  | Err e =>
      (e = ErrTooManyRanks
       /\ (255 < distinct_ranks (pre ++ delivered chunks))%nat)
      \/ (exists e', e = ErrWrapped e') /\ ~ clean chunks
         /\ (distinct_ranks (pre ++ delivered chunks) <= 255)%nat
  | Panic _ => False
  end.
Proof.
  revert s pre. induction chunks as [|ch chunks IH]; intros s pre H; simpl.
  - rewrite app_nil_r. split; [constructor|done].
  - destruct (ChunkErr ch) as [e|] eqn:He.
    + right. split; [by exists e|]. split.
      * intros Hc. inversion Hc; congruence.
      * rewrite app_nil_r, (rank_inv_distinct _ _ H). apply H.
    + pose proof (forData_ranks (Data ch) s pre H) as Hd.
      destruct (forData ranksStep s (Data ch)) as [s'|e|]; [| |done].
      * specialize (IH s' (pre ++ Data ch) Hd).
        rewrite <- app_assoc in IH.
        destruct (forChunks ranksStep s' chunks) as [s''|e|]; [| |done].
        -- destruct IH as [Hc Hi]. split; [by constructor|done].
        -- destruct IH as [IH|(He' & Hc & Hle)]; [by left|right].
           split; [done|]. split; [|done].
           intros Hc'. inversion Hc'; auto.
      * destruct Hd as [-> Hd]. left. split; [done|].
        pose proof (distinct_ranks_app_le (pre ++ Data ch) (delivered chunks))
          as Hle.
        rewrite <- app_assoc in Hle. lia.
Qed.

(** What [NewTaxonomyWithRank] does once its reader has been created. *)
Lemma NewTaxonomyWithRank_reader file c p r chunks :
  1 <= c -> 1 <= p -> 1 <= r ->
  ranksReader file c p r = Ok chunks ->
  NewTaxonomyWithRank file c p r
  = match forChunks ranksStep builder0 chunks with
    | Ok s => Ok (rankedTaxonomy s)
    | Err e => Err e
    | Panic e => Panic e
    end.
Proof.
  intros Hc Hp Hr. unfold ranksReader, NewTaxonomyWithRank.
  destruct (Z.ltb_spec c 1); [lia|]. destruct (Z.ltb_spec p 1); [lia|].
  destruct (Z.ltb_spec r 1); [lia|]. simpl orb. cbv iota zeta.
  by intros ->.
Qed.

Lemma NewTaxonomyWithRank_Ok file c p r t :
  NewTaxonomyWithRank file c p r = Ok t ->
  exists chunks s, ranksReader file c p r = Ok chunks /\ clean chunks
    /\ rank_inv s (delivered chunks) /\ t = rankedTaxonomy s.
Proof.
  unfold NewTaxonomyWithRank, ranksReader.
  destruct ((c <? 1) || (p <? 1) || (r <? 1)); [done|]. cbv zeta.
  destruct (NewBufferedReader _ _ _ _) as [chunks| |]; [|done..].
  pose proof (forChunks_ranks chunks builder0 [] rank_inv_start) as H.
  destruct (forChunks ranksStep builder0 chunks) as [s| |]; [|done..].
  destruct H as [Hc Hs]. intros [= <-]. by exists chunks, s.
Qed.

Lemma fold_right_max_nonneg (l : list Z) : 0 <= fold_right Z.max 0 l.
Proof. induction l; simpl; lia. Qed.

Lemma fold_left_max_0 (l : list Z) :
  fold_left Z.max l 0 = fold_right Z.max 0 l.
Proof.
  rewrite fold_max_nonneg by lia. pose proof (fold_right_max_nonneg l). lia.
Qed.

(** ** MaxTaxid *)

(** C6, as the code has it: after a successful [NewTaxonomy] or
    [NewTaxonomyWithRank], [MaxTaxid] is the maximum of the child taxids of
    the records read ([0] when there is none); parent values do not count. *)
Theorem MaxTaxid_max_child (file : File) (c p r : Z) (t : Taxonomy) :
  (NewTaxonomy file c p = Ok t ->
   exists chunks, nodesReader file c p = Ok chunks /\ clean chunks
     /\ MaxTaxid t = fold_right Z.max 0 (NodeRec.Taxid <$> delivered chunks))
  /\ (NewTaxonomyWithRank file c p r = Ok t ->
   exists chunks, ranksReader file c p r = Ok chunks /\ clean chunks
     /\ MaxTaxid t = fold_right Z.max 0 (RankRec.Taxid <$> delivered chunks)).
Proof.
  split; intros H.
  - apply NewTaxonomy_Ok in H as (chunks & Hr & Hc & ->). exists chunks.
    split; [done|]. split; [done|]. unfold MaxTaxid. simpl.
    by rewrite nodes_fold_max, fold_left_max_0.
  - apply NewTaxonomyWithRank_Ok in H as (chunks & s & Hr & Hc & Hi & ->).
    exists chunks. split; [done|]. split; [done|]. unfold MaxTaxid. simpl.
    by rewrite (ri_max _ _ Hi), fold_left_max_0.
Qed.

Lemma MaxTaxid_max_child_witness :
  exists t, NewTaxonomyWithRank demo_file 1 3 5 = Ok t /\ MaxTaxid t = 7.
Proof.
  eexists. split; [vm_compute; reflexivity|].
  match goal with |- MaxTaxid ?t = _ =>
    destruct (proj2 (MaxTaxid_max_child demo_file 1 3 5 t))
      as (chunks & Hr & _ & ->); [vm_compute; reflexivity|]
  end.
  vm_compute in Hr. injection Hr as <-. vm_compute. reflexivity.
Defined.

(** C6 as stated fails: a parent above every child is not counted. *)
Lemma MaxTaxid_ignores_parents :
  ~ (forall (file : File) (c p : Z) (t : Taxonomy) chunks,
        NewTaxonomy file c p = Ok t -> nodesReader file c p = Ok chunks ->
        MaxTaxid t
        = fold_right Z.max 0
            (flat_map (fun tax => [NodeRec.Taxid tax; NodeRec.Parent tax])
               (delivered chunks))).
Proof.
  intros H.
  specialize (H (Some [tsv ["2"; "3"]%string]) 1 2 _ _ eq_refl eq_refl).
  vm_compute in H. discriminate H.
Qed.

(** ** The rank bound *)

(** C7, for the inputs the reader delivers (columns at least 1, a file
    that opens, no line that makes the parser panic): [NewTaxonomyWithRank]
    fails with [ErrTooManyRanks] exactly when the records read before the
    first parse error hold more than 255 distinct rank strings; with at most
    255 and no parse error it succeeds, and the rank table lists every
    distinct rank once. *)
Theorem NewTaxonomyWithRank_rank_limit (file : File) (c p r : Z)
    (chunks : list (Chunk RankRec.taxon)) :
  1 <= c -> 1 <= p -> 1 <= r ->
  ranksReader file c p r = Ok chunks ->
  (NewTaxonomyWithRank file c p r = Err ErrTooManyRanks
   <-> (255 < distinct_ranks (delivered chunks))%nat)
  /\ (clean chunks -> (distinct_ranks (delivered chunks) <= 255)%nat ->
      exists t, NewTaxonomyWithRank file c p r = Ok t
        /\ NoDup (ranks t)
        /\ length (ranks t) = distinct_ranks (delivered chunks)
        /\ (forall s, s ∈ ranks t <-> s ∈ RankRec.Rank <$> delivered chunks)
        /\ Ranks t = list_to_set (ranks t)).
Proof.
  intros Hc Hp Hr Hread.
  rewrite (NewTaxonomyWithRank_reader file c p r chunks Hc Hp Hr Hread).
  pose proof (forChunks_ranks chunks builder0 [] rank_inv_start) as H.
  simpl in H.
  destruct (forChunks ranksStep builder0 chunks) as [s|e|]; [| |done].
  - destruct H as [Hclean Hi].
    pose proof (rank_inv_distinct _ _ Hi) as Hd.
    pose proof (ri_len _ _ Hi) as Hlen. split.
    + split; [done|lia].
    + intros _ _. exists (rankedTaxonomy s). simpl.
      split; [done|]. split; [apply Hi|]. split; [done|].
      split; apply Hi.
  - destruct H as [[-> Hd]|((e' & ->) & Hnc & Hd)]; split.
    + done.
    + lia.
    + split; [done|lia].
    + by intros Hclean.
Qed.

Lemma NewTaxonomyWithRank_rank_limit_witness :
  exists t, NewTaxonomyWithRank demo_file 1 3 5 = Ok t
            /\ length (ranks t) = 4%nat.
Proof.
  destruct (ranksReader demo_file 1 3 5) as [chunks| |] eqn:Hread;
    [|vm_compute in Hread; discriminate Hread..].
  destruct (NewTaxonomyWithRank_rank_limit demo_file 1 3 5 chunks) as [_ H];
    [lia|lia|lia|exact Hread|].
  vm_compute in Hread. injection Hread as <-.
  destruct H as (t & Ht & _ & Hlen & _).
  - repeat constructor.
  - vm_compute. lia.
  - exists t. split; [exact Ht|]. rewrite Hlen. vm_compute. reflexivity.
Defined.

(** The bound is sharp: 255 distinct ranks load, the 256th fails. *)
Example rank_limit_255 :
  (exists t, NewTaxonomyWithRank (ranks_file 255) 1 2 3 = Ok t
             /\ length (ranks t) = 255%nat)
  /\ NewTaxonomyWithRank (ranks_file 256) 1 2 3 = Err ErrTooManyRanks.
Proof.
  split; [eexists; split|]; vm_compute; reflexivity.
Qed.

(** C7 as first stated, "succeeds on any input with at most 255 distinct
    rank strings", fails on the code: a dump of one line whose taxid is no
    number holds one rank string and is refused. *)
Theorem NewTaxonomyWithRank_fails_under_limit :
  ~ (forall (file : File) (c p r : Z),
       (size (list_to_set (rank_column file r) : gset string) <= 255)%nat ->
       exists t, NewTaxonomyWithRank file c p r = Ok t).
Proof.
  intros H.
  destruct (H (Some [tsv ["x"; "1"; "species"]%string]) 1 2 3) as [t Ht].
  - vm_compute. lia.
  - vm_compute in Ht. discriminate Ht.
Qed.

(** Three inputs with at most one rank string that do not load: a taxid
    that is no number, a line shorter than the rank column, a file that
    cannot be opened. *)
Example rank_limit_other_failures :
  NewTaxonomyWithRank (Some [tsv ["x"; "1"; "species"]%string]) 1 2 3
  = Err (ErrWrapped (ErrNum "x"))
  /\ NewTaxonomyWithRank (Some [tsv ["5"; "2"]%string]) 1 3 5 = Panic None
  /\ NewTaxonomyWithRank None 1 2 3 = Err (ErrWrapped ErrOpen)
  /\ rank_column (Some [tsv ["x"; "1"; "species"]%string]) 3 = ["species"%string]
  /\ rank_column (Some [tsv ["5"; "2"]%string]) 5 = []
  /\ rank_column None 3 = [].
Proof. vm_compute. repeat split. Qed.

(** ** Rank *)

(** C8: [Rank] panics with [ErrRankNotLoaded] on a store built by
    [NewTaxonomy]; on a store built by [NewTaxonomyWithRank] it never
    fails: it returns the rank of the (last) record of the taxon, and the
    empty string for a taxon without record. *)
Theorem Rank_panics_iff_no_ranks (file : File) (c p r : Z) (t : Taxonomy)
    (x : Z) :
  (NewTaxonomy file c p = Ok t -> Rank t x = Panic (Some ErrRankNotLoaded))
  /\ (NewTaxonomyWithRank file c p r = Ok t ->
      exists chunks, ranksReader file c p r = Ok chunks
        /\ Rank t x = Ok (default EmptyString (rank_of x (delivered chunks)))
        /\ (is_Some (taxid2rankid t !! x)
            <-> is_Some (rank_of x (delivered chunks)))).
Proof.
  split; intros H.
  - apply NewTaxonomy_Ok in H as (chunks & _ & _ & ->). done.
  - apply NewTaxonomyWithRank_Ok in H as (chunks & s & Hr & Hc & Hi & ->).
    exists chunks. split; [done|]. unfold Rank. simpl.
    pose proof (ri_rank _ _ Hi x) as Hx.
    destruct (rank_of x (delivered chunks)) as [rk|].
    + destruct Hx as (i & -> & Hge & Hlk). unfold index.
      destruct (Z.ltb_spec i 0); [lia|]. rewrite Hlk. simpl.
      split; [done|]. split; eauto.
    + rewrite Hx. simpl. split; [done|]. split; intros [? ?]; done.
Qed.

Lemma Rank_panics_iff_no_ranks_witness :
  (exists t, NewTaxonomy demo_file 1 3 = Ok t
             /\ Rank t 5 = Panic (Some ErrRankNotLoaded))
  /\ (exists t, NewTaxonomyWithRank demo_file 1 3 5 = Ok t
                /\ Rank t 5 = Ok "class"%string).
Proof.
  split.
  - eexists. split; [vm_compute; reflexivity|].
    match goal with |- Rank ?t _ = _ =>
      apply (proj1 (Rank_panics_iff_no_ranks demo_file 1 3 5 t 5))
    end.
    vm_compute. reflexivity.
  - eexists. split; [vm_compute; reflexivity|].
    match goal with |- Rank ?t _ = _ =>
      destruct (proj2 (Rank_panics_iff_no_ranks demo_file 1 3 5 t 5))
        as (chunks & Hr & -> & _); [vm_compute; reflexivity|]
    end.
    vm_compute in Hr. injection Hr as <-. vm_compute. reflexivity.
Defined.

(** ** The walks of LCA on a forest *)

Lemma resolve_key (t : Taxonomy) (c p : Z) :
  Nodes t !! c = Some p -> resolve t c = Some (c, p).
Proof. intros H. unfold resolve. by rewrite H. Qed.

Lemma resolve_Some (t : Taxonomy) (x c p : Z) :
  resolve t x = Some (c, p) -> Nodes t !! c = Some p.
Proof.
  unfold resolve. destruct (Nodes t !! x) as [p'|] eqn:Hx.
  - by intros [= <- <-].
  - destruct (hasMergeNodes t); [|done].
    destruct (MergeNodes t !! x) as [n|]; [|done].
    destruct (Nodes t !! n) as [p'|] eqn:Hn; [|done].
    by intros [= <- <-].
Qed.

Lemma resolve_None (t : Taxonomy) (x : Z) :
  resolve t x = None -> Nodes t !! x = None.
Proof. unfold resolve. by destruct (Nodes t !! x). Qed.

(** A walk only looks at its start through [resolve]. *)
Lemma walkA_resolve fuel t b x c p lineA mA :
  resolve t x = Some (c, p) ->
  walkA fuel t b x lineA mA = walkA fuel t b c lineA mA.
Proof.
  intros H. destruct fuel; simpl; [done|].
  by rewrite H, (resolve_key t c p (resolve_Some t x c p H)).
Qed.

Lemma walkB_resolve fuel t a mA x c p :
  resolve t x = Some (c, p) ->
  walkB fuel t a mA x = walkB fuel t a mA c.
Proof.
  intros H. destruct fuel; simpl; [done|].
  by rewrite H, (resolve_key t c p (resolve_Some t x c p H)).
Qed.

Lemma find_first {A} (P : A -> bool) (l : list A) (q : A) :
  find P l = Some q ->
  P q = true /\ exists l1 l2, l = l1 ++ q :: l2 /\ forall x, x ∈ l1 -> P x = false.
Proof.
  induction l as [|y l IH]; simpl; [done|].
  destruct (P y) eqn:Hy.
  - intros [= ->]. split; [done|]. exists [], l. split; [done|].
    intros x Hx. by apply elem_of_nil in Hx.
  - intros H. destruct (IH H) as (Hq & l1 & l2 & -> & Hl1). split; [done|].
    exists (y :: l1), l2. split; [done|].
    intros x [->|Hx]%elem_of_cons; auto.
Qed.

Lemma find_nothing {A} (P : A -> bool) (l : list A) :
  find P l = None -> forall x, x ∈ l -> P x = false.
Proof.
  induction l as [|y l IH]; simpl; intros H x Hx.
  - by apply elem_of_nil in Hx.
  - destruct (P y) eqn:Hy; [done|].
    apply elem_of_cons in Hx as [->|Hx]; auto.
Qed.

Section paths.
Variable t : Taxonomy.
Local Abbreviation N := (Nodes t).

Lemma path_root_loop c ps r : path N c ps r -> N !! r = Some r.
Proof. induction 1; auto. Qed.

Lemma path_start c ps r : path N c ps r -> is_Some (N !! c).
Proof. destruct 1; eauto. Qed.

Lemma path_last c ps r : path N c ps r -> r ∈ c :: ps.
Proof.
  induction 1 as [c H|c p ps r H Hne Hp IH].
  - apply list_elem_of_here.
  - by apply list_elem_of_further.
Qed.

Lemma path_of_root r ps r' : N !! r = Some r -> path N r ps r' -> ps = [].
Proof. intros Hr Hp. destruct Hp; [done|congruence]. Qed.

Lemma path_suffix c l1 q l2 r :
  path N c (l1 ++ q :: l2) r -> path N q l2 r.
Proof.
  revert c. induction l1 as [|p l1 IH]; intros c Hp; simpl in Hp.
  - by inversion Hp.
  - inversion Hp; subst. eauto.
Qed.

Lemma path_keys c ps r q : path N c ps r -> q ∈ ps -> is_Some (N !! q).
Proof.
  intros Hp Hq. apply list_elem_of_split in Hq as (l1 & l2 & ->).
  eapply path_start, path_suffix, Hp.
Qed.

(** The first loop, from a key with a path to the root. *)
Lemma walkA_path c ps r :
  path N c ps r ->
  forall fuel b lineA mA, (length ps < fuel)%nat ->
  if bool_decide (b ∈ ps)
  then walkA fuel t b c lineA mA = Some (Return b)
  else exists mA', walkA fuel t b c lineA mA
                   = Some (Break (lineA ++ ps ++ [r], mA'))
         /\ forall x, x ∈ mA' <-> x = r \/ x ∈ ps \/ x ∈ mA.
Proof.
  induction 1 as [c H|c p ps r H Hne Hp IH]; intros fuel b lineA mA Hf.
  - rewrite bool_decide_eq_false_2 by apply not_elem_of_nil.
    destruct fuel; [simpl in Hf; lia|]. simpl.
    rewrite (resolve_key t c c H), Z.eqb_refl.
    eexists. split; [done|]. set_solver.
  - destruct fuel; [simpl in Hf; lia|]. simpl in Hf. simpl.
    rewrite (resolve_key t c p H).
    destruct (Z.eqb_spec p c); [done|].
    destruct (Z.eqb_spec p b) as [->|Hpb].
    + rewrite bool_decide_eq_true_2; [done|]. apply list_elem_of_here.
    + specialize (IH fuel b (lineA ++ [p]) ({[p]} ∪ mA) ltac:(lia)).
      destruct (bool_decide (b ∈ ps)) eqn:Hb.
      * rewrite bool_decide_eq_true_2; [done|].
        apply list_elem_of_further. by apply bool_decide_eq_true in Hb.
      * rewrite bool_decide_eq_false_2.
        2:{ apply bool_decide_eq_false in Hb.
            intros [?|?]%elem_of_cons; congruence. }
        destruct IH as (mA' & -> & HmA). exists mA'.
        rewrite <- app_assoc. split; [done|].
        intros x. rewrite HmA. set_solver.
Qed.

(** The second loop, from a key with a path to the root. *)
Lemma walkB_path c ps r :
  path N c ps r ->
  forall fuel a mA, (length ps < fuel)%nat ->
  walkB fuel t a mA c
  = Some (match find (fun q => (q =? a) || bool_decide (q ∈ mA)) ps with
          | Some q => Return q
          | None => Break tt
          end).
Proof.
  induction 1 as [c H|c p ps r H Hne Hp IH]; intros fuel a mA Hf.
  - destruct fuel; [simpl in Hf; lia|]. simpl.
    by rewrite (resolve_key t c c H), Z.eqb_refl.
  - destruct fuel; [simpl in Hf; lia|]. simpl in Hf. simpl.
    rewrite (resolve_key t c p H).
    destruct (Z.eqb_spec p c); [done|].
    destruct (Z.eqb_spec p a) as [->|Hpa]; [done|]. simpl.
    destruct (bool_decide (p ∈ mA)); [done|].
    apply IH. lia.
Qed.
End paths.

Section forest.
Variable t : Taxonomy.
Local Abbreviation N := (Nodes t).
Local Abbreviation root := (rootNode t).
Variable depth : Z -> nat.
Hypothesis Hroot : forall c, N !! c = Some c -> c = root.
Hypothesis Hclosed : forall c p, N !! c = Some p -> is_Some (N !! p).
Hypothesis Hdepth :
  forall c p, N !! c = Some p -> p <> c -> (depth p < depth c)%nat.

(** Every key has a path, and it ends in the recorded root. *)
Lemma path_exists c : is_Some (N !! c) -> exists ps, path N c ps root.
Proof.
  remember (S (depth c)) as n eqn:Hn.
  assert (Hlt : (depth c < n)%nat) by lia. clear Hn.
  revert c Hlt. induction n as [|n IH]; intros c Hlt [p Hp]; [lia|].
  destruct (decide (p = c)) as [->|Hne].
  - exists []. rewrite <- (Hroot c Hp). by constructor.
  - destruct (IH p) as [ps Hps].
    + specialize (Hdepth c p Hp Hne). lia.
    + by eapply Hclosed.
    + exists (p :: ps). by econstructor.
Qed.

Lemma path_depth c ps r q :
  path N c ps r -> q ∈ ps -> (depth q < depth c)%nat.
Proof.
  induction 1 as [c H|c p ps r H Hne Hp IH]; intros Hq.
  - by apply elem_of_nil in Hq.
  - specialize (Hdepth c p H Hne).
    apply elem_of_cons in Hq as [->|Hq]; [done|].
    specialize (IH Hq). lia.
Qed.

Lemma path_inj c ps r x y :
  path N c ps r -> x ∈ c :: ps -> y ∈ c :: ps -> depth x = depth y -> x = y.
Proof.
  induction 1 as [c H|c p ps r H Hne Hp IH]; intros Hx Hy Hxy.
  - apply list_elem_of_singleton in Hx, Hy. congruence.
  - assert (Hlt : forall z, z ∈ p :: ps -> (depth z < depth c)%nat).
    { intros z Hz. eapply path_depth; [|exact Hz]. by econstructor. }
    apply elem_of_cons in Hx as [->|Hx], Hy as [->|Hy]; auto.
    + specialize (Hlt _ Hy). lia.
    + specialize (Hlt _ Hx). lia.
Qed.

Lemma resolve_of_key x c p :
  is_Some (N !! x) -> resolve t x = Some (c, p) -> c = x.
Proof.
  intros [p' Hp'] H. rewrite (resolve_key t x p' Hp') in H. congruence.
Qed.

(** The answer for two resolvable, different, non-zero taxids is a
    deepest node common to the two lines (argument, proper ancestors of
    the resolved start, root). *)
Lemma value_deepest a b a' pa b' pb psa psb fuel :
  a <> 0 -> b <> 0 -> a <> b ->
  resolve t a = Some (a', pa) -> resolve t b = Some (b', pb) ->
  path N a' psa root -> path N b' psb root ->
  (length psa < fuel)%nat -> (length psb < fuel)%nat ->
  exists v, value fuel t a b = Some v
    /\ (v ∈ a :: psa ++ [root] /\ v ∈ b :: psb ++ [root])
    /\ forall x, x ∈ a :: psa ++ [root] -> x ∈ b :: psb ++ [root] ->
                 (depth x <= depth v)%nat.
Proof.
  intros Ha Hb Hab Hra Hrb Hpa Hpb Hfa Hfb.
  assert (Hrr : N !! root = Some root) by (by eapply path_root_loop).
  assert (Hb_root : b ∈ a :: psa ++ [root] -> b ∉ psa -> b = root /\ psb = []).
  { intros Hin Hnin. rewrite elem_of_cons, elem_of_app in Hin.
    destruct Hin as [?|[?|Hin]]; [done..|].
    apply list_elem_of_singleton in Hin. split; [done|]. subst b.
    assert (b' = root) as -> by (eapply resolve_of_key; eauto).
    by eapply path_of_root. }
  unfold value.
  destruct (Z.eqb_spec a 0); [done|]. destruct (Z.eqb_spec b 0); [done|].
  destruct (Z.eqb_spec a b); [done|]. simpl orb. cbv iota.
  unfold walk. rewrite (walkA_resolve fuel t b a a' pa [] ∅ Hra).
  pose proof (walkA_path t a' psa root Hpa fuel b [] ∅ Hfa) as HA.
  destruct (bool_decide (b ∈ psa)) eqn:Hbin.
  - apply bool_decide_eq_true in Hbin. rewrite HA. exists b.
    split; [done|]. split.
    + split; [|apply list_elem_of_here].
      apply list_elem_of_further, elem_of_app. by left.
    + intros x _ Hx.
      assert (b' = b) as ->.
      { apply (resolve_of_key b b' pb); [|exact Hrb].
        exact (path_keys t a' psa root b Hpa Hbin). }
      apply elem_of_cons in Hx as [->|Hx]; [done|].
      apply elem_of_app in Hx as [Hx|Hx].
      * apply Nat.lt_le_incl. by eapply path_depth.
      * apply list_elem_of_singleton in Hx as ->.
        pose proof (path_last t _ _ _ Hpb) as Hl.
        apply elem_of_cons in Hl as [->|Hl]; [done|].
        apply Nat.lt_le_incl. by eapply path_depth.
  - apply bool_decide_eq_false in Hbin.
    destruct HA as (mA & -> & HmA).
    rewrite (walkB_resolve fuel t a mA b b' pb Hrb).
    rewrite (walkB_path t b' psb root Hpb fuel a mA Hfb).
    assert (Hpred : forall x, x ∈ a :: psa ++ [root] ->
              (x =? a) || bool_decide (x ∈ mA) = true).
    { intros x Hx. apply elem_of_cons in Hx as [->|Hx].
      - by rewrite Z.eqb_refl.
      - apply orb_true_iff. right. apply bool_decide_eq_true, HmA.
        apply elem_of_app in Hx as [Hx|Hx]; [auto|].
        apply list_elem_of_singleton in Hx. auto. }
    destruct (find _ psb) as [q|] eqn:Hfind.
    + apply find_first in Hfind as (Hq & l1 & l2 & -> & Hl1).
      exists q. split; [done|]. split.
      * split.
        -- apply orb_true_iff in Hq as [->%Z.eqb_eq|Hq];
             [apply list_elem_of_here|].
           apply bool_decide_eq_true, HmA in Hq.
           apply list_elem_of_further, elem_of_app.
           destruct Hq as [->|[Hq|Hq]]; [right|by left|set_solver].
           apply list_elem_of_here.
        -- apply list_elem_of_further, elem_of_app. left.
           apply elem_of_app. right. apply list_elem_of_here.
      * intros x Hxa Hxb.
        assert (Hx : x ∈ l1 ++ q :: l2).
        { apply elem_of_cons in Hxb as [->|Hxb].
          - destruct (Hb_root Hxa Hbin) as [_ Hnil].
            by destruct l1.
          - apply elem_of_app in Hxb as [Hxb|Hxb]; [done|].
            apply list_elem_of_singleton in Hxb as ->.
            pose proof (path_last t _ _ _ Hpb) as Hl.
            apply elem_of_cons in Hl as [Heq|Hl]; [|done].
            rewrite <- Heq in Hpb.
            pose proof (path_of_root t _ _ _ Hrr Hpb). by destruct l1. }
        apply elem_of_app in Hx as [Hx|Hx].
        -- specialize (Hpred x Hxa). by rewrite (Hl1 x Hx) in Hpred.
        -- apply elem_of_cons in Hx as [->|Hx]; [done|].
           apply Nat.lt_le_incl.
           eapply path_depth; [eapply path_suffix, Hpb|done].
    + pose proof (find_nothing _ _ Hfind) as Hnone.
      exists root. split; [done|]. split.
      * split; apply list_elem_of_further, elem_of_app; right;
          apply list_elem_of_here.
      * intros x Hxa Hxb.
        apply elem_of_cons in Hxb as [->|Hxb].
        -- by destruct (Hb_root Hxa Hbin) as [-> _].
        -- apply elem_of_app in Hxb as [Hxb|Hxb].
           ++ specialize (Hpred x Hxa). by rewrite (Hnone x Hxb) in Hpred.
           ++ by apply list_elem_of_singleton in Hxb as ->.
Qed.
End forest.

(** ** More fuel does not change an answer *)

Lemma walkA_mono fuel fuel' t b c lineA mA r :
  walkA fuel t b c lineA mA = Some r -> (fuel <= fuel')%nat ->
  walkA fuel' t b c lineA mA = Some r.
Proof.
  revert fuel' c lineA mA.
  induction fuel as [|fuel IH]; intros fuel' c lineA mA H Hle; [done|].
  destruct fuel' as [|fuel']; [lia|]. simpl in *.
  destruct (resolve t c) as [[c' p]|]; [|done].
  destruct (p =? c'); [done|]. destruct (p =? b); [done|].
  apply IH; [done|lia].
Qed.

Lemma walkB_mono fuel fuel' t a mA c r :
  walkB fuel t a mA c = Some r -> (fuel <= fuel')%nat ->
  walkB fuel' t a mA c = Some r.
Proof.
  revert fuel' c.
  induction fuel as [|fuel IH]; intros fuel' c H Hle; [done|].
  destruct fuel' as [|fuel']; [lia|]. simpl in *.
  destruct (resolve t c) as [[c' p]|]; [|done].
  destruct (p =? c'); [done|]. destruct (p =? a); [done|].
  destruct (bool_decide (p ∈ mA)); [done|].
  apply IH; [done|lia].
Qed.

Lemma walk_mono fuel fuel' t a b r :
  walk fuel t a b = Some r -> (fuel <= fuel')%nat ->
  walk fuel' t a b = Some r.
Proof.
  unfold walk. intros H Hle.
  destruct (walkA fuel t b a [] ∅) as [[v|[lA mA]]|] eqn:HA; [| |done].
  - by rewrite (walkA_mono _ _ _ _ _ _ _ _ HA Hle).
  - rewrite (walkA_mono _ _ _ _ _ _ _ _ HA Hle). by eapply walkB_mono.
Qed.

Lemma value_mono fuel fuel' t a b v :
  value fuel t a b = Some v -> (fuel <= fuel')%nat ->
  value fuel' t a b = Some v.
Proof.
  unfold value. intros H Hle.
  destruct ((a =? 0) || (b =? 0)); [done|]. destruct (a =? b); [done|].
  destruct (walk fuel t a b) as [r|] eqn:Hw; [|done].
  by rewrite (walk_mono _ _ _ _ _ _ Hw Hle).
Qed.

Lemma value_det fuel fuel' t a b v v' :
  value fuel t a b = Some v -> value fuel' t a b = Some v' -> v = v'.
Proof.
  intros H H'.
  apply (value_mono _ (fuel `max` fuel')%nat) in H; [|lia].
  apply (value_mono _ (fuel `max` fuel')%nat) in H'; [|lia].
  congruence.
Qed.

(** ** Symmetry of the computed answer on a well-formed store *)

Lemma value_unresolved_l fuel t a b :
  a <> 0 -> b <> 0 -> a <> b -> resolve t a = None ->
  value (S fuel) t a b = Some 0.
Proof.
  intros Ha Hb Hab Hr. unfold value.
  destruct (Z.eqb_spec a 0); [done|]. destruct (Z.eqb_spec b 0); [done|].
  destruct (Z.eqb_spec a b); [done|]. simpl orb. cbv iota.
  unfold walk. simpl. by rewrite Hr.
Qed.

Lemma value_unresolved_r t a b :
  well_formed t -> a <> 0 -> b <> 0 -> a <> b -> resolve t b = None ->
  exists n, forall fuel, (n <= fuel)%nat -> value fuel t a b = Some 0.
Proof.
  intros [Hroot Hclosed [depth Hdepth]] Ha Hb Hab Hr.
  destruct (resolve t a) as [[a' pa]|] eqn:Hra.
  - destruct (path_exists t depth Hroot Hclosed Hdepth a') as [psa Hpa].
    { eexists. by eapply resolve_Some. }
    exists (S (length psa)). intros fuel Hf. unfold value.
    destruct (Z.eqb_spec a 0); [done|]. destruct (Z.eqb_spec b 0); [done|].
    destruct (Z.eqb_spec a b); [done|]. simpl orb. cbv iota.
    unfold walk. rewrite (walkA_resolve fuel t b a a' pa [] ∅ Hra).
    pose proof (walkA_path t a' psa _ Hpa fuel b [] ∅ ltac:(lia)) as HA.
    rewrite bool_decide_eq_false_2 in HA.
    + destruct HA as (mA & -> & _).
      destruct fuel; [lia|]. simpl. by rewrite Hr.
    + intros Hin. apply (path_keys t _ _ _ _ Hpa) in Hin as [p Hp].
      apply resolve_None in Hr. congruence.
  - exists 1%nat. intros fuel Hf. destruct fuel; [lia|].
    by apply value_unresolved_l.
Qed.

Lemma value_symmetric t a b :
  well_formed t ->
  exists n v, forall fuel, (n <= fuel)%nat ->
    value fuel t a b = Some v /\ value fuel t b a = Some v.
Proof.
  intros Hwf.
  destruct (decide (a = 0)) as [->|Ha].
  { exists 0%nat, 0. intros fuel _. unfold value. by rewrite orb_true_r. }
  destruct (decide (b = 0)) as [->|Hb].
  { exists 0%nat, 0. intros fuel _. unfold value. by rewrite orb_true_r. }
  destruct (decide (a = b)) as [->|Hab].
  { exists 0%nat, b. intros fuel _. unfold value.
    destruct (Z.eqb_spec b 0); [done|]. by rewrite Z.eqb_refl. }
  destruct (resolve t a) as [[a' pa]|] eqn:Hra; cycle 1.
  { destruct (value_unresolved_r t b a Hwf Hb Ha (not_eq_sym Hab) Hra)
      as [n Hn].
    exists (S n), 0. intros fuel Hf. split; [|apply Hn; lia].
    destruct fuel; [lia|]. by apply value_unresolved_l. }
  destruct (resolve t b) as [[b' pb]|] eqn:Hrb; cycle 1.
  { destruct (value_unresolved_r t a b Hwf Ha Hb Hab Hrb) as [n Hn].
    exists (S n), 0. intros fuel Hf. split; [apply Hn; lia|].
    destruct fuel; [lia|]. by apply value_unresolved_l. }
  pose proof Hwf as [Hroot Hclosed [depth Hdepth]].
  destruct (path_exists t depth Hroot Hclosed Hdepth a') as [psa Hpa].
  { eexists. by eapply resolve_Some. }
  destruct (path_exists t depth Hroot Hclosed Hdepth b') as [psb Hpb].
  { eexists. by eapply resolve_Some. }
  set (n := S (length psa `max` length psb)).
  destruct (value_deepest t depth Hdepth a b a' pa b' pb psa psb n)
    as (v & Hv & [Hva Hvb] & Hvmax); [done..|lia|lia|].
  destruct (value_deepest t depth Hdepth b a b' pb a' pa psb psa n)
    as (v' & Hv' & [Hvb' Hva'] & Hvmax'); [done..|lia|lia|].
  assert (Hline : forall x, x ∈ a :: psa ++ [rootNode t] ->
                    x ∈ b :: psb ++ [rootNode t] -> x ∈ b' :: psb).
  { intros x Hxa Hxb.
    apply elem_of_cons in Hxb as [->|Hxb].
    - assert (is_Some (Nodes t !! b)) as Hkey.
      { apply elem_of_cons in Hxa as [?|Hxa]; [done|].
        apply elem_of_app in Hxa as [Hxa|Hxa].
        - exact (path_keys t _ _ _ _ Hpa Hxa).
        - apply list_elem_of_singleton in Hxa. rewrite Hxa.
          eexists. exact (path_root_loop t _ _ _ Hpa). }
      rewrite (resolve_of_key t b b' pb Hkey Hrb). apply list_elem_of_here.
    - apply elem_of_app in Hxb as [Hxb|Hxb].
      + by apply list_elem_of_further.
      + apply list_elem_of_singleton in Hxb. rewrite Hxb.
        exact (path_last t _ _ _ Hpb). }
  assert (v = v') as <-.
  { eapply (path_inj t depth Hdepth b' psb); eauto.
    apply Nat.le_antisymm; auto. }
  exists n, v. intros fuel Hf. split; by eapply value_mono.
Qed.

(** ** The cache key *)

Lemma lor_shiftl_32 (x y : Z) :
  0 <= x -> 0 <= y < 2 ^ 32 -> Z.lor (Z.shiftl x 32) y = x * 2 ^ 32 + y.
Proof.
  intros Hx Hy. rewrite Z.shiftl_mul_pow2 by lia.
  assert (Hland : Z.land (x * 2 ^ 32) y = 0).
  { apply Z.bits_inj'. intros n Hn. rewrite Z.land_spec, Z.bits_0.
    destruct (Z.lt_ge_cases n 32) as [Hlt|Hge].
    - by rewrite Z.mul_pow2_bits_low by lia.
    - assert (Z.testbit y n = false) as ->.
      { apply Z.testbit_false; [lia|].
        rewrite Z.div_small; [done|].
        split; [lia|]. apply Z.lt_le_trans with (2 ^ 32); [lia|].
        apply Z.pow_le_mono_r; lia. }
      apply andb_false_r. }
  rewrite <- Z.lxor_lor by exact Hland.
  symmetry. by apply Z.add_nocarry_lxor.
Qed.

(** The key does not depend on the order of the pair. *)
Lemma pack2uint32_comm (a b : Z) : pack2uint32 a b = pack2uint32 b a.
Proof.
  unfold pack2uint32.
  destruct (Z.ltb_spec a b), (Z.ltb_spec b a); try done; try lia.
  by replace b with a by lia.
Qed.

(** Two pairs of 32-bit ids with the same key are the same unordered pair. *)
Lemma pack2uint32_inj (a b a2 b2 : Z) :
  is_uint32 a -> is_uint32 b -> is_uint32 a2 -> is_uint32 b2 ->
  pack2uint32 a b = pack2uint32 a2 b2 ->
  (a = a2 /\ b = b2) \/ (a = b2 /\ b = a2).
Proof.
  unfold is_uint32, uint32_max, pack2uint32. intros Ha Hb Ha2 Hb2.
  change (2 ^ 32) with 4294967296 in *.
  destruct (Z.ltb_spec a b), (Z.ltb_spec a2 b2);
    rewrite !lor_shiftl_32 by (change (2 ^ 32) with 4294967296; lia);
    change (2 ^ 32) with 4294967296; lia.
Qed.

(** ** The cache only holds computed answers *)

Lemma resolve_ext t t' x : same_tree t t' -> resolve t' x = resolve t x.
Proof. intros (Hn & Hm & Hh & _). unfold resolve. by rewrite Hn, Hm, Hh. Qed.

Lemma walkA_ext t t' fuel b c lineA mA :
  same_tree t t' -> walkA fuel t' b c lineA mA = walkA fuel t b c lineA mA.
Proof.
  intros H. revert c lineA mA.
  induction fuel as [|fuel IH]; intros c lineA mA; simpl; [done|].
  rewrite (resolve_ext t t' c H). destruct (resolve t c) as [[c' p]|]; [|done].
  by rewrite IH.
Qed.

Lemma walkB_ext t t' fuel a mA c :
  same_tree t t' -> walkB fuel t' a mA c = walkB fuel t a mA c.
Proof.
  intros H. revert c.
  induction fuel as [|fuel IH]; intros c; simpl; [done|].
  rewrite (resolve_ext t t' c H). destruct (resolve t c) as [[c' p]|]; [|done].
  by rewrite IH.
Qed.

Lemma walk_ext t t' fuel a b :
  same_tree t t' -> walk fuel t' a b = walk fuel t a b.
Proof.
  intros H. unfold walk. rewrite (walkA_ext t t' _ _ _ _ _ H).
  destruct (walkA fuel t b a [] ∅) as [[v|[lA mA]]|]; [done| |done].
  by apply walkB_ext.
Qed.

Lemma value_ext t t' fuel a b :
  same_tree t t' -> value fuel t' a b = value fuel t a b.
Proof.
  intros H. unfold value. rewrite (walk_ext t t' _ _ _ H).
  destruct H as (_ & _ & _ & ->). done.
Qed.

Lemma cache_ok_start t0 : lcaCache t0 = ∅ -> cache_ok t0 t0.
Proof.
  intros He. split; [done|]. intros a b v _ _ _ _ _.
  by rewrite He, lookup_empty.
Qed.

Lemma LCA_step_ok t0 t t' fuel a b v :
  well_formed t0 -> cache_ok t0 t -> is_uint32 a -> is_uint32 b ->
  LCA fuel t a b = Some (v, t') -> cache_ok t0 t'.
Proof.
  intros Hwf [Htree Hcache] Ha Hb. unfold LCA.
  destruct (Z.eqb_spec a 0) as [|Ha0]; [by intros [= _ <-]|].
  destruct (Z.eqb_spec b 0) as [|Hb0]; [by intros [= _ <-]|].
  simpl orb. cbv iota.
  destruct (Z.eqb_spec a b) as [|Hab]; [by intros [= _ <-]|]. cbv zeta.
  unfold store.
  destruct (cacheLCA t) eqn:Hc; cycle 1.
  { destruct (walk fuel t a b) as [[w|]|]; [| |done]; by intros [= _ <-]. }
  destruct (lcaCache t !! pack2uint32 a b) as [tmp|]; [by intros [= _ <-]|].
  destruct (walk fuel t a b) as [[w|]|] eqn:Hw; [| |done];
    [|by intros [= _ <-]].
  intros [= _ <-]. split; [done|]. simpl.
  assert (Hval : value fuel t0 a b = Some w).
  { rewrite <- (value_ext t0 t fuel a b Htree). unfold value.
    destruct (Z.eqb_spec a 0); [done|]. destruct (Z.eqb_spec b 0); [done|].
    destruct (Z.eqb_spec a b); [done|]. simpl. by rewrite Hw. }
  intros a2 b2 v2 Ha2 Hb2 Ha20 Hb20 Hab2.
  destruct (decide (pack2uint32 a b = pack2uint32 a2 b2)) as [Heq|Hne].
  - rewrite <- Heq, lookup_insert_eq. intros [= <-].
    destruct (pack2uint32_inj a b a2 b2 Ha Hb Ha2 Hb2 Heq) as [[<- <-]|[-> ->]];
      [by exists fuel|].
    destruct (value_symmetric t0 b2 a2 Hwf) as (n & u & Hn).
    destruct (Hn (n `max` fuel)%nat ltac:(lia)) as [H1 H2].
    exists (n `max` fuel)%nat. rewrite H2. f_equal.
    eapply value_det; [exact H1|exact Hval].
  - rewrite lookup_insert_ne by done. by apply Hcache.
Qed.

Lemma after_calls_ok t0 t :
  well_formed t0 -> lcaCache t0 = ∅ -> after_calls t0 t -> cache_ok t0 t.
Proof.
  intros Hwf He. induction 1 as [|t fuel a b v t' _ IH Ha Hb HL].
  - by apply cache_ok_start.
  - exact (LCA_step_ok t0 t t' fuel a b v Hwf IH Ha Hb HL).
Qed.

Lemma lca_cache_ok t0 t fuel a b v :
  cache_ok t0 t -> is_uint32 a -> is_uint32 b ->
  value fuel t0 a b = Some v -> lca fuel t a b = Some v.
Proof.
  intros [Htree Hcache] Ha Hb Hval. pose proof Hval as Hval'.
  rewrite <- (value_ext t0 t fuel a b Htree) in Hval'.
  revert Hval'. unfold lca, LCA, value.
  destruct (Z.eqb_spec a 0) as [|Ha0]; [by intros [= <-]|].
  destruct (Z.eqb_spec b 0) as [|Hb0]; [by intros [= <-]|].
  simpl orb. cbv iota.
  destruct (Z.eqb_spec a b) as [|Hab]; [by intros [= <-]|]. cbv zeta.
  intros Hw.
  assert (Hcomputed :
    fst <$> match walk fuel t a b with
            | Some (Return v0) =>
                Some (v0, store t (if cacheLCA t then pack2uint32 a b else 0) v0)
            | Some (Break _) => Some (rootNode t, t)
            | None => None
            end = Some v).
  { destruct (walk fuel t a b) as [[w|]|]; [| |done]; by injection Hw as <-. }
  destruct (cacheLCA t); [|done].
  destruct (lcaCache t !! pack2uint32 a b) as [tmp|] eqn:Hlk; [|done].
  destruct (Hcache a b tmp Ha Hb Ha0 Hb0 Hab Hlk) as [f Hf].
  simpl. f_equal. eapply value_det; [exact Hf|exact Hval].
Qed.

Lemma well_formed_same_tree t t' :
  same_tree t t' -> well_formed t -> well_formed t'.
Proof.
  intros (Hn & _ & _ & Hr) [H1 H2 H3].
  split; rewrite ?Hn, ?Hr; done.
Qed.

(** ** Symmetry and cache transparency *)

(** The scenario tree is well formed. *)
Lemma demo_nodes_elem (c p : Z) :
  demo_nodes !! c = Some p ->
  (c, p) ∈ [(1, 1); (2, 1); (3, 2); (4, 2); (5, 3); (6, 3); (7, 4)].
Proof. apply elem_of_list_to_map_2. Qed.

Ltac demo_edges H :=
  apply demo_nodes_elem in H;
  repeat (apply elem_of_cons in H as [H|H]; [simplify_eq|]);
  [..|by apply elem_of_nil in H].

Lemma demo_well_formed (merged : option (gmap Z Z)) :
  well_formed (store_of 1 demo_nodes merged).
Proof.
  split; simpl.
  - intros c Hc. demo_edges Hc; done.
  - intros c p Hc. demo_edges Hc; by eexists.
  - exists Z.to_nat. intros c p Hc. demo_edges Hc; lia.
Qed.

(** C1, as the code has it: on a well-formed store (at most one self-loop,
    which is the recorded root; no dangling parent; no other cycle), with
    whatever earlier calls have left in the cache, [LCA a b] and [LCA b a]
    both return, and return the same taxid; this covers arguments that are
    absent from the parent map or resolved through the merge map.  The two
    calls also share their cache key. *)
Theorem LCA_symmetric (t0 t : Taxonomy) (a b : Z) :
  well_formed t0 -> lcaCache t0 = ∅ -> after_calls t0 t ->
  is_uint32 a -> is_uint32 b ->
  pack2uint32 a b = pack2uint32 b a
  /\ exists n v, forall fuel, (n <= fuel)%nat ->
       lca fuel t a b = Some v /\ lca fuel t b a = Some v.
Proof.
  intros Hwf He Hcalls Ha Hb. split; [apply pack2uint32_comm|].
  pose proof (after_calls_ok t0 t Hwf He Hcalls) as Hok.
  destruct (value_symmetric t0 a b Hwf) as (n & v & Hn).
  exists n, v. intros fuel Hf. destruct (Hn fuel Hf) as [H1 H2].
  split; by eapply lca_cache_ok.
Qed.

Lemma LCA_symmetric_witness :
  pack2uint32 99 7 = pack2uint32 7 99
  /\ exists n v, forall fuel, (n <= fuel)%nat ->
    lca fuel (store_of 1 demo_nodes (Some {[99 := 5]})) 99 7 = Some v
    /\ lca fuel (store_of 1 demo_nodes (Some {[99 := 5]})) 7 99 = Some v.
Proof.
  apply (LCA_symmetric (store_of 1 demo_nodes (Some {[99 := 5]}))).
  - apply demo_well_formed.
  - reflexivity.
  - apply calls_none.
  - unfold is_uint32, uint32_max. lia.
  - unfold is_uint32, uint32_max. lia.
Defined.

(** C1 as stated fails on a store with a dangling parent: from 2 the walk
    meets its parent 3 and answers 3; from 3, which is no key, it answers 0. *)
Lemma LCA_not_symmetric :
  ~ (forall (t : Taxonomy) (a b : Z) (fuel : nat) (v v' : Z),
        lca fuel t a b = Some v -> lca fuel t b a = Some v' -> v = v').
Proof.
  intros H. specialize (H dangling 2 3 5%nat 3 0 eq_refl eq_refl).
  discriminate H.
Qed.

(** Such a store is what [NewTaxonomy] builds from a dump whose only line
    is "2<tab>3". *)
Example dangling_from_file :
  exists t, NewTaxonomy (Some [tsv ["2"; "3"]%string]) 1 2 = Ok t
    /\ Nodes t = Nodes dangling /\ rootNode t = rootNode dangling
    /\ lca 5 t 2 3 = Some 3 /\ lca 5 t 3 2 = Some 0.
Proof. eexists. vm_compute. repeat split. Qed.

(** A cycle breaks symmetry as well. *)
Example LCA_not_symmetric_cycle :
  let t := store_of 0 {[2 := 3; 3 := 2]} None in
  lca 5 t 2 3 = Some 3 /\ lca 5 t 3 2 = Some 2.
Proof. vm_compute. done. Qed.

(** So does a second self-loop, through the merge map. *)
Example LCA_not_symmetric_two_roots :
  let t := store_of 2 {[1 := 1; 2 := 2; 3 := 1]} (Some {[9 := 1]}) in
  lca 5 t 9 3 = Some 1 /\ lca 5 t 3 9 = Some 2.
Proof. vm_compute. done. Qed.

(** C4, as the code has it: on a well-formed store, after [CacheLCA] and
    any number of earlier [LCA] calls, a call returns what it returns with
    caching off. *)
Theorem LCA_cache_transparent (t0 t : Taxonomy) (a b : Z) :
  well_formed t0 -> lcaCache t0 = ∅ -> after_calls (CacheLCA t0) t ->
  is_uint32 a -> is_uint32 b ->
  exists n v, forall fuel, (n <= fuel)%nat ->
    lca fuel t a b = Some v
    /\ lca fuel (set_cacheLCA t0 false) a b = Some v.
Proof.
  intros Hwf He Hcalls Ha Hb.
  assert (Hwf' : well_formed (CacheLCA t0))
    by (by apply (well_formed_same_tree t0)).
  pose proof (after_calls_ok (CacheLCA t0) t Hwf' He Hcalls) as Hok.
  assert (Hoff : cache_ok (CacheLCA t0) (set_cacheLCA t0 false)).
  { split; [done|]. intros ? ? ? _ _ _ _ _. simpl.
    by rewrite He, lookup_empty. }
  destruct (value_symmetric (CacheLCA t0) a b Hwf') as (n & v & Hn).
  exists n, v. intros fuel Hf. destruct (Hn fuel Hf) as [H1 _].
  split; by eapply lca_cache_ok.
Qed.

Lemma LCA_cache_transparent_witness :
  exists t1, LCA 5 (CacheLCA (store_of 1 demo_nodes None)) 5 7 = Some (2, t1)
    /\ lcaCache t1 !! pack2uint32 7 5 = Some 2
    /\ exists n v, forall fuel, (n <= fuel)%nat ->
         lca fuel t1 7 5 = Some v
         /\ lca fuel (set_cacheLCA (store_of 1 demo_nodes None) false) 7 5
            = Some v.
Proof.
  eexists. split; [vm_compute; reflexivity|].
  split; [vm_compute; reflexivity|].
  apply (LCA_cache_transparent (store_of 1 demo_nodes None)).
  - apply demo_well_formed.
  - reflexivity.
  - apply (calls_more _ (CacheLCA (store_of 1 demo_nodes None)) 5 5 7 2).
    + apply calls_none.
    + unfold is_uint32, uint32_max. lia.
    + unfold is_uint32, uint32_max. lia.
    + vm_compute. reflexivity.
  - unfold is_uint32, uint32_max. lia.
  - unfold is_uint32, uint32_max. lia.
Defined.

(** C4 as stated fails on a store with a dangling parent: the answer 3 that
    [LCA 2 3] caches is served for [LCA 3 2], which computes 0. *)
Lemma LCA_cache_not_transparent :
  ~ (forall (t0 t : Taxonomy) (a b : Z) (fuel : nat) (v v' : Z),
        lcaCache t0 = ∅ -> after_calls (CacheLCA t0) t ->
        is_uint32 a -> is_uint32 b ->
        lca fuel t a b = Some v ->
        lca fuel (set_cacheLCA t0 false) a b = Some v' -> v = v').
Proof.
  intros H.
  assert (H32 : forall x, 0 <= x <= 3 -> is_uint32 x)
    by (unfold is_uint32, uint32_max; lia).
  assert (Hcalls : after_calls (CacheLCA dangling)
            (set_lcaCache (CacheLCA dangling) {[pack2uint32 2 3 := 3]})).
  { apply (calls_more _ (CacheLCA dangling) 5 2 3 3).
    - apply calls_none.
    - apply H32. lia.
    - apply H32. lia.
    - vm_compute. reflexivity. }
  specialize (H dangling _ 3 2 5%nat 3 0 eq_refl Hcalls
                (H32 3 ltac:(lia)) (H32 2 ltac:(lia)) eq_refl eq_refl).
  discriminate H.
Qed.

(** * Further properties of the code *)

(** ** minInt and the cache key *)

(** [minInt] returns one of its arguments, and none of them is smaller. *)
Theorem minInt_least (a : Z) (vals : list Z) :
  minInt a vals ∈ a :: vals
  /\ forall x, x ∈ a :: vals -> minInt a vals <= x.
Proof.
  unfold minInt. revert a. induction vals as [|v vals IH]; intros a; simpl.
  - split; [apply list_elem_of_here|].
    intros x Hx. apply list_elem_of_singleton in Hx. lia.
  - destruct (IH (if v <? a then v else a)) as [Hin Hle]. split.
    + apply elem_of_cons in Hin as [Hin|Hin].
      * rewrite Hin. destruct (v <? a); [|apply list_elem_of_here].
        apply list_elem_of_further, list_elem_of_here.
      * by do 2 apply list_elem_of_further.
    + intros x Hx.
      assert (Hm : fold_left (fun min v0 => if v0 <? min then v0 else min)
                     vals (if v <? a then v else a)
                   <= (if v <? a then v else a))
        by apply Hle, list_elem_of_here.
      apply elem_of_cons in Hx as [->|Hx].
      * destruct (Z.ltb_spec v a); lia.
      * apply elem_of_cons in Hx as [->|Hx].
        -- destruct (Z.ltb_spec v a); lia.
        -- by apply Hle, list_elem_of_further.
Qed.

(** The key of a pair of 32-bit ids fits 64 bits, holds the smaller id in
    its high half and the larger in its low half, and so determines the
    unordered pair. *)
Theorem pack2uint32_halves (a b : Z) :
  is_uint32 a -> is_uint32 b ->
  0 <= pack2uint32 a b < 2 ^ 64
  /\ Z.shiftr (pack2uint32 a b) 32 = Z.min a b
  /\ Z.land (pack2uint32 a b) (Z.ones 32) = Z.max a b
  /\ forall c d, is_uint32 c -> is_uint32 d ->
       (pack2uint32 a b = pack2uint32 c d
        <-> (a = c /\ b = d) \/ (a = d /\ b = c)).
Proof.
  intros Ha Hb.
  assert (Hpack : pack2uint32 a b = Z.min a b * 2 ^ 32 + Z.max a b).
  { unfold is_uint32, uint32_max in *. unfold pack2uint32.
    destruct (Z.ltb_spec a b);
      rewrite lor_shiftl_32 by (change (2 ^ 32) with 4294967296; lia).
    - by rewrite Z.min_l, Z.max_r by lia.
    - by rewrite Z.min_r, Z.max_l by lia. }
  assert (Hmax : 0 <= Z.max a b < 2 ^ 32)
    by (unfold is_uint32, uint32_max in *; change (2 ^ 32) with 4294967296; lia).
  assert (Hmin : 0 <= Z.min a b < 2 ^ 32)
    by (unfold is_uint32, uint32_max in *; change (2 ^ 32) with 4294967296; lia).
  split; [|split; [|split]].
  - rewrite Hpack. change (2 ^ 64) with (2 ^ 32 * 2 ^ 32).
    change (2 ^ 32) with 4294967296 in *. nia.
  - rewrite Hpack, Z.shiftr_div_pow2 by lia.
    rewrite Z.div_add_l by lia. rewrite Z.div_small by lia. lia.
  - rewrite Hpack, Z.land_ones by lia.
    rewrite Z.add_comm, Z.mod_add by lia. by apply Z.mod_small.
  - intros c d Hc Hd. split.
    + by apply pack2uint32_inj.
    + intros [[-> ->]|[-> ->]]; [done|apply pack2uint32_comm].
Qed.

Lemma pack2uint32_halves_witness :
  Z.shiftr (pack2uint32 7 5) 32 = 5 /\ Z.land (pack2uint32 7 5) (Z.ones 32) = 7.
Proof.
  destruct (pack2uint32_halves 7 5) as (_ & H1 & H2 & _).
  - unfold is_uint32, uint32_max. lia.
  - unfold is_uint32, uint32_max. lia.
  - split; [exact H1|exact H2].
Defined.

(** ** What an LCA call does to the store *)

Lemma set_lcaCache_same (t : Taxonomy) : set_lcaCache t (lcaCache t) = t.
Proof. by destruct t. Qed.

(** A call changes nothing but the cache, and the cache only by adding an
    entry under the key of the pair: entries are never overwritten or
    removed, and with caching off the store is untouched. *)
Theorem LCA_only_adds_to_cache (fuel : nat) (t t' : Taxonomy) (a b v : Z) :
  LCA fuel t a b = Some (v, t') ->
  t' = set_lcaCache t (lcaCache t')
  /\ lcaCache t ⊆ lcaCache t'
  /\ (forall k, k <> pack2uint32 a b -> lcaCache t' !! k = lcaCache t !! k)
  /\ (cacheLCA t = false -> t' = t).
Proof.
  assert (Hsame : forall w, Some (w, t) = Some (v, t') ->
            t' = set_lcaCache t (lcaCache t')
            /\ lcaCache t ⊆ lcaCache t'
            /\ (forall k, k <> pack2uint32 a b ->
                  lcaCache t' !! k = lcaCache t !! k)
            /\ (cacheLCA t = false -> t' = t)).
  { intros w [= _ <-]. by rewrite set_lcaCache_same. }
  unfold LCA.
  destruct ((a =? 0) || (b =? 0)); [apply Hsame|].
  destruct (a =? b); [apply Hsame|]. cbv zeta. unfold store.
  destruct (cacheLCA t) eqn:Hc.
  - destruct (lcaCache t !! pack2uint32 a b) as [tmp|] eqn:Hlk; [apply Hsame|].
    destruct (walk fuel t a b) as [[w|]|]; [|apply Hsame|done].
    intros [= _ <-]. simpl. split; [done|]. split; [|split; [|done]].
    + by apply insert_subseteq.
    + intros k Hk. by rewrite lookup_insert_ne.
  - destruct (walk fuel t a b) as [[w|]|]; [apply Hsame..|done].
Qed.

Lemma LCA_only_adds_to_cache_witness :
  exists t', LCA 5 (CacheLCA (store_of 1 demo_nodes None)) 5 7 = Some (2, t')
    /\ lcaCache (CacheLCA (store_of 1 demo_nodes None)) ⊆ lcaCache t'.
Proof.
  eexists. split; [vm_compute; reflexivity|].
  eapply (LCA_only_adds_to_cache 5 _ _ 5 7 2). vm_compute. reflexivity.
Defined.

(** Asking again, with at least as much fuel, gives the same answer and
    leaves the store as the first call left it; this holds on every store,
    well formed or not. *)
Theorem LCA_again (fuel fuel' : nat) (t t' : Taxonomy) (a b v : Z) :
  LCA fuel t a b = Some (v, t') -> (fuel <= fuel')%nat ->
  LCA fuel' t' a b = Some (v, t').
Proof.
  unfold LCA. intros H Hle.
  destruct ((a =? 0) || (b =? 0)); [by injection H as <- <-|].
  destruct (a =? b); [by injection H as <- <-|]. cbv zeta in *.
  unfold store in *.
  destruct (cacheLCA t) eqn:Hc.
  - destruct (lcaCache t !! pack2uint32 a b) as [tmp|] eqn:Hlk.
    { injection H as <- <-. by rewrite Hc, Hlk. }
    destruct (walk fuel t a b) as [[w|]|] eqn:Hw; [| |done].
    + injection H as <- <-. cbn. rewrite Hc. cbn. by rewrite lookup_insert_eq.
    + injection H as <- <-. rewrite Hc, Hlk.
      by rewrite (walk_mono _ _ _ _ _ _ Hw Hle).
  - destruct (walk fuel t a b) as [[w|]|] eqn:Hw; [| |done];
      injection H as <- <-; rewrite Hc;
      by rewrite (walk_mono _ _ _ _ _ _ Hw Hle).
Qed.

Lemma LCA_again_witness :
  exists t', LCA 5 (CacheLCA dangling) 2 3 = Some (3, t')
             /\ LCA 9 t' 2 3 = Some (3, t').
Proof.
  eexists. split; [vm_compute; reflexivity|].
  apply (LCA_again 5 9 (CacheLCA dangling)); [vm_compute; reflexivity|lia].
Defined.

(** ** What the loaders do to LCA and Rank *)

Lemma lca_congr (fuel : nat) (t t' : Taxonomy) (a b : Z) :
  walk fuel t' a b = walk fuel t a b -> rootNode t' = rootNode t ->
  cacheLCA t' = cacheLCA t -> lcaCache t' = lcaCache t ->
  lca fuel t' a b = lca fuel t a b.
Proof.
  intros Hw Hr Hc Hl. unfold lca, LCA. rewrite Hw, Hr, Hc, Hl.
  destruct ((a =? 0) || (b =? 0)); [done|]. destruct (a =? b); [done|].
  cbv zeta. destruct (cacheLCA t).
  - destruct (lcaCache t !! pack2uint32 a b); [done|].
    by destruct (walk fuel t a b) as [[w|]|].
  - by destruct (walk fuel t a b) as [[w|]|].
Qed.

(** The delete set is write-only: whatever [LoadDeletedNodes] returns, no
    answer of [LCA] or [Rank] changes. *)
Theorem LoadDeletedNodes_changes_no_answer (t t' : Taxonomy) (file : File)
    (column : Z) (r : result unit) :
  LoadDeletedNodes t file column = (r, t') ->
  (forall fuel a b, lca fuel t' a b = lca fuel t a b)
  /\ (forall x, Rank t' x = Rank t x).
Proof.
  assert (Hset : forall m,
            (forall fuel a b, lca fuel (set_DelNodes t m) a b = lca fuel t a b)
            /\ (forall x, Rank (set_DelNodes t m) x = Rank t x)).
  { intros m. split; [|done]. intros fuel a b.
    apply lca_congr; [|done..]. by apply walk_ext. }
  unfold LoadDeletedNodes.
  destruct (column <? 1); [by intros [= _ <-]|]. cbv zeta.
  destruct (NewBufferedReader _ _ _ _) as [chunks| |]; [|by intros [= _ <-]..].
  destruct (forChunks _ _ _); intros [= _ <-]; [apply Hset|done..].
Qed.

Lemma LoadDeletedNodes_changes_no_answer_witness :
  let t := store_of 1 demo_nodes None in
  lca 9 (snd (LoadDeletedNodes t (Some ["5"%string]) 1)) 5 6 = lca 9 t 5 6.
Proof.
  intros t.
  apply (LoadDeletedNodes_changes_no_answer t _ (Some ["5"%string]) 1 (Ok tt)).
  vm_compute. reflexivity.
Defined.

Section closed_store.
Variable t : Taxonomy.
Hypothesis Hclosed :
  forall c p, Nodes t !! c = Some p -> is_Some (Nodes t !! p).

Lemma walkA_keys_merge fuel m h b c lineA mA :
  is_Some (Nodes t !! c) ->
  walkA fuel (with_merge t m h) b c lineA mA = walkA fuel t b c lineA mA.
Proof.
  revert c lineA mA.
  induction fuel as [|fuel IH]; intros c lineA mA [p Hp]; simpl; [done|].
  rewrite (resolve_key t c p Hp), (resolve_key (with_merge t m h) c p Hp).
  destruct (p =? c); [done|]. destruct (p =? b); [done|].
  apply IH. by eapply Hclosed.
Qed.

Lemma walkB_keys_merge fuel m h a mA c :
  is_Some (Nodes t !! c) ->
  walkB fuel (with_merge t m h) a mA c = walkB fuel t a mA c.
Proof.
  revert c. induction fuel as [|fuel IH]; intros c [p Hp]; simpl; [done|].
  rewrite (resolve_key t c p Hp), (resolve_key (with_merge t m h) c p Hp).
  destruct (p =? c); [done|]. destruct (p =? a); [done|].
  destruct (bool_decide (p ∈ mA)); [done|].
  apply IH. by eapply Hclosed.
Qed.

Lemma walk_keys_merge fuel m h a b :
  is_Some (Nodes t !! a) -> is_Some (Nodes t !! b) ->
  walk fuel (with_merge t m h) a b = walk fuel t a b.
Proof.
  intros Ha Hb. unfold walk. rewrite walkA_keys_merge by done.
  destruct (walkA fuel t b a [] ∅) as [[v|[lA mA]]|]; [done| |done].
  by apply walkB_keys_merge.
Qed.
End closed_store.

(** The merge map matters only for taxids that are missing from the parent
    map: on a store without dangling parents, loading merged nodes changes
    no answer for two taxids that are keys of [Nodes]. *)
Theorem LoadMergedNodes_keeps_known_answers (t t' : Taxonomy) (file : File)
    (oldColumn newColumn : Z) (r : result unit) (fuel : nat) (a b : Z) :
  (forall c p, Nodes t !! c = Some p -> is_Some (Nodes t !! p)) ->
  is_Some (Nodes t !! a) -> is_Some (Nodes t !! b) ->
  LoadMergedNodes t file oldColumn newColumn = (r, t') ->
  lca fuel t' a b = lca fuel t a b.
Proof.
  intros Hclosed Ha Hb. unfold LoadMergedNodes.
  destruct ((oldColumn <? 1) || (newColumn <? 1)); [by intros [= _ <-]|].
  cbv zeta.
  destruct (NewBufferedReader _ _ _ _) as [chunks| |]; [|by intros [= _ <-]..].
  destruct (forChunks _ _ _) as [m| |]; intros [= _ <-]; [|done..].
  apply lca_congr; [|done..].
  exact (walk_keys_merge t Hclosed fuel m true a b Ha Hb).
Qed.

Lemma LoadMergedNodes_keeps_known_answers_witness :
  let t := store_of 1 demo_nodes None in
  lca 9 (snd (LoadMergedNodes t merged_file_1 1 3)) 5 7 = lca 9 t 5 7.
Proof.
  intros t.
  apply (LoadMergedNodes_keeps_known_answers t _ merged_file_1 1 3 (Ok tt)).
  - apply (wf_closed _ (demo_well_formed None)).
  - by eexists.
  - by eexists.
  - vm_compute. reflexivity.
Defined.

(** The loaders do not touch the cache: an answer cached before a
    [LoadMergedNodes] is still served after it, whatever the new merge map
    says about the pair. *)
Theorem LoadMergedNodes_keeps_cached_answers (t t' : Taxonomy) (file : File)
    (oldColumn newColumn : Z) (r : result unit) (fuel : nat) (a b v : Z) :
  cacheLCA t = true -> a <> 0 -> b <> 0 -> a <> b ->
  lcaCache t !! pack2uint32 a b = Some v ->
  LoadMergedNodes t file oldColumn newColumn = (r, t') ->
  LCA fuel t' a b = Some (v, t').
Proof.
  intros Hc Ha Hb Hab Hlk Hload.
  assert (Hc' : cacheLCA t' = true /\ lcaCache t' = lcaCache t).
  { revert Hload. unfold LoadMergedNodes.
    destruct ((oldColumn <? 1) || (newColumn <? 1)); [by intros [= _ <-]|].
    cbv zeta.
    destruct (NewBufferedReader _ _ _ _) as [chunks| |];
      [|by intros [= _ <-]..].
    destruct (forChunks _ _ _) as [m| |]; by intros [= _ <-]. }
  destruct Hc' as [Hc' Hl']. unfold LCA.
  destruct (Z.eqb_spec a 0); [done|]. destruct (Z.eqb_spec b 0); [done|].
  destruct (Z.eqb_spec a b); [done|]. simpl orb. cbv iota zeta.
  by rewrite Hc', Hl', Hlk.
Qed.

(** So a taxid that was unknown when first asked about stays unresolved
    after its merge entry has been loaded. *)
Example stale_answer :
  let t0 := CacheLCA (store_of 1 demo_nodes None) in
  exists t1 t2,
    LCA 9 t0 99 6 = Some (0, t1)
    /\ LoadMergedNodes t1 merged_file_1 1 3 = (Ok tt, t2)
    /\ lca 9 t2 99 6 = Some 0
    /\ lca 9 (set_lcaCache t2 ∅) 99 6 = Some 3.
Proof. do 2 eexists. vm_compute. repeat split. Qed.

Lemma LoadMergedNodes_keeps_cached_answers_witness :
  let t1 := set_lcaCache (CacheLCA (store_of 1 demo_nodes None))
              {[pack2uint32 99 6 := 0]} in
  let t2 := snd (LoadMergedNodes t1 merged_file_1 1 3) in
  LCA 9 t2 99 6 = Some (0, t2).
Proof.
  intros t1 t2.
  apply (LoadMergedNodes_keeps_cached_answers t1 t2 merged_file_1 1 3 (Ok tt)).
  - reflexivity.
  - lia.
  - lia.
  - lia.
  - vm_compute. reflexivity.
  - vm_compute. reflexivity.
Defined.

(** ** Which error a loader returns *)

Lemma Atoi_error (s : string) (e : error) : Atoi s = inl e -> e = ErrNum s.
Proof.
  unfold Atoi.
  destruct (match s with
            | String "-"%char s' => (true, s')
            | String "+"%char s' => (false, s')
            | _ => (false, s)
            end) as [neg body].
  destruct body; [by intros [= <-]|].
  destruct (digits _ _); [|by intros [= <-]].
  destruct (_ && _); [done|by intros [= <-]].
Qed.

Lemma nodesParseFunc_errors (m c p : Z) : num_errors (nodesParseFunc m c p).
Proof.
  intros line e. unfold nodesParseFunc. cbv zeta.
  destruct (String.eqb _ _); [done|]. destruct (_ <? _); [done|].
  destruct (index _ c) as [tok|]; [|done].
  destruct (Atoi tok) eqn:Ha; [intros [= <-]; eauto using Atoi_error|].
  destruct (index _ p) as [tok'|]; [|done].
  destruct (Atoi tok') eqn:Ha'; [intros [= <-]; eauto using Atoi_error|done].
Qed.

Lemma ranksParseFunc_errors (m c p r : Z) :
  num_errors (ranksParseFunc m c p r).
Proof.
  intros line e. unfold ranksParseFunc. cbv zeta.
  destruct (String.eqb _ _); [done|]. destruct (_ <? _); [done|].
  destruct (index _ c) as [tok|]; [|done].
  destruct (Atoi tok) eqn:Ha; [intros [= <-]; eauto using Atoi_error|].
  destruct (index _ p) as [tok'|]; [|done].
  destruct (Atoi tok') eqn:Ha'; [intros [= <-]; eauto using Atoi_error|].
  by destruct (index _ r).
Qed.

Lemma mergedParseFunc_errors (m c p : Z) : num_errors (mergedParseFunc m c p).
Proof.
  intros line e. unfold mergedParseFunc. cbv zeta.
  destruct (_ <? _); [done|].
  destruct (index _ c) as [tok|]; [|done].
  destruct (Atoi tok) eqn:Ha; [intros [= <-]; eauto using Atoi_error|].
  destruct (index _ p) as [tok'|]; [|done].
  destruct (Atoi tok') eqn:Ha'; [intros [= <-]; eauto using Atoi_error|done].
Qed.

Lemma deletedParseFunc_errors (c : Z) : num_errors (deletedParseFunc c).
Proof.
  intros line e. unfold deletedParseFunc. cbv zeta.
  destruct (_ <? _); [done|].
  destruct (index _ _) as [tok|]; [|done].
  destruct (Atoi tok) eqn:Ha; [intros [= <-]; eauto using Atoi_error|done].
Qed.

Lemma parseLines_errors {A} (fn : string -> parsed A) (lines : list string) :
  num_errors fn -> forall acc,
  match parseLines fn lines acc with
  | Ok ch => num_chunk ch
  | Err _ => False
  | Panic _ => True
  end.
Proof.
  intros Hfn. induction lines as [|line lines IH]; intros acc; simpl.
  - by intros e.
  - destruct (fn line) as [|a|e|] eqn:Hl; [apply IH|apply IH| |done].
    intros e' [= <-]. by apply (Hfn line).
Qed.

Lemma parseGroups_errors {A} (fn : string -> parsed A)
    (gs : list (list string)) :
  num_errors fn ->
  match parseGroups fn gs with
  | Ok chunks => Forall num_chunk chunks
  | Err _ => False
  | Panic _ => True
  end.
Proof.
  intros Hfn. induction gs as [|g gs IH]; simpl; [constructor|].
  pose proof (parseLines_errors fn g Hfn []) as Hg.
  destruct (parseLines fn g []) as [ch| |]; [|done..].
  destruct (ChunkErr ch) eqn:He; [by repeat constructor|].
  destruct (parseGroups fn gs); [by constructor|done..].
Qed.

Lemma NewBufferedReader_errors {A} (file : File) (b n : nat)
    (fn : string -> parsed A) :
  num_errors fn ->
  match NewBufferedReader file b n fn with
  | Ok chunks => Forall num_chunk chunks
  | Err e => e = ErrOpen
  | Panic _ => True
  end.
Proof.
  intros Hfn. destruct file as [lines|]; simpl; [|done].
  pose proof (parseGroups_errors fn (group n [] lines) Hfn) as H.
  by destruct (parseGroups fn (group n [] lines)).
Qed.

Lemma forChunks_errors {S A} (body : S -> A -> result S) (P : error -> Prop)
    (chunks : list (Chunk A)) :
  (forall s x e, body s x = Err e -> P e) ->
  Forall num_chunk chunks ->
  forall s e, forChunks body s chunks = Err e -> P e \/ reader_error e.
Proof.
  intros Hbody Hch. induction Hch as [|ch chunks Hc _ IH]; intros s e; simpl;
    [done|].
  destruct (ChunkErr ch) as [e'|] eqn:He.
  { intros [= <-]. right. right. destruct (Hc e' He) as [tok ->]. eauto. }
  assert (Hdata : forall l s0,
            match forData body s0 l with
            | Err e0 => P e0
            | _ => True
            end).
  { induction l as [|x l IHl]; intros s0; simpl; [done|].
    destruct (body s0 x) as [s1|e0|] eqn:Hb; [apply IHl| |done].
    by apply (Hbody s0 x). }
  specialize (Hdata (Data ch) s).
  destruct (forData body s (Data ch)) as [s1|e0|]; [apply IH| |done].
  intros [= <-]. by left.
Qed.

Lemma NewTaxonomy_errors (file : File) (c p : Z) (e : error) :
  NewTaxonomy file c p = Err e -> e = ErrIllegalColumnIndex \/ reader_error e.
Proof.
  unfold NewTaxonomy. destruct (_ || _); [intros [= <-]; by left|]. cbv zeta.
  pose proof (NewBufferedReader_errors file 8 100 _
                (nodesParseFunc_errors (minInt c [p]) (c - 1) (p - 1))) as Hr.
  destruct (NewBufferedReader _ _ _ _) as [chunks|e0|]; [| |done].
  - destruct (forChunks nodesStep (∅, 0, 0) chunks) as [[[n rt] m]|e0|] eqn:Hf;
      [done| |done].
    intros [= <-].
    destruct (forChunks_errors nodesStep (fun _ => False) chunks) with
      (s := (∅ : gmap Z Z, 0, 0)) (e := e0) as [[]|He]; try done.
    + intros [[n rt] m] x e'. done.
    + by right.
  - intros [= <-]. subst e0. right. by left.
Qed.

Lemma NewTaxonomyWithRank_errors (file : File) (c p r : Z) (e : error) :
  NewTaxonomyWithRank file c p r = Err e ->
  e = ErrIllegalColumnIndex \/ e = ErrTooManyRanks \/ reader_error e.
Proof.
  unfold NewTaxonomyWithRank. destruct (_ || _); [intros [= <-]; by left|].
  cbv zeta.
  pose proof (NewBufferedReader_errors file 8 100 _
                (ranksParseFunc_errors (minInt c [p; r]) (c - 1) (p - 1)
                   (r - 1))) as Hr.
  destruct (NewBufferedReader _ _ _ _) as [chunks|e0|]; [| |done].
  - destruct (forChunks ranksStep builder0 chunks) as [s|e0|] eqn:Hf;
      [done| |done].
    intros [= <-]. right.
    apply (forChunks_errors ranksStep (fun e => e = ErrTooManyRanks) chunks)
      with (s := builder0); [|done..].
    intros s x e'. unfold ranksStep.
    destruct (b_rank2rankid s !! RankRec.Rank x); [done|]. cbv zeta.
    destruct (_ >? 255); [by intros [= <-]|done].
  - intros [= <-]. subst e0. right. right. by left.
Qed.

Lemma LoadMergedNodes_errors (t : Taxonomy) (file : File) (c p : Z)
    (e : error) :
  fst (LoadMergedNodes t file c p) = Err e ->
  e = ErrIllegalColumnIndex \/ reader_error e.
Proof.
  unfold LoadMergedNodes. destruct (_ || _); [intros [= <-]; by left|].
  cbv zeta.
  pose proof (NewBufferedReader_errors file 3 50 _
                (mergedParseFunc_errors (if p >? c then p else c) (c - 1)
                   (p - 1))) as Hr.
  destruct (NewBufferedReader _ _ _ _) as [chunks|e0|]; [| |done].
  - destruct (forChunks mergedStep ∅ chunks) as [m|e0|] eqn:Hf; [done| |done].
    intros [= <-].
    destruct (forChunks_errors mergedStep (fun _ => False) chunks) with
      (s := (∅ : gmap Z Z)) (e := e0) as [[]|He]; try done.
    by right.
  - intros [= <-]. subst e0. right. by left.
Qed.

Lemma LoadDeletedNodes_errors (t : Taxonomy) (file : File) (c : Z)
    (e : error) :
  fst (LoadDeletedNodes t file c) = Err e ->
  e = ErrIllegalColumnIndex \/ reader_error e.
Proof.
  unfold LoadDeletedNodes. destruct (_ <? _); [intros [= <-]; by left|].
  cbv zeta.
  pose proof (NewBufferedReader_errors file 3 50 _
                (deletedParseFunc_errors c)) as Hr.
  destruct (NewBufferedReader _ _ _ _) as [chunks|e0|]; [| |done].
  - destruct (forChunks deletedStep ∅ chunks) as [m|e0|] eqn:Hf; [done| |done].
    intros [= <-].
    destruct (forChunks_errors deletedStep (fun _ => False) chunks) with
      (s := (∅ : gset Z)) (e := e0) as [[]|He]; try done.
    by right.
  - intros [= <-]. subst e0. right. by left.
Qed.

(** [ErrIllegalColumnIndex] is returned exactly for a column below 1, by
    all four loaders and whatever the file; every other error they return
    is a wrapped error of the reader (the file could not be opened, or a
    token is no number) or, for the ranks, [ErrTooManyRanks]. *)
Theorem illegal_column_iff (t : Taxonomy) (file : File) (c p r : Z) :
  ((NewTaxonomy file c p = Err ErrIllegalColumnIndex <-> c < 1 \/ p < 1)
   /\ forall e, NewTaxonomy file c p = Err e ->
        e = ErrIllegalColumnIndex \/ reader_error e)
  /\ ((NewTaxonomyWithRank file c p r = Err ErrIllegalColumnIndex
       <-> c < 1 \/ p < 1 \/ r < 1)
      /\ forall e, NewTaxonomyWithRank file c p r = Err e ->
           e = ErrIllegalColumnIndex \/ e = ErrTooManyRanks \/ reader_error e)
  /\ ((fst (LoadMergedNodes t file c p) = Err ErrIllegalColumnIndex
       <-> c < 1 \/ p < 1)
      /\ forall e, fst (LoadMergedNodes t file c p) = Err e ->
           e = ErrIllegalColumnIndex \/ reader_error e)
  /\ ((fst (LoadDeletedNodes t file c) = Err ErrIllegalColumnIndex <-> c < 1)
      /\ forall e, fst (LoadDeletedNodes t file c) = Err e ->
           e = ErrIllegalColumnIndex \/ reader_error e).
Proof.
  split; [|split; [|split]]; (split; [|intros e]).
  - unfold NewTaxonomy.
    destruct (Z.ltb_spec c 1), (Z.ltb_spec p 1); simpl orb; cbv iota;
      try (split; [intros _; lia|done]).
    cbv zeta. split; [|lia].
    destruct (NewBufferedReader _ _ _ _) as [chunks| |]; [|done..].
    pose proof (forChunks_total nodesStep _ nodesStep_total chunks (∅, 0, 0))
      as Htot.
    destruct (forChunks nodesStep (∅, 0, 0) chunks) as [[[n rt] m]|e|];
      [done| |done].
    destruct Htot as [_ [e' ->]]. done.
  - apply NewTaxonomy_errors.
  - unfold NewTaxonomyWithRank.
    destruct (Z.ltb_spec c 1), (Z.ltb_spec p 1), (Z.ltb_spec r 1);
      simpl orb; cbv iota; try (split; [intros _; lia|done]).
    cbv zeta. split; [|lia].
    destruct (NewBufferedReader _ _ _ _) as [chunks| |]; [|done..].
    pose proof (forChunks_ranks chunks builder0 [] rank_inv_start) as Htot.
    destruct (forChunks ranksStep builder0 chunks) as [s|e|]; [done| |done].
    destruct Htot as [[-> _]|[[e' ->] _]]; done.
  - apply NewTaxonomyWithRank_errors.
  - unfold LoadMergedNodes.
    destruct (Z.ltb_spec c 1), (Z.ltb_spec p 1); simpl orb; cbv iota;
      try (split; [intros _; lia|done]).
    cbv zeta. split; [|lia].
    destruct (NewBufferedReader _ _ _ _) as [chunks| |]; [|done..].
    pose proof (forChunks_total mergedStep _ mergedStep_total chunks ∅) as Htot.
    destruct (forChunks mergedStep ∅ chunks) as [m|e|]; [done| |done].
    destruct Htot as [_ [e' ->]]. done.
  - apply LoadMergedNodes_errors.
  - unfold LoadDeletedNodes.
    destruct (Z.ltb_spec c 1); [split; [intros _; lia|done]|].
    cbv zeta. split; [|lia].
    destruct (NewBufferedReader _ _ _ _) as [chunks| |]; [|done..].
    pose proof (forChunks_total deletedStep _ deletedStep_total chunks ∅)
      as Htot.
    destruct (forChunks deletedStep ∅ chunks) as [m|e|]; [done| |done].
    destruct Htot as [_ [e' ->]]. done.
  - apply LoadDeletedNodes_errors.
Qed.

(** ** What LCA returns on a well-formed store *)

Lemma path_det (N : gmap Z Z) c ps r ps' r' :
  path N c ps r -> path N c ps' r' -> ps = ps' /\ r = r'.
Proof.
  intros H. revert ps' r'.
  induction H as [c H|c p ps r H Hne Hp IH]; intros ps' r' H'.
  - inversion H'; subst; [done|congruence].
  - inversion H' as [|c' p' ps'' r'' H1 H2 H3]; subst; [congruence|].
    assert (p' = p) as -> by congruence.
    destruct (IH _ _ H3) as [-> ->]. done.
Qed.

Lemma line_with_root (t : Taxonomy) c ps r x :
  path (Nodes t) c ps r -> x ∈ c :: ps ++ [r] <-> x ∈ c :: ps.
Proof.
  intros Hp. rewrite app_comm_cons, elem_of_app, list_elem_of_singleton.
  split; [|auto]. intros [?| ->]; [done|]. exact (path_last t c ps r Hp).
Qed.

Section forest_order.
Variable t : Taxonomy.
Variable depth : Z -> nat.
Hypothesis Hdepth :
  forall c p, Nodes t !! c = Some p -> p <> c -> (depth p < depth c)%nat.

(** On the line of a key, the shallower of two nodes is an ancestor of the
    deeper one. *)
Lemma chain_order c ps r x v :
  path (Nodes t) c ps r -> x ∈ c :: ps -> v ∈ c :: ps ->
  (depth x <= depth v)%nat ->
  exists psv, path (Nodes t) v psv r /\ x ∈ v :: psv.
Proof.
  intros Hp Hx Hv Hle.
  apply elem_of_cons in Hv as [->|Hv]; [by exists ps|].
  apply list_elem_of_split in Hv as (l1 & l2 & ->).
  exists l2. split; [by eapply path_suffix|].
  rewrite app_comm_cons in Hx. apply elem_of_app in Hx as [Hx|Hx]; [|done].
  exfalso.
  assert (Hlt : (depth v < depth x)%nat); [|lia].
  apply elem_of_cons in Hx as [->|Hx].
  - eapply (path_depth t depth Hdepth); [exact Hp|].
    apply elem_of_app. right. apply list_elem_of_here.
  - apply list_elem_of_split in Hx as (l1a & l1b & ->).
    rewrite <- app_assoc in Hp. simpl in Hp. apply path_suffix in Hp.
    eapply (path_depth t depth Hdepth); [exact Hp|].
    apply elem_of_app. right. apply list_elem_of_here.
Qed.
End forest_order.

(** On a well-formed store, for two taxids that are keys of the parent map,
    [LCA] returns their lowest common ancestor: a node that is an ancestor
    (or the taxid itself) of both, and of which every other common ancestor
    is an ancestor. *)
Theorem LCA_lowest_common_ancestor (t0 t : Taxonomy) (a b : Z) :
  well_formed t0 -> lcaCache t0 = ∅ -> after_calls t0 t ->
  is_uint32 a -> is_uint32 b -> a <> 0 -> b <> 0 ->
  is_Some (Nodes t0 !! a) -> is_Some (Nodes t0 !! b) ->
  exists n v,
    (forall fuel, (n <= fuel)%nat -> lca fuel t a b = Some v)
    /\ ancestor (Nodes t0) a v /\ ancestor (Nodes t0) b v
    /\ forall x, ancestor (Nodes t0) a x -> ancestor (Nodes t0) b x ->
                 ancestor (Nodes t0) v x.
Proof.
  intros Hwf He Hcalls Ha Hb Ha0 Hb0 Hka Hkb.
  pose proof (after_calls_ok t0 t Hwf He Hcalls) as Hok.
  pose proof Hwf as [Hroot Hclosed [depth Hdepth]].
  destruct (path_exists t0 depth Hroot Hclosed Hdepth a Hka) as [psa Hpa].
  destruct (path_exists t0 depth Hroot Hclosed Hdepth b Hkb) as [psb Hpb].
  destruct (decide (a = b)) as [<-|Hab].
  { exists 0%nat, a. split; [|split; [|split]].
    - intros fuel _. eapply lca_cache_ok; eauto. unfold value.
      destruct (Z.eqb_spec a 0); [done|]. by rewrite Z.eqb_refl.
    - exists psa, (rootNode t0). split; [done|apply list_elem_of_here].
    - exists psa, (rootNode t0). split; [done|apply list_elem_of_here].
    - auto. }
  destruct Hka as [pa Hka], Hkb as [pb Hkb].
  set (n := S (length psa `max` length psb)).
  destruct (value_deepest t0 depth Hdepth a b a pa b pb psa psb n)
    as (v & Hv & [Hva Hvb] & Hmax);
    [done|done|done|by apply resolve_key|by apply resolve_key|done|done
    |lia|lia|].
  rewrite (line_with_root _ _ _ _ _ Hpa) in Hva.
  rewrite (line_with_root _ _ _ _ _ Hpb) in Hvb.
  exists n, v. split; [|split; [|split]].
  - intros fuel Hf. eapply lca_cache_ok; eauto. by eapply value_mono.
  - by exists psa, (rootNode t0).
  - by exists psb, (rootNode t0).
  - intros x (psa' & ra & Hpa' & Hxa) (psb' & rb & Hpb' & Hxb).
    destruct (path_det _ _ _ _ _ _ Hpa Hpa') as [<- <-].
    destruct (path_det _ _ _ _ _ _ Hpb Hpb') as [<- <-].
    assert (Hle : (depth x <= depth v)%nat).
    { apply Hmax.
      - by apply (line_with_root t0 a psa).
      - by apply (line_with_root t0 b psb). }
    destruct (chain_order t0 depth Hdepth b psb (rootNode t0) x v
                Hpb Hxb Hvb Hle) as (psv & Hpv & Hxv).
    by exists psv, (rootNode t0).
Qed.

Lemma LCA_lowest_common_ancestor_witness :
  exists n v,
    (forall fuel, (n <= fuel)%nat ->
       lca fuel (store_of 1 demo_nodes None) 5 7 = Some v)
    /\ ancestor demo_nodes 5 v /\ ancestor demo_nodes 7 v
    /\ forall x, ancestor demo_nodes 5 x -> ancestor demo_nodes 7 x ->
                 ancestor demo_nodes v x.
Proof.
  apply (LCA_lowest_common_ancestor (store_of 1 demo_nodes None)).
  - apply demo_well_formed.
  - reflexivity.
  - apply calls_none.
  - unfold is_uint32, uint32_max. lia.
  - unfold is_uint32, uint32_max. lia.
  - lia.
  - lia.
  - by eexists.
  - by eexists.
Defined.

Lemma lca_of_walk_return (fuel : nat) (t : Taxonomy) (a b v : Z) :
  a <> 0 -> b <> 0 -> a <> b ->
  (cacheLCA t = true -> lcaCache t !! pack2uint32 a b = None) ->
  walk fuel t a b = Some (Return v) -> lca fuel t a b = Some v.
Proof.
  intros Ha Hb Hab Hc Hw. unfold lca, LCA.
  destruct (Z.eqb_spec a 0); [done|]. destruct (Z.eqb_spec b 0); [done|].
  destruct (Z.eqb_spec a b); [done|]. simpl orb. cbv iota zeta.
  rewrite Hw. destruct (cacheLCA t); [by rewrite Hc|done].
Qed.

(** On any store: when the walk from [a] (after its merge substitution, if
    any) meets [b] among the proper ancestors, the computed answer is [b]. *)
Theorem LCA_ancestor_absorbs (fuel : nat) (t : Taxonomy) (a b a' p r : Z)
    (ps : list Z) :
  a <> 0 -> b <> 0 -> a <> b ->
  resolve t a = Some (a', p) -> path (Nodes t) a' ps r -> b ∈ ps ->
  (length ps < fuel)%nat ->
  (cacheLCA t = true -> lcaCache t !! pack2uint32 a b = None) ->
  lca fuel t a b = Some b.
Proof.
  intros Ha Hb Hab Hr Hp Hin Hf Hc.
  apply lca_of_walk_return; try done.
  unfold walk. rewrite (walkA_resolve fuel t b a a' p [] ∅ Hr).
  pose proof (walkA_path t a' ps r Hp fuel b [] ∅ Hf) as HA.
  rewrite bool_decide_eq_true_2 in HA by done. by rewrite HA.
Qed.

Lemma LCA_ancestor_absorbs_witness :
  lca 9 (store_of 1 demo_nodes (Some {[99 := 5]})) 99 2 = Some 2.
Proof.
  apply (LCA_ancestor_absorbs 9 _ 99 2 5 3 1 [3; 2; 1]).
  - lia.
  - lia.
  - lia.
  - vm_compute. reflexivity.
  - apply path_step; [vm_compute; reflexivity|lia|].
    apply path_step; [vm_compute; reflexivity|lia|].
    apply path_step; [vm_compute; reflexivity|lia|].
    apply path_root. vm_compute. reflexivity.
  - apply list_elem_of_further, list_elem_of_here.
  - simpl. lia.
  - intros H. vm_compute in H. discriminate H.
Defined.

(** A taxid known only through the merge map does not answer like its
    replacement but like the replacement's parent [p]: on a well-formed
    store [LCA a b] and [LCA p b] agree for every [b] other than [a]. *)
Theorem LCA_merged_as_parent (t0 t : Taxonomy) (a a' p b : Z) :
  well_formed t0 -> lcaCache t0 = ∅ -> after_calls t0 t ->
  is_uint32 a -> is_uint32 p -> is_uint32 b ->
  Nodes t0 !! a = None -> hasMergeNodes t0 = true ->
  MergeNodes t0 !! a = Some a' -> Nodes t0 !! a' = Some p ->
  a <> 0 -> p <> 0 -> b <> 0 -> b <> a ->
  exists n v, forall fuel, (n <= fuel)%nat ->
    lca fuel t a b = Some v /\ lca fuel t p b = Some v.
Proof.
  intros Hwf He Hcalls Ha32 Hp32 Hb32 Hna Hhas Hma Hna' Ha0 Hp0 Hb0 Hba.
  pose proof (after_calls_ok t0 t Hwf He Hcalls) as Hok.
  assert (Hra : resolve t0 a = Some (a', p))
    by (unfold resolve; by rewrite Hna, Hhas, Hma, Hna').
  destruct (value_symmetric t0 a b Hwf) as (n1 & v1 & Hn1).
  destruct (value_symmetric t0 p b Hwf) as (n2 & v2 & Hn2).
  assert (v1 = v2) as <-; cycle 1.
  { exists (n1 `max` n2)%nat, v1. intros fuel Hf.
    split; eapply lca_cache_ok; eauto; [apply Hn1|apply Hn2]; lia. }
  pose proof Hwf as [Hroot Hclosed [depth Hdepth]].
  destruct (Hclosed _ _ Hna') as [pp Hpp].
  destruct (path_exists t0 depth Hroot Hclosed Hdepth a') as [psa Hpa];
    [by eexists|].
  destruct (path_exists t0 depth Hroot Hclosed Hdepth p) as [psp Hpp'];
    [by eexists|].
  assert (Hrr : Nodes t0 !! rootNode t0 = Some (rootNode t0))
    by exact (path_root_loop t0 _ _ _ Hpa).
  (* the line of [a] is [a] followed by the line of [p] *)
  assert (Hlines : forall x, x <> a ->
            (x ∈ a :: psa ++ [rootNode t0] <-> x ∈ p :: psp ++ [rootNode t0])).
  { intros x Hxa. rewrite elem_of_cons.
    destruct (decide (p = a')) as [->|Hpa'].
    - assert (a' = rootNode t0) as Heq by by apply Hroot.
      rewrite (path_of_root t0 a' psa _ Hna' Hpa).
      rewrite (path_of_root t0 a' psp _ Hna' Hpp').
      simpl. rewrite Heq. rewrite !elem_of_cons. naive_solver.
    - inversion Hpa as [|c q ps r H1 H2 H3]; subst; [congruence|].
      assert (q = p) as -> by congruence.
      destruct (path_det _ _ _ _ _ _ Hpp' H3) as [<- _].
      simpl. naive_solver. }
  destruct (decide (b = p)) as [->|Hbp].
  { (* [b] is the parent itself *)
    destruct (Hn2 n2 (Nat.le_refl _)) as [H2 _].
    assert (v2 = p) as ->.
    { revert H2. unfold value. destruct (Z.eqb_spec p 0); [done|].
      rewrite Z.eqb_refl. simpl. by intros [= <-]. }
    destruct (Hn1 (n1 `max` 2)%nat ltac:(lia)) as [H1 _].
    eapply value_det; [exact H1|].
    instantiate (1 := 2%nat). unfold value.
    destruct (Z.eqb_spec a 0); [done|]. destruct (Z.eqb_spec p 0); [done|].
    destruct (Z.eqb_spec a p); [done|]. simpl orb. cbv iota.
    unfold walk. simpl. rewrite Hra.
    destruct (Z.eqb_spec p a') as [->|Hpa'].
    - simpl. rewrite (resolve_key t0 a' a' Hna'), Z.eqb_refl.
      f_equal. symmetry. by apply Hroot.
    - by rewrite Z.eqb_refl. }
  destruct (resolve t0 b) as [[b' pb]|] eqn:Hrb; cycle 1.
  { destruct (value_unresolved_r t0 a b Hwf Ha0 Hb0 (not_eq_sym Hba) Hrb)
      as [m1 Hm1].
    destruct (value_unresolved_r t0 p b Hwf Hp0 Hb0 (not_eq_sym Hbp) Hrb)
      as [m2 Hm2].
    destruct (Hn1 (n1 `max` m1)%nat ltac:(lia)) as [H1 _].
    destruct (Hn2 (n2 `max` m2)%nat ltac:(lia)) as [H2 _].
    rewrite Hm1 in H1 by lia. rewrite Hm2 in H2 by lia. congruence. }
  destruct (path_exists t0 depth Hroot Hclosed Hdepth b') as [psb Hpb];
    [eexists; by eapply resolve_Some|].
  set (n := S ((length psa `max` length psp) `max` length psb)).
  destruct (value_deepest t0 depth Hdepth a b a' p b' pb psa psb n)
    as (u1 & Hu1 & [Hu1a Hu1b] & Hmax1);
    [done|done|congruence|done|done|done|done|lia|lia|].
  destruct (value_deepest t0 depth Hdepth p b p pp b' pb psp psb n)
    as (u2 & Hu2 & [Hu2a Hu2b] & Hmax2);
    [done|done|congruence|by apply resolve_key|done|done|done|lia|lia|].
  destruct (Hn1 (n1 `max` n)%nat ltac:(lia)) as [H1 _].
  destruct (Hn2 (n2 `max` n)%nat ltac:(lia)) as [H2 _].
  assert (v1 = u1) as -> by (eapply value_det; eauto).
  assert (v2 = u2) as -> by (eapply value_det; eauto).
  (* nothing on the line of [b] is the unknown taxid [a] *)
  assert (Hnota : forall x, x ∈ b :: psb ++ [rootNode t0] -> x <> a).
  { intros x Hx ->. apply elem_of_cons in Hx as [?|Hx]; [done|].
    apply elem_of_app in Hx as [Hx|Hx].
    - destruct (path_keys t0 _ _ _ _ Hpb Hx). congruence.
    - apply list_elem_of_singleton in Hx. congruence. }
  assert (Hon : forall x, x ∈ p :: psp ++ [rootNode t0] ->
            x ∈ b :: psb ++ [rootNode t0] -> x ∈ b' :: psb).
  { intros x Hxp Hxb. apply elem_of_cons in Hxb as [->|Hxb].
    - assert (is_Some (Nodes t0 !! b)) as Hkey.
      { apply elem_of_cons in Hxp as [?|Hxp]; [done|].
        apply elem_of_app in Hxp as [Hxp|Hxp].
        - exact (path_keys t0 _ _ _ _ Hpp' Hxp).
        - apply list_elem_of_singleton in Hxp. rewrite Hxp. by eexists. }
      rewrite (resolve_of_key t0 b b' pb Hkey Hrb). apply list_elem_of_here.
    - apply elem_of_app in Hxb as [Hxb|Hxb].
      + by apply list_elem_of_further.
      + apply list_elem_of_singleton in Hxb. rewrite Hxb.
        exact (path_last t0 _ _ _ Hpb). }
  pose proof (proj1 (Hlines u1 (Hnota u1 Hu1b)) Hu1a) as Hu1p.
  pose proof (proj2 (Hlines u2 (Hnota u2 Hu2b)) Hu2a) as Hu2a'.
  eapply (path_inj t0 depth Hdepth b' psb); eauto.
  apply Nat.le_antisymm; auto.
Qed.

Lemma LCA_merged_as_parent_witness :
  exists n v, forall fuel, (n <= fuel)%nat ->
    lca fuel (store_of 1 demo_nodes (Some {[99 := 5]})) 99 6 = Some v
    /\ lca fuel (store_of 1 demo_nodes (Some {[99 := 5]})) 3 6 = Some v.
Proof.
  apply (LCA_merged_as_parent (store_of 1 demo_nodes (Some {[99 := 5]})) _
           99 5 3 6).
  - apply demo_well_formed.
  - reflexivity.
  - apply calls_none.
  - unfold is_uint32, uint32_max. lia.
  - unfold is_uint32, uint32_max. lia.
  - unfold is_uint32, uint32_max. lia.
  - vm_compute. reflexivity.
  - vm_compute. reflexivity.
  - vm_compute. reflexivity.
  - vm_compute. reflexivity.
  - lia.
  - lia.
  - lia.
  - lia.
Defined.

(** In particular the replacement itself is not the answer against its own
    merged id, nor against one of its children. *)
Example merged_is_not_replacement :
  let t := store_of 1 demo_nodes (Some {[99 := 3]}) in
  lca 9 t 99 3 = Some 2 /\ lca 9 t 3 3 = Some 3
  /\ lca 9 t 99 5 = Some 2 /\ lca 9 t 3 5 = Some 3.
Proof. vm_compute. repeat split. Qed.

(** ** The tree that the constructors build *)

Lemma nodes_fold_lookup (recs : list NodeRec.taxon) s c p :
  (fold_left nodesStep_pure recs s).1.1 !! c = Some p ->
  s.1.1 !! c = Some p
  \/ exists rec, rec ∈ recs /\ NodeRec.Taxid rec = c /\ NodeRec.Parent rec = p.
Proof.
  revert s. induction recs as [|r recs IH]; intros s H; simpl in H; [by left|].
  destruct (IH _ H) as [H'|(rec & Hin & Hc & Hp)].
  - simpl in H'. destruct (decide (NodeRec.Taxid r = c)) as [<-|Hne].
    + rewrite lookup_insert_eq in H'. injection H' as <-.
      right. exists r. split; [apply list_elem_of_here|done].
    + rewrite lookup_insert_ne in H' by done. by left.
  - right. exists rec. split; [by apply list_elem_of_further|done].
Qed.

Lemma nodes_fold_key (recs : list NodeRec.taxon) s k :
  is_Some (s.1.1 !! k) \/ k ∈ NodeRec.Taxid <$> recs ->
  is_Some ((fold_left nodesStep_pure recs s).1.1 !! k).
Proof.
  revert s. induction recs as [|r recs IH]; intros s H; simpl.
  - destruct H as [H|H]; [done|]. by apply elem_of_nil in H.
  - apply IH. simpl. destruct (decide (NodeRec.Taxid r = k)) as [<-|Hne].
    + left. rewrite lookup_insert_eq. by eexists.
    + rewrite lookup_insert_ne by done. destruct H as [H|H]; [by left|].
      rewrite fmap_cons in H. apply elem_of_cons in H as [?|H]; [done|].
      by right.
Qed.

Lemma nodes_fold_root (recs : list NodeRec.taxon) s :
  ((fold_left nodesStep_pure recs s).1.2 = s.1.2
   /\ forall rec, rec ∈ recs -> NodeRec.Taxid rec <> NodeRec.Parent rec)
  \/ exists rec, rec ∈ recs /\ NodeRec.Taxid rec = NodeRec.Parent rec
                 /\ (fold_left nodesStep_pure recs s).1.2 = NodeRec.Taxid rec.
Proof.
  revert s. induction recs as [|r recs IH]; intros s; simpl.
  - left. split; [done|]. intros rec Hin. by apply elem_of_nil in Hin.
  - destruct (IH (nodesStep_pure s r)) as [[Heq Hno]|(rec & Hin & Hl & Heq)].
    + rewrite Heq. simpl.
      destruct (Z.eqb_spec (NodeRec.Taxid r) (NodeRec.Parent r)) as [Hl|Hnl].
      * right. exists r. split; [apply list_elem_of_here|done].
      * left. split; [done|].
        intros rec [->|Hin]%elem_of_cons; auto.
    + right. exists rec. split; [by apply list_elem_of_further|done].
Qed.

(** A dump whose records form a tree gives a well-formed store: when all
    self-loop records name one taxon, every parent occurs as a child, and
    some depth decreases from child to parent, the store that [NewTaxonomy]
    returns is well formed, with caching off and an empty cache, so that
    the properties of [LCA] on well-formed stores apply to it. *)
Theorem NewTaxonomy_well_formed (file : File) (c p : Z) (t : Taxonomy)
    (chunks : list (Chunk NodeRec.taxon)) (depth : Z -> nat) :
  NewTaxonomy file c p = Ok t -> nodesReader file c p = Ok chunks ->
  (forall r1 r2, r1 ∈ delivered chunks -> r2 ∈ delivered chunks ->
     NodeRec.Taxid r1 = NodeRec.Parent r1 ->
     NodeRec.Taxid r2 = NodeRec.Parent r2 ->
     NodeRec.Taxid r1 = NodeRec.Taxid r2) ->
  (forall r, r ∈ delivered chunks ->
     NodeRec.Parent r ∈ NodeRec.Taxid <$> delivered chunks) ->
  (forall r, r ∈ delivered chunks -> NodeRec.Parent r <> NodeRec.Taxid r ->
     (depth (NodeRec.Parent r) < depth (NodeRec.Taxid r))%nat) ->
  well_formed t /\ cacheLCA t = false /\ lcaCache t = ∅.
Proof.
  intros Hnew Hread Hone Hclosed Hdepth.
  apply NewTaxonomy_Ok in Hnew as (chunks' & Hread' & _ & ->).
  assert (chunks' = chunks) as -> by congruence.
  split; [|done]. split; simpl.
  - intros k Hk.
    apply nodes_fold_lookup in Hk as [Hk|(rec & Hin & Hc & Hp)];
      [simpl in Hk; by rewrite lookup_empty in Hk|].
    destruct (nodes_fold_root (delivered chunks) (∅, 0, 0))
      as [[_ Hno]|(rec' & Hin' & Hl & ->)].
    + exfalso. apply (Hno rec Hin). congruence.
    + rewrite <- Hc. apply Hone; [done..|congruence|done].
  - intros k q Hk.
    apply nodes_fold_lookup in Hk as [Hk|(rec & Hin & Hc & Hp)];
      [simpl in Hk; by rewrite lookup_empty in Hk|].
    apply nodes_fold_key. right. rewrite <- Hp. by apply Hclosed.
  - exists depth. intros k q Hk Hne.
    apply nodes_fold_lookup in Hk as [Hk|(rec & Hin & <- & <-)];
      [simpl in Hk; by rewrite lookup_empty in Hk|].
    by apply Hdepth.
Qed.

Ltac each_record H :=
  repeat (apply elem_of_cons in H as [->|H]); [..|by apply elem_of_nil in H].

Lemma NewTaxonomy_well_formed_witness :
  exists t, NewTaxonomy demo_file 1 3 = Ok t /\ well_formed t.
Proof.
  eexists. split; [vm_compute; reflexivity|].
  destruct (nodesReader demo_file 1 3) as [chunks| |] eqn:Hread;
    [|vm_compute in Hread; discriminate Hread..].
  refine (proj1 (NewTaxonomy_well_formed demo_file 1 3 _ chunks Z.to_nat
                   _ Hread _ _ _)).
  - vm_compute. reflexivity.
  - vm_compute in Hread. injection Hread as <-. cbn.
    intros r1 r2 H1 H2. each_record H1; each_record H2; cbn; congruence.
  - vm_compute in Hread. injection Hread as <-. cbn.
    intros r H. each_record H; cbn;
      repeat first [apply list_elem_of_here | apply list_elem_of_further].
  - vm_compute in Hread. injection Hread as <-. cbn.
    intros r H. each_record H; cbn; lia.
Defined.

(** ** The two constructors build the same tree *)

Lemma minInt_3_le (c p r : Z) : minInt c [p; r] <= minInt c [p].
Proof.
  unfold minInt. simpl.
  destruct (Z.ltb_spec p c), (Z.ltb_spec r p), (Z.ltb_spec r c); lia.
Qed.

Lemma minInt_2_le (c p : Z) : minInt c [p] <= c.
Proof. unfold minInt. simpl. destruct (Z.ltb_spec p c); lia. Qed.

(** Line by line: what the ranked parser skips the plain parser skips, and
    what it parses the plain parser parses to the same child and parent. *)
Lemma parse_agree (c p r : Z) (line : string) :
  match ranksParseFunc (minInt c [p; r]) (c - 1) (p - 1) (r - 1) line with
  | Skipped =>
      nodesParseFunc (minInt c [p]) (c - 1) (p - 1) line = Skipped
  | Parsed tax =>
      nodesParseFunc (minInt c [p]) (c - 1) (p - 1) line = Parsed (strip tax)
  | _ => True
  end.
Proof.
  unfold ranksParseFunc, nodesParseFunc.
  destruct (String.eqb (TrimSpace line) EmptyString); [done|].
  set (items := Split (TrimSpace line)).
  pose proof (minInt_3_le c p r) as H3. pose proof (minInt_2_le c p) as H2.
  destruct (Z.ltb_spec (Z.of_nat (length items)) (minInt c [p; r])) as [Hlt|Hge].
  { destruct (Z.ltb_spec (Z.of_nat (length items)) (minInt c [p])); [done|lia]. }
  destruct (index items (c - 1)) as [tok|] eqn:Hic; [|done].
  assert (Hlen : c <= Z.of_nat (length items)).
  { unfold index in Hic. destruct (Z.ltb_spec (c - 1) 0); [done|].
    apply lookup_lt_Some in Hic. lia. }
  destruct (Z.ltb_spec (Z.of_nat (length items)) (minInt c [p])); [lia|].
  destruct (Atoi tok) as [e|child]; [done|].
  destruct (index items (p - 1)) as [tok'|]; [|done].
  destruct (Atoi tok') as [e|parent]; [done|].
  by destruct (index items (r - 1)).
Qed.

Section agree.
Variables c p r : Z.
Let ranksF := ranksParseFunc (minInt c [p; r]) (c - 1) (p - 1) (r - 1).
Let nodesF := nodesParseFunc (minInt c [p]) (c - 1) (p - 1).

Lemma parseLines_agree lines acc ch :
  parseLines ranksF lines acc = Ok ch -> ChunkErr ch = None ->
  parseLines nodesF lines (strip <$> acc) = Ok (strip_chunk ch).
Proof.
  revert acc. induction lines as [|line lines IH]; intros acc; simpl.
  - by intros [= <-] _.
  - pose proof (parse_agree c p r line) as Hl. fold ranksF nodesF in Hl.
    destruct (ranksF line) as [|tax|e|].
    + rewrite Hl. apply IH.
    + rewrite Hl. intros H He. specialize (IH _ H He).
      by rewrite fmap_app in IH.
    + by intros [= <-] He.
    + done.
Qed.

Lemma parseGroups_agree gs chunks :
  parseGroups ranksF gs = Ok chunks -> clean chunks ->
  parseGroups nodesF gs = Ok (strip_chunk <$> chunks).
Proof.
  revert chunks. induction gs as [|g gs IH]; intros chunks; simpl.
  - by intros [= <-] _.
  - destruct (parseLines ranksF g []) as [ch| |] eqn:Hg; [|done..].
    destruct (ChunkErr ch) as [e|] eqn:He.
    + intros [= <-] Hc. inversion Hc; congruence.
    + destruct (parseGroups ranksF gs) as [chs| |]; [|done..].
      intros [= <-] Hc. inversion Hc; subst.
      pose proof (parseLines_agree g [] ch Hg He) as Hpl. simpl in Hpl.
      rewrite Hpl. simpl. rewrite He.
      by rewrite (IH chs).
Qed.
End agree.

Lemma delivered_strip (chunks : list (Chunk RankRec.taxon)) :
  delivered (strip_chunk <$> chunks) = strip <$> delivered chunks.
Proof.
  induction chunks as [|ch chunks IH]; [done|].
  rewrite fmap_cons. cbn [delivered strip_chunk ChunkErr Data].
  destruct (ChunkErr ch); [done|]. by rewrite IH, fmap_app.
Qed.

Lemma clean_strip (chunks : list (Chunk RankRec.taxon)) :
  clean chunks -> clean (strip_chunk <$> chunks).
Proof.
  unfold clean. induction 1 as [|ch chunks Hch _ IH]; [constructor|].
  rewrite fmap_cons. by constructor.
Qed.

Lemma ranksStep_tree s tax s' :
  ranksStep s tax = Ok s' ->
  tree_of s' = nodesStep_pure (tree_of s) (strip tax)
  /\ dom (b_taxid2rankid s') = {[RankRec.Taxid tax]} ∪ dom (b_taxid2rankid s).
Proof.
  unfold ranksStep, tree_of, nodesStep_pure. rewrite gtb_max.
  destruct (b_rank2rankid s !! RankRec.Rank tax).
  - intros [= <-]. simpl. by rewrite dom_insert_L.
  - destruct (_ >? 255); [done|]. intros [= <-]. simpl.
    by rewrite dom_insert_L.
Qed.

Lemma forData_tree (l : list RankRec.taxon) s s' :
  forData ranksStep s l = Ok s' ->
  tree_of s' = fold_left nodesStep_pure (strip <$> l) (tree_of s)
  /\ dom (b_taxid2rankid s')
     = list_to_set (RankRec.Taxid <$> l) ∪ dom (b_taxid2rankid s).
Proof.
  revert s. induction l as [|tax l IH]; intros s; simpl.
  - intros [= <-]. split; [done|]. set_solver.
  - destruct (ranksStep s tax) as [s1| |] eqn:Hs; [|done..].
    intros H. destruct (ranksStep_tree _ _ _ Hs) as [Ht Hd].
    destruct (IH _ H) as [Ht' Hd']. rewrite Ht', Ht, Hd', Hd.
    split; [done|]. set_solver.
Qed.

Lemma forChunks_tree (chunks : list (Chunk RankRec.taxon)) s s' :
  forChunks ranksStep s chunks = Ok s' ->
  tree_of s' = fold_left nodesStep_pure (strip <$> delivered chunks) (tree_of s)
  /\ dom (b_taxid2rankid s')
     = list_to_set (RankRec.Taxid <$> delivered chunks)
       ∪ dom (b_taxid2rankid s).
Proof.
  revert s. induction chunks as [|ch chunks IH]; intros s; simpl.
  - intros [= <-]. split; [done|]. set_solver.
  - destruct (ChunkErr ch); [done|].
    destruct (forData ranksStep s (Data ch)) as [s1| |] eqn:Hs; [|done..].
    intros H. destruct (forData_tree _ _ _ Hs) as [Ht Hd].
    destruct (IH _ H) as [Ht' Hd'].
    rewrite Ht', Ht, Hd', Hd, !fmap_app, fold_left_app, list_to_set_app_L.
    split; [done|]. set_solver.
Qed.

Lemma nodes_fold_dom (recs : list NodeRec.taxon) s :
  dom (fold_left nodesStep_pure recs s).1.1
  = list_to_set (NodeRec.Taxid <$> recs) ∪ dom s.1.1.
Proof.
  revert s. induction recs as [|rec recs IH]; intros s; simpl.
  - set_solver.
  - rewrite IH. simpl. rewrite dom_insert_L. set_solver.
Qed.

(** Whenever [NewTaxonomyWithRank] succeeds on a file, [NewTaxonomy] with
    the same child and parent columns succeeds on it too and builds the
    same parent map, root and maximal taxid. *)
Theorem constructors_agree (file : File) (c p r : Z) (t : Taxonomy) :
  NewTaxonomyWithRank file c p r = Ok t ->
  exists t', NewTaxonomy file c p = Ok t'
    /\ Nodes t' = Nodes t /\ rootNode t' = rootNode t
    /\ MaxTaxid t' = MaxTaxid t.
Proof.
  unfold NewTaxonomyWithRank, NewTaxonomy.
  destruct (Z.ltb_spec c 1); [done|]. destruct (Z.ltb_spec p 1); [done|].
  destruct (Z.ltb_spec r 1); [done|]. simpl orb. cbv iota zeta.
  unfold NewBufferedReader. destruct file as [lines|]; [|done].
  destruct (parseGroups _ (group 100 [] lines)) as [chunks| |] eqn:Hg;
    [|done..].
  pose proof (forChunks_ranks chunks builder0 [] rank_inv_start) as Hinv.
  destruct (forChunks ranksStep builder0 chunks) as [s| |] eqn:Hs; [|done..].
  destruct Hinv as [Hclean _]. intros [= <-].
  rewrite (parseGroups_agree c p r _ _ Hg Hclean).
  pose proof (forChunks_total nodesStep _ nodesStep_total
                (strip_chunk <$> chunks) (∅, 0, 0)) as Htot.
  destruct (forChunks nodesStep (∅, 0, 0) (strip_chunk <$> chunks))
    as [[[n rt] m]|e|].
  - destruct Htot as [_ Heq]. rewrite delivered_strip in Heq.
    destruct (forChunks_tree _ _ _ Hs) as [Htree _].
    unfold tree_of in Htree. simpl in Htree. rewrite <- Htree in Heq.
    injection Heq as -> -> ->. by eexists.
  - destruct Htot as [Hnc _]. exfalso. by apply Hnc, clean_strip.
  - done.
Qed.

Lemma constructors_agree_witness :
  exists t', NewTaxonomy demo_file 1 3 = Ok t' /\ Nodes t' = demo_nodes.
Proof.
  destruct (NewTaxonomyWithRank demo_file 1 3 5) as [t| |] eqn:Ht;
    [|vm_compute in Ht; discriminate Ht..].
  destruct (constructors_agree demo_file 1 3 5 t Ht)
    as (t' & Ht' & Hn & _ & _).
  exists t'. split; [exact Ht'|]. rewrite Hn.
  vm_compute in Ht. injection Ht as <-. vm_compute. reflexivity.
Defined.

(** A store built with ranks has a rank entry for exactly the taxa of its
    parent map; [Rank] of such a taxon is a member of [Ranks], and [Rank]
    of any other taxid is the empty string. *)
Theorem Rank_covers_Nodes (file : File) (c p r : Z) (t : Taxonomy) (x : Z) :
  NewTaxonomyWithRank file c p r = Ok t ->
  (is_Some (taxid2rankid t !! x) <-> is_Some (Nodes t !! x))
  /\ (is_Some (Nodes t !! x) -> exists rk, Rank t x = Ok rk /\ rk ∈ Ranks t)
  /\ (Nodes t !! x = None -> Rank t x = Ok EmptyString).
Proof.
  intros Hnew.
  assert (Hdom : dom (taxid2rankid t) = dom (Nodes t)).
  { revert Hnew. unfold NewTaxonomyWithRank.
    destruct ((c <? 1) || (p <? 1) || (r <? 1)); [done|]. cbv zeta.
    destruct (NewBufferedReader _ _ _ _) as [chunks| |]; [|done..].
    destruct (forChunks ranksStep builder0 chunks) as [s| |] eqn:Hs; [|done..].
    intros [= <-]. simpl.
    destruct (forChunks_tree _ _ _ Hs) as [Htree ->].
    assert (b_nodes s = (tree_of s).1.1) as -> by done.
    rewrite Htree, nodes_fold_dom. simpl.
    rewrite <- list_fmap_compose. done. }
  assert (Hiff : is_Some (taxid2rankid t !! x) <-> is_Some (Nodes t !! x))
    by (by rewrite <- !elem_of_dom, Hdom).
  apply NewTaxonomyWithRank_Ok in Hnew as (chunks & s & Hr & Hc & Hi & ->).
  simpl in *. split; [done|]. unfold Rank. simpl.
  pose proof (ri_rank _ _ Hi x) as Hx. split.
  - intros Hk. apply Hiff in Hk as [i Hi'].
    destruct (rank_of x (delivered chunks)) as [rk|]; [|congruence].
    destruct Hx as (j & Hj & Hge & Hlk). rewrite Hj. unfold index.
    destruct (Z.ltb_spec j 0); [lia|]. rewrite Hlk. exists rk.
    split; [done|]. rewrite (ri_set _ _ Hi), elem_of_list_to_set.
    by eapply list_elem_of_lookup_2.
  - intros Hn.
    destruct (b_taxid2rankid s !! x) as [i|] eqn:Hi'; [|done].
    assert (is_Some (b_nodes s !! x)) as [? ?] by (apply Hiff; by eexists).
    congruence.
Qed.

Lemma Rank_covers_Nodes_witness :
  exists t, NewTaxonomyWithRank demo_file 1 3 5 = Ok t
    /\ (is_Some (Nodes t !! 6) -> exists rk, Rank t 6 = Ok rk /\ rk ∈ Ranks t).
Proof.
  eexists. split; [vm_compute; reflexivity|].
  eapply (Rank_covers_Nodes demo_file 1 3 5 _ 6).
  vm_compute. reflexivity.
Defined.

(** ** filterCode and the filter command *)


Ltac pow_consts :=
  change (2 ^ 64) with 18446744073709551616 in *;
  change (2 ^ 63) with 9223372036854775808 in *;
  change (2 ^ 61) with 2305843009213693952 in *;
  change (2 ^ 60) with 1152921504606846976 in *.

Lemma wrap64_small (x : Z) : - 2 ^ 61 <= x <= 2 ^ 61 -> wrap64 x = x.
Proof.
  intros H. unfold wrap64. pow_consts. rewrite Z.mod_small; lia.
Qed.

Lemma score_at_bound code i : -1 <= score_at code i <= 2.
Proof.
  destruct i; simpl; [lia|]. destruct (_ =? _); lia.
Qed.

Lemma window_sum_S_l f i w :
  window_sum f i (S w) = f i + window_sum f (S i) w.
Proof. done. Qed.

Lemma window_sum_S_r f i w :
  window_sum f i (S w) = window_sum f i w + f (i + w)%nat.
Proof.
  unfold window_sum. rewrite seq_S, fmap_app, foldr_app. simpl.
  generalize (f <$> seq i w). intros l. induction l; simpl; lia.
Qed.

Lemma window_sum_slide f i w :
  window_sum f (S i) w = window_sum f i w - f i + f (i + w)%nat.
Proof.
  pose proof (window_sum_S_l f i w). pose proof (window_sum_S_r f i w). lia.
Qed.

Lemma window_sum_bound f i w lo hi :
  (forall j, lo <= f j <= hi) ->
  Z.of_nat w * lo <= window_sum f i w <= Z.of_nat w * hi.
Proof.
  intros Hf. revert i. induction w as [|w IH]; intros i.
  - unfold window_sum. simpl. lia.
  - rewrite window_sum_S_l. specialize (IH (S i)). specialize (Hf i). lia.
Qed.

Lemma scored_length code n scores0 :
  (n <= length scores0)%nat -> length (scored code n scores0) = length scores0.
Proof.
  intros H. unfold scored.
  rewrite length_app, length_fmap, length_seq, length_drop. lia.
Qed.

Lemma scored_lookup code n scores0 j :
  (j < n)%nat -> scored code n scores0 !! j = Some (score_at code j).
Proof.
  intros H. unfold scored.
  rewrite lookup_app_l by (rewrite length_fmap, length_seq; lia).
  rewrite list_lookup_fmap, lookup_seq_lt by done. done.
Qed.

Lemma scored_S code n scores0 :
  (n < length scores0)%nat ->
  <[n := score_at code n]> (scored code n scores0) = scored code (S n) scores0.
Proof.
  intros H. unfold scored.
  destruct (lookup_lt_is_Some_2 scores0 n H) as [x Hx].
  rewrite (drop_S scores0 x n Hx), seq_S, fmap_app.
  rewrite insert_app_r_alt by (rewrite length_fmap, length_seq; lia).
  rewrite length_fmap, length_seq, Nat.sub_diag. simpl.
  by rewrite <- app_assoc.
Qed.

Lemma scoreLoop_spec code0 scores0 todo :
  forall n last,
    (n + todo <= length scores0)%nat ->
    (forall j, n = S j -> last = base code0 j) ->
    scoreLoop todo (Z.of_nat n) (Z.shiftr code0 (2 * Z.of_nat n)) last
      (scored code0 n scores0)
    = Some (scored code0 (n + todo) scores0).
Proof.
  induction todo as [|todo IH]; intros n last Hlen Hlast; simpl.
  - by rewrite Nat.add_0_r.
  - unfold put. rewrite scored_length by lia.
    destruct (Z.leb_spec 0 (Z.of_nat n)); [|lia].
    destruct (Z.ltb_spec (Z.of_nat n) (Z.of_nat (length scores0))); [|lia].
    simpl. rewrite Nat2Z.id.
    assert (Hv : (if Z.of_nat n >? 0
                  then if Z.land (Z.shiftr code0 (2 * Z.of_nat n)) 3 =? last
                       then 2 else -1
                  else 1) = score_at code0 n).
    { destruct n as [|j]; [done|].
      destruct (Z.gtb_spec (Z.of_nat (S j)) 0); [|lia].
      rewrite (Hlast j eq_refl). done. }
    rewrite Hv, scored_S by lia.
    rewrite Z.shiftr_shiftr by lia.
    replace (2 * Z.of_nat n + 2) with (2 * Z.of_nat (S n)) by lia.
    replace (Z.of_nat n + 1) with (Z.of_nat (S n)) by lia.
    rewrite IH; [f_equal; f_equal; lia|lia|].
    intros j [= <-]. done.
Qed.

Section sliding.
Variables (code : Z) (scores0 : list Z) (k : nat).
Hypothesis Hk : (k <= length scores0)%nat.
Hypothesis Hsmall : Z.of_nat k < 2 ^ 60.
Let f := score_at code.
Let scores := scored code k scores0.

Lemma scores_index (j : nat) :
  (j < k)%nat -> index scores (Z.of_nat j) = Some (f j).
Proof.
  intros H. unfold index. destruct (Z.ltb_spec (Z.of_nat j) 0); [lia|].
  rewrite Nat2Z.id. by apply scored_lookup.
Qed.

Lemma sumLoop_spec todo :
  forall j s, (j + todo <= k)%nat ->
    - 2 ^ 61 + Z.of_nat todo <= s <= 2 ^ 61 - 2 * Z.of_nat todo ->
    sumLoop todo (Z.of_nat j) s scores = Some (s + window_sum f j todo).
Proof.
  induction todo as [|todo IH]; intros j s Hj Hs; simpl.
  - unfold window_sum. simpl. f_equal. lia.
  - rewrite scores_index by lia.
    pose proof (score_at_bound code j) as Hb. fold f in Hb.
    rewrite wrap64_small by (pow_consts; lia).
    replace (Z.of_nat j + 1) with (Z.of_nat (S j)) by lia.
    rewrite IH by (pow_consts; lia). rewrite window_sum_S_l. f_equal. lia.
Qed.

Lemma window_bound i w :
  - Z.of_nat w <= window_sum f i w <= 2 * Z.of_nat w.
Proof.
  pose proof (window_sum_bound f i w (-1) 2 (score_at_bound code)). lia.
Qed.

Lemma slideLoop_spec threshold (w : nat) todo :
  forall i, (i + todo + w <= k)%nat -> (1 <= w)%nat ->
    slideLoop todo (Z.of_nat (S i)) (window_sum f i w) (f i) threshold
      (Z.of_nat w) scores
    = Some (existsb (fun j => threshold <=? window_sum f j w)
              (seq (S i) todo)).
Proof.
  induction todo as [|todo IH]; intros i Hi Hw; simpl; [done|].
  destruct (Z.eqb_spec (Z.of_nat (S i)) 0); [lia|].
  pose proof (window_bound i w) as Hb1.
  pose proof (window_bound (S i) w) as Hb2.
  pose proof (score_at_bound code i) as Hb3.
  pose proof (score_at_bound code (i + w)) as Hb4. fold f in Hb3, Hb4.
  rewrite (wrap64_small (Z.of_nat (S i) + Z.of_nat w)) by (pow_consts; lia).
  rewrite (wrap64_small (Z.of_nat (S i) + Z.of_nat w - 1))
    by (pow_consts; lia).
  replace (Z.of_nat (S i) + Z.of_nat w - 1) with (Z.of_nat (i + w)) by lia.
  rewrite scores_index by lia.
  rewrite (wrap64_small (window_sum f i w - f i)) by (pow_consts; lia).
  rewrite wrap64_small by (pow_consts; lia).
  rewrite <- window_sum_slide.
  rewrite scores_index by lia.
  destruct (Z.geb_spec (window_sum f (S i) w) threshold) as [Hge|Hlt].
  - destruct (Z.leb_spec threshold (window_sum f (S i) w)); [done|lia].
  - destruct (Z.leb_spec threshold (window_sum f (S i) w)); [lia|]. simpl.
    replace (Z.of_nat (S i) + 1) with (Z.of_nat (S (S i))) by lia.
    apply IH; lia.
Qed.

Lemma slideLoop_start threshold (w : nat) todo :
  (todo + w <= k)%nat -> (1 <= w)%nat ->
  slideLoop (S todo) 0 0 0 threshold (Z.of_nat w) scores
  = Some (existsb (fun j => threshold <=? window_sum f j w) (seq 0 (S todo))).
Proof.
  intros Hi Hw. cbn [slideLoop]. rewrite Nat2Z.id.
  destruct (Z.eqb_spec 0 0); [|done].
  pose proof (sumLoop_spec w 0%nat 0 ltac:(lia) ltac:(pow_consts; lia))
    as Hsum.
  change (Z.of_nat 0) with 0 in Hsum. rewrite Hsum, Z.add_0_l.
  pose proof (scores_index 0 ltac:(lia)) as H0.
  change (Z.of_nat 0) with 0 in H0. rewrite H0.
  pose proof (slideLoop_spec threshold w todo 0%nat ltac:(lia) Hw) as Hs.
  cbn [existsb seq].
  destruct (Z.geb_spec (window_sum f 0 w) threshold) as [Hge|Hlt].
  - destruct (Z.leb_spec threshold (window_sum f 0 w)); [|lia].
    reflexivity.
  - destruct (Z.leb_spec threshold (window_sum f 0 w)); [lia|].
    cbn [orb]. change (0 + 1) with (Z.of_nat 1). exact Hs.
Qed.
End sliding.


Lemma filterCode_eval (code k threshold window : Z) (scores : list Z) :
  1 <= window <= k -> k <= Z.of_nat (length scores) -> k < 2 ^ 60 ->
  filterCode code k threshold window scores
  = Ok (low_complexity code k threshold window,
        (score_at code <$> seq 0 (Z.to_nat k)) ++ drop (Z.to_nat k) scores).
Proof.
  intros Hw Hlen Hk. unfold filterCode.
  pose proof (scoreLoop_spec code scores (Z.to_nat k) 0%nat 356
                ltac:(lia) ltac:(done)) as Hs.
  change (Z.of_nat 0) with 0 in Hs. rewrite Z.mul_0_r, Z.shiftr_0_r in Hs.
  change (scored code 0 scores) with scores in Hs. rewrite Hs. clear Hs.
  simpl Nat.add. cbv zeta.
  rewrite (wrap64_small (k - window)) by (pow_consts; lia).
  rewrite wrap64_small by (pow_consts; lia).
  assert (Hlast : (if k - window - 1 <? 0 then 0 else k - window - 1) + 1
                  = Z.max 1 (k - window))
    by (destruct (Z.ltb_spec (k - window - 1) 0); lia).
  rewrite Hlast.
  destruct (Z.to_nat (Z.max 1 (k - window))) as [|todo] eqn:Htodo; [lia|].
  pose proof (slideLoop_start code scores (Z.to_nat k) ltac:(lia)
                ltac:(lia) threshold (Z.to_nat window) todo
                ltac:(lia) ltac:(lia)) as Hsl.
  rewrite Z2Nat.id in Hsl by lia. rewrite Hsl.
  unfold low_complexity, scored. by rewrite Htodo.
Qed.

(** Given a window that fits the k-mer and a buffer of at least [k]
    entries, [filterCode] does not panic; it overwrites the first [k]
    entries of the buffer with the scores of the code, and it answers true
    exactly when the window starting at one of the positions
    [0 .. max(1, k - window) - 1] sums to [threshold] or more.  The window
    that starts at [k - window] is not looked at when [k > window]. *)
Theorem filterCode_windows (code k threshold window : Z) (scores : list Z) :
  1 <= window <= k -> k <= Z.of_nat (length scores) -> k < 2 ^ 60 ->
  exists hit,
    filterCode code k threshold window scores
    = Ok (hit, (score_at code <$> seq 0 (Z.to_nat k))
               ++ drop (Z.to_nat k) scores)
    /\ (hit = true <->
        exists j : nat, Z.of_nat j < Z.max 1 (k - window)
          /\ threshold <= window_sum (score_at code) j (Z.to_nat window)).
Proof.
  intros Hw Hlen Hk. eexists. split; [by apply filterCode_eval|].
  unfold low_complexity. rewrite existsb_exists. split.
  - intros (j & Hj & Hle). exists j. apply in_seq in Hj.
    split; [lia|]. by apply Z.leb_le.
  - intros (j & Hj & Hle). exists j. split; [|by apply Z.leb_le].
    apply in_seq. lia.
Qed.

Lemma window_sum_run (f : nat -> Z) (w : nat) :
  f 0%nat = 1 -> (forall j, (S j < w)%nat -> f (S j) = 2) -> (1 <= w)%nat ->
  window_sum f 0 w = 2 * Z.of_nat w - 1.
Proof.
  intros H0 Hrun. induction w as [|w IH]; intros Hw; [lia|].
  rewrite window_sum_S_r. simpl Nat.add.
  destruct w as [|w'].
  - unfold window_sum. simpl. lia.
  - rewrite IH by (intros; try apply Hrun; lia). rewrite Hrun by lia. lia.
Qed.

Lemma existsb_none {A} (P : A -> bool) (l : list A) :
  (forall x, P x = false) -> existsb P l = false.
Proof. intros H. induction l; simpl; [done|]. by rewrite H. Qed.

(** No k-mer is reported when the threshold is above twice the window; a
    k-mer that starts with a run of [window] equal bases is reported as soon
    as the threshold is at most [2 * window - 1]. *)
Theorem filterCode_bounds (code k threshold window : Z) (scores : list Z) :
  1 <= window <= k -> k <= Z.of_nat (length scores) -> k < 2 ^ 60 ->
  exists hit scores',
    filterCode code k threshold window scores = Ok (hit, scores')
    /\ (2 * window < threshold -> hit = false)
    /\ ((forall j, Z.of_nat (S j) < window ->
           base code (S j) = base code j) ->
        threshold <= 2 * window - 1 -> hit = true).
Proof.
  intros Hw Hlen Hk. do 2 eexists. split; [by apply filterCode_eval|].
  unfold low_complexity. split.
  - intros Hth. apply existsb_none. intros j. apply Z.leb_gt.
    pose proof (window_sum_bound (score_at code) j (Z.to_nat window) (-1) 2
                  (score_at_bound code)). lia.
  - intros Hrun Hth.
    destruct (Z.to_nat (Z.max 1 (k - window))) as [|todo] eqn:Htodo; [lia|].
    simpl. apply orb_true_iff. left. apply Z.leb_le.
    rewrite window_sum_run; [lia|done| |lia].
    intros j Hj. simpl. rewrite Hrun by lia. by rewrite Z.eqb_refl.
Qed.

Lemma filterLoop_spec (k threshold window : Z) (invert : bool)
    (codes : list Z) :
  1 <= window <= k -> k < 2 ^ 60 ->
  forall scores out, k <= Z.of_nat (length scores) ->
  filterLoop k threshold window invert codes scores out
  = Ok (out ++ List.filter
                 (fun code => Bool.eqb (low_complexity code k threshold window)
                                invert) codes).
Proof.
  intros Hw Hk. induction codes as [|code codes IH]; intros scores out Hlen.
  - simpl. by rewrite app_nil_r.
  - cbn [filterLoop List.filter].
    rewrite filterCode_eval by done.
    assert (Hlen' : k <= Z.of_nat (length
               ((score_at code <$> seq 0 (Z.to_nat k))
                ++ drop (Z.to_nat k) scores))).
    { rewrite length_app, length_fmap, length_seq, length_drop. lia. }
    destruct (low_complexity code k threshold window), invert; simpl;
      rewrite IH by done; try done; by rewrite <- app_assoc.
Qed.

(** The filter command on a file of [k]-mers, with a positive window: no
    call panics, although all calls share one score buffer, and the k-mers
    written are, in input order, those that are not low-complexity (those
    that are, with [--invert]), for the window cut down to [k]. *)
Theorem filterRun_output (k threshold window : Z) (invert : bool)
    (codes : list Z) :
  1 <= k -> k < 2 ^ 60 -> 1 <= window ->
  filterRun k threshold window invert codes
  = Ok (List.filter
          (fun code => Bool.eqb
             (low_complexity code k threshold (Z.min window k)) invert)
          codes).
Proof.
  intros Hk Hk' Hw. unfold filterRun.
  assert (Hmin : (if window >? k then k else window) = Z.min window k)
    by (destruct (Z.gtb_spec window k); lia).
  rewrite Hmin. rewrite filterLoop_spec; [done|lia|done|].
  rewrite length_replicate. lia.
Qed.

Example missed_last_window :
  (* bases, low end first: 0 1 1 1 1; the window 2..4 scores 6 *)
  let code := 340 in
  window_sum (score_at code) 2 3 = 6
  /\ filterCode code 5 5 3 [0; 0; 0; 0; 0] = Ok (false, [1; -1; 2; 2; 2]).
Proof. vm_compute. done. Qed.

Lemma filterCode_windows_witness :
  exists hit,
    filterCode 340 5 5 3 [0; 0; 0; 0; 0] = Ok (hit, [1; -1; 2; 2; 2])
    /\ (hit = true <->
        exists j : nat, Z.of_nat j < 2
          /\ 5 <= window_sum (score_at 340) j 3).
Proof.
  apply (filterCode_windows 340 5 5 3 [0; 0; 0; 0; 0]).
  - lia.
  - simpl. lia.
  - reflexivity.
Defined.

Lemma filterCode_bounds_witness :
  exists hit scores',
    filterCode 0 5 5 3 [0; 0; 0; 0; 0] = Ok (hit, scores')
    /\ (2 * 3 < 5 -> hit = false)
    /\ ((forall j, Z.of_nat (S j) < 3 -> base 0 (S j) = base 0 j) ->
        5 <= 2 * 3 - 1 -> hit = true).
Proof.
  apply (filterCode_bounds 0 5 5 3 [0; 0; 0; 0; 0]).
  - lia.
  - simpl. lia.
  - reflexivity.
Defined.

Lemma filterRun_output_witness :
  filterRun 5 5 3 false [0; 340; 27]
  = Ok (List.filter
          (fun code => Bool.eqb (low_complexity code 5 5 (Z.min 3 5)) false)
          [0; 340; 27]).
Proof.
  apply (filterRun_output 5 5 3 false [0; 340; 27]).
  - lia.
  - reflexivity.
  - lia.
Defined.

Example filterRun_demo :
  filterRun 5 5 3 false [0; 340; 27] = Ok [340; 27]
  /\ filterRun 5 5 3 true [0; 340; 27] = Ok [0]
  /\ filterRun 5 5 9 false [0; 340; 27] = Ok [27].
Proof. vm_compute. done. Qed.

(** ** The intersection loop of the inter command *)

Example inter_demo :
  interRun 10 10 true (store_of 1 demo_nodes None)
    [[(10, 5); (20, 6); (30, 7)]; [(5, 1); (20, 5); (30, 5); (40, 1)]]
  = Some (Ok (store_of 1 demo_nodes None, [CT.mk 20 3; CT.mk 30 2])).
Proof. vm_compute. reflexivity. Qed.

Lemma index_app_here {A} (pre : list A) (x : A) (suf : list A) :
  index (pre ++ x :: suf) (Z.of_nat (length pre)) = Some x.
Proof.
  unfold index. destruct (Z.ltb_spec (Z.of_nat (length pre)) 0); [lia|].
  rewrite Nat2Z.id. by rewrite list_lookup_middle.
Qed.

Lemma assign_app_here {A} (pre : list A) (x v : A) (suf : list A) :
  assign (pre ++ x :: suf) (Z.of_nat (length pre)) v = Some (pre ++ v :: suf).
Proof.
  unfold assign. rewrite length_app. simpl.
  destruct (Z.leb_spec 0 (Z.of_nat (length pre))); [|lia].
  destruct (Z.ltb_spec (Z.of_nat (length pre))
              (Z.of_nat (length pre + S (length suf)))); [|lia].
  simpl. rewrite Nat2Z.id. f_equal.
  rewrite insert_app_r_alt by lia. by rewrite Nat.sub_diag.
Qed.

Lemma LCA_off_store (lfuel : nat) (t t' : Taxonomy) (a b v : Z) :
  cacheLCA t = false -> LCA lfuel t a b = Some (v, t') -> t' = t.
Proof.
  intros Hc. unfold LCA, store. rewrite Hc.
  destruct ((a =? 0) || (b =? 0)); [by intros [= _ <-]|].
  destruct (a =? b); [by intros [= _ <-]|].
  destruct (walk lfuel t a b) as [[w|]|]; [| |done]; by intros [= _ <-].
Qed.

Lemma LCA_off_lca (lfuel : nat) (t : Taxonomy) (a b v : Z) :
  cacheLCA t = false -> lca lfuel t a b = Some v ->
  LCA lfuel t a b = Some (v, t).
Proof.
  intros Hc. unfold lca. destruct (LCA lfuel t a b) as [[w t']|] eqn:H; [|done].
  simpl. intros [= ->]. by rewrite (LCA_off_store _ _ _ _ _ _ Hc H).
Qed.

Lemma record_of_below (c : Z) (stream : list (Z * Z)) :
  Forall (fun r => c < r.1) stream -> record_of c stream = None.
Proof.
  unfold record_of. induction 1 as [|r stream Hr _ IH]; simpl; [done|].
  destruct (Z.eqb_spec r.1 c); [lia|done].
Qed.

Lemma increasing_cons (c : Z) (cs : list Z) :
  increasing (c :: cs) -> increasing cs /\ Forall (Z.lt c) cs.
Proof. apply StronglySorted_inv. Qed.

Lemma stream_above (code : Z) (rest : list (Z * Z)) :
  Forall (Z.lt code) rest.*1 -> Forall (fun r => code < r.1) rest.
Proof. by rewrite Forall_fmap. Qed.

Section inter_loop.
Variables (lfuel : nat) (hasTaxid : bool) (t : Taxonomy).

Local Abbreviation met' := (met lfuel hasTaxid t).

Lemma met_skip (code taxid : Z) (s : list (Z * Z)) (x : CT.CodeTaxid) :
  code <> CT.Code x -> met' ((code, taxid) :: s) x = met' s x.
Proof.
  intros Hne. unfold met, record_of. simpl.
  by destruct (Z.eqb_spec code (CT.Code x)).
Qed.

Lemma met_nil (x : CT.CodeTaxid) : met' [] x = (false, x).
Proof. done. Qed.

Lemma met_below (s : list (Z * Z)) (x : CT.CodeTaxid) :
  Forall (fun r => CT.Code x < r.1) s -> met' s x = (false, x).
Proof. intros H. unfold met. by rewrite record_of_below. Qed.

Lemma met_ext (s s' : list (Z * Z)) (l : list CT.CodeTaxid) :
  (forall x, x ∈ l -> met' s x = met' s' x) ->
  (fun x => (met' s x).2) <$> l = (fun x => (met' s' x).2) <$> l
  /\ (fun x => (met' s x).1) <$> l = (fun x => (met' s' x).1) <$> l.
Proof.
  intros H. induction l as [|x l IH]; [done|].
  rewrite !fmap_cons, (H x) by apply list_elem_of_here.
  destruct IH as [-> ->]; [|done].
  intros y Hy. by apply H, list_elem_of_further.
Qed.

Lemma met_none (s : list (Z * Z)) (l : list CT.CodeTaxid) :
  (forall x, x ∈ l -> met' s x = (false, x)) ->
  (fun x => (met' s x).2) <$> l = l
  /\ (fun x => (met' s x).1) <$> l = replicate (length l) false.
Proof.
  intros H. induction l as [|x l IH]; [done|].
  rewrite !fmap_cons, (H x) by apply list_elem_of_here. simpl.
  destruct IH as [-> ->]; [|done].
  intros y Hy. by apply H, list_elem_of_further.
Qed.

Lemma interLoop_spec (fuel : nat) :
  (hasTaxid = true -> cacheLCA t = false) ->
  forall pre q suf mpre code taxid rest,
    length mpre = length pre ->
    increasing (CT.Code <$> q :: suf) -> increasing (code :: rest.*1) ->
    (length suf + length rest < fuel)%nat ->
    (hasTaxid = true -> forall x r, x ∈ q :: suf -> r ∈ (code, taxid) :: rest ->
       is_Some (lca lfuel t (CT.Taxid x) r.2)) ->
    interLoop fuel lfuel hasTaxid t (pre ++ q :: suf)
      (mpre ++ replicate (S (length suf)) false) (Z.of_nat (length pre))
      (CT.Code q) (CT.Taxid q) code taxid rest
    = Some (Ok (t,
        pre ++ ((fun x => (met' ((code, taxid) :: rest) x).2) <$> q :: suf),
        mpre ++ ((fun x => (met' ((code, taxid) :: rest) x).1) <$> q :: suf))).
Proof.
  intros Hoff. induction fuel as [|fuel IH];
    intros pre q suf mpre code taxid rest Hm Hmc Hst Hfuel Hret; [lia|].
  rewrite fmap_cons in Hmc. pose proof Hst as Hst0.
  apply increasing_cons in Hmc as [Hsuf Hq].
  apply increasing_cons in Hst as [Hrest Hcode].
  apply stream_above in Hcode. rewrite Forall_fmap in Hq.
  assert (Hlen : forall (p : list CT.CodeTaxid) y,
            Z.of_nat (length p) + 1 = Z.of_nat (length (p ++ [y])))
    by (intros; rewrite length_app; simpl; lia).
  cbn [interLoop].
  destruct (Z.ltb_spec (CT.Code q) code) as [Hlt|Hge].
  - (* the entry of [mc] is behind: next entry *)
    assert (Hmq : met' ((code, taxid) :: rest) q = (false, q)).
    { apply met_below. constructor; [done|].
      eapply Forall_impl; [exact Hcode|]. simpl. intros; lia. }
    rewrite !fmap_cons, Hmq. simpl.
    destruct suf as [|q' suf].
    + rewrite length_app. simpl.
      destruct (Z.geb_spec (Z.of_nat (length pre) + 1)
                  (Z.of_nat (length pre + 1))); [done|lia].
    + rewrite length_app. simpl length.
      destruct (Z.geb_spec (Z.of_nat (length pre) + 1)
                  (Z.of_nat (length pre + S (S (length suf))))); [lia|].
      rewrite (Hlen pre q), (cons_middle q pre), app_assoc, index_app_here.
      replace (mpre ++ false :: replicate (S (length suf)) false)
        with ((mpre ++ [false]) ++ replicate (S (length suf)) false)
        by (by rewrite <- app_assoc).
      rewrite IH.
      * by rewrite <- !app_assoc.
      * rewrite !length_app. simpl. lia.
      * done.
      * exact Hst0.
      * simpl in Hfuel. lia.
      * intros Hh x r Hx Hr. apply Hret; [done| |done].
        by apply list_elem_of_further.
  - destruct (Z.eqb_spec (CT.Code q) code) as [Heq|Hne].
    + (* the same code on both sides *)
      assert (Hmq : met' ((code, taxid) :: rest) q
                    = (true, if hasTaxid
                             then CT.mk (CT.Code q)
                                    (default 0 (lca lfuel t (CT.Taxid q) taxid))
                             else q)).
      { unfold met, record_of. simpl.
        destruct (Z.eqb_spec code (CT.Code q)); [done|lia]. }
      set (q1 := if hasTaxid
                 then CT.mk (CT.Code q)
                        (default 0 (lca lfuel t (CT.Taxid q) taxid))
                 else q) in *.
      assert (Hupd :
        (if hasTaxid
         then match LCA lfuel t (CT.Taxid q) taxid with
              | Some (v, taxondb) =>
                  Some (taxondb,
                        match index (pre ++ q :: suf) (Z.of_nat (length pre)) with
                        | Some q0 =>
                            assign (pre ++ q :: suf) (Z.of_nat (length pre))
                              (CT.mk (CT.Code q0) v)
                        | None => None
                        end)
              | None => None
              end
         else Some (t, Some (pre ++ q :: suf)))
        = Some (t, Some (pre ++ q1 :: suf))).
      { unfold q1. destruct hasTaxid; [|done].
        destruct (Hret eq_refl q (code, taxid)) as [v Hv];
          [apply list_elem_of_here..|]. simpl in Hv.
        rewrite (LCA_off_lca _ _ _ _ _ (Hoff eq_refl) Hv), Hv.
        by rewrite index_app_here, assign_app_here. }
      rewrite Hupd. clear Hupd.
      replace (mpre ++ replicate (S (length suf)) false)
        with (mpre ++ false :: replicate (length suf) false) by done.
      rewrite <- Hm, assign_app_here, Hm.
      rewrite !fmap_cons, Hmq. simpl.
      assert (Hsufgt : forall x, x ∈ suf -> code <> CT.Code x).
      { intros x Hx. rewrite Forall_forall in Hq. specialize (Hq x Hx). cbn in Hq. lia. }
      destruct suf as [|q' suf].
      * rewrite length_app. simpl.
        destruct (Z.geb_spec (Z.of_nat (length pre) + 1)
                    (Z.of_nat (length pre + 1))); [done|lia].
      * rewrite length_app. simpl length.
        destruct (Z.geb_spec (Z.of_nat (length pre) + 1)
                    (Z.of_nat (length pre + S (S (length suf))))); [lia|].
        rewrite (Hlen pre q1), (cons_middle q1 pre), app_assoc, index_app_here.
        destruct rest as [|[code' taxid'] rest].
        -- destruct (met_none [(code, taxid)] (q' :: suf)) as [H2 H1].
           { intros x Hx. rewrite met_skip by by apply Hsufgt.
             apply met_nil. }
           rewrite H2, H1. by rewrite <- app_assoc.
        -- destruct (met_ext ((code, taxid) :: (code', taxid') :: rest)
                       ((code', taxid') :: rest) (q' :: suf)) as [H2 H1].
           { intros x Hx. apply met_skip. by apply Hsufgt. }
           rewrite H2, H1.
           replace (mpre ++ true :: replicate (S (length suf)) false)
             with ((mpre ++ [true]) ++ replicate (S (length suf)) false)
             by (by rewrite <- app_assoc).
           rewrite IH.
           ++ by rewrite <- !app_assoc.
           ++ rewrite !length_app. simpl. lia.
           ++ done.
           ++ done.
           ++ simpl in Hfuel. simpl. lia.
           ++ intros Hh x r Hx Hr. apply Hret; [done|..];
                by apply list_elem_of_further.
    + (* the record of the file is behind: next record *)
      assert (Hall : forall x, x ∈ q :: suf -> code <> CT.Code x).
      { intros x [->|Hx]%elem_of_cons; [lia|].
        rewrite Forall_forall in Hq. specialize (Hq x Hx). cbn in Hq. lia. }
      destruct rest as [|[code' taxid'] rest].
      * destruct (met_none [(code, taxid)] (q :: suf)) as [H2 H1].
        { intros x Hx. rewrite met_skip by by apply Hall. apply met_nil. }
        by rewrite H2, H1.
      * destruct (met_ext ((code, taxid) :: (code', taxid') :: rest)
                    ((code', taxid') :: rest) (q :: suf)) as [H2 H1].
        { intros x Hx. apply met_skip. by apply Hall. }
        rewrite H2, H1. apply IH; try done.
        -- rewrite fmap_cons. constructor; [done|by rewrite Forall_fmap].
        -- simpl in Hfuel. simpl. lia.
        -- intros Hh x r Hx Hr. apply Hret; [done..|].
           by apply list_elem_of_further.
Qed.
End inter_loop.

Lemma collect_spec (l : list (bool * CT.CodeTaxid)) :
  forall pre mc1,
    collect l.*1 (Z.of_nat (length pre)) (pre ++ l.*2) mc1
    = Ok (mc1 ++ (List.filter fst l).*2).
Proof.
  induction l as [|[b x] l IH]; intros pre mc1.
  - simpl. by rewrite app_nil_r.
  - assert (Hnext : Z.of_nat (length pre) + 1 = Z.of_nat (length (pre ++ [x])))
      by (rewrite length_app; simpl; lia).
    rewrite !fmap_cons. cbn [collect fst snd List.filter].
    destruct b.
    + rewrite index_app_here.
      replace (pre ++ x :: l.*2) with ((pre ++ [x]) ++ l.*2)
        by (by rewrite <- app_assoc).
      rewrite Hnext, IH, fmap_cons. cbn [snd]. by rewrite <- app_assoc.
    + replace (pre ++ x :: l.*2) with ((pre ++ [x]) ++ l.*2)
        by (by rewrite <- app_assoc).
      by rewrite Hnext, IH.
Qed.

Lemma record_of_Some (c : Z) (s : list (Z * Z)) :
  is_Some (record_of c s) <-> c ∈ s.*1.
Proof.
  unfold record_of. induction s as [|r s IH]; simpl.
  - split; [by intros [? ?]|]. intros H. by apply elem_of_nil in H.
  - rewrite elem_of_cons. destruct (Z.eqb_spec r.1 c) as [->|Hne].
    + split; [by left|by eexists].
    + rewrite IH. split; [by right|]. intros [?|?]; [congruence|done].
Qed.

Lemma record_of_code (c : Z) (s : list (Z * Z)) (r : Z * Z) :
  record_of c s = Some r -> r ∈ s /\ r.1 = c.
Proof.
  unfold record_of. intros H. apply find_some in H as [Hin Heq].
  split; [by apply list_elem_of_In|by apply Z.eqb_eq].
Qed.

Lemma increasing_filter (P : CT.CodeTaxid -> bool) (mc : list CT.CodeTaxid) :
  increasing (CT.Code <$> mc) -> increasing (CT.Code <$> List.filter P mc).
Proof.
  induction mc as [|x mc IH]; simpl; [done|].
  intros [Hs Hx]%increasing_cons. destruct (P x); [|by apply IH].
  rewrite fmap_cons. constructor; [by apply IH|].
  rewrite Forall_fmap in *. rewrite Forall_forall in *.
  intros y Hy. apply Hx. apply list_elem_of_In, filter_In in Hy as [Hy _].
  by apply list_elem_of_In.
Qed.

Lemma filter_length_le {A} (P : A -> bool) (l : list A) :
  (length (List.filter P l) <= length l)%nat.
Proof. induction l as [|x l IH]; simpl; [lia|]. destruct (P x); simpl; lia. Qed.

Lemma filter_and {A} (P Q : A -> bool) (l : list A) :
  List.filter Q (List.filter P l) = List.filter (fun x => P x && Q x) l.
Proof.
  induction l as [|x l IH]; simpl; [done|].
  destruct (P x); simpl; [|done]. destruct (Q x); by rewrite IH.
Qed.

Lemma filter_and_nil {A} (P Q : A -> bool) (l : list A) :
  List.filter P l = [] -> List.filter (fun x => P x && Q x) l = [].
Proof. intros H. by rewrite <- filter_and, H. Qed.

Lemma filter_true {A} (l : list A) : List.filter (fun _ => true) l = l.
Proof. induction l; simpl; congruence. Qed.

Lemma met_fst (lfuel : nat) (hasTaxid : bool) (t : Taxonomy)
    (s : list (Z * Z)) (x : CT.CodeTaxid) :
  (met lfuel hasTaxid t s x).1 = bool_decide (CT.Code x ∈ s.*1).
Proof.
  unfold met. destruct (record_of (CT.Code x) s) as [r|] eqn:Hr; cbn [fst].
  - rewrite bool_decide_eq_true_2; [done|]. apply record_of_Some. by eexists.
  - rewrite bool_decide_eq_false_2; [done|].
    intros Hin. apply record_of_Some in Hin as [? ?]. congruence.
Qed.

Lemma met_code (lfuel : nat) (hasTaxid : bool) (t : Taxonomy)
    (s : list (Z * Z)) (x : CT.CodeTaxid) :
  CT.Code (met lfuel hasTaxid t s x).2 = CT.Code x.
Proof.
  unfold met. destruct (record_of (CT.Code x) s); [|done].
  by destruct hasTaxid.
Qed.

Lemma met_plain (lfuel : nat) (t : Taxonomy) (s : list (Z * Z))
    (x : CT.CodeTaxid) :
  (met lfuel false t s x).2 = x.
Proof. unfold met. by destruct (record_of (CT.Code x) s). Qed.

Lemma filter_met (lfuel : nat) (hasTaxid : bool) (t : Taxonomy)
    (s : list (Z * Z)) (mc : list CT.CodeTaxid) :
  CT.Code <$> (List.filter fst (met lfuel hasTaxid t s <$> mc)).*2
  = CT.Code <$> List.filter (fun x => bool_decide (CT.Code x ∈ s.*1)) mc.
Proof.
  induction mc as [|x mc IH]; [done|].
  rewrite fmap_cons. cbn [List.filter]. rewrite met_fst.
  destruct (bool_decide (CT.Code x ∈ s.*1)); [|done].
  by rewrite !fmap_cons, IH, met_code.
Qed.

Lemma filter_met_plain (lfuel : nat) (t : Taxonomy)
    (s : list (Z * Z)) (mc : list CT.CodeTaxid) :
  (List.filter fst (met lfuel false t s <$> mc)).*2
  = List.filter (fun x => bool_decide (CT.Code x ∈ s.*1)) mc.
Proof.
  induction mc as [|x mc IH]; [done|].
  rewrite fmap_cons. cbn [List.filter]. rewrite met_fst.
  destruct (bool_decide (CT.Code x ∈ s.*1)); [|done].
  by rewrite fmap_cons, IH, met_plain.
Qed.

Lemma interFile_eval (fuel lfuel : nat) (hasTaxid : bool) (t : Taxonomy)
    (mc : list CT.CodeTaxid) (stream : list (Z * Z)) :
  (hasTaxid = true -> cacheLCA t = false) -> mc <> [] -> stream <> [] ->
  increasing (CT.Code <$> mc) -> increasing stream.*1 ->
  (length mc + length stream <= fuel)%nat ->
  (hasTaxid = true -> forall x r, x ∈ mc -> r ∈ stream ->
     is_Some (lca lfuel t (CT.Taxid x) r.2)) ->
  interFile fuel lfuel hasTaxid t mc (replicate (length mc) false) stream
  = let kept := (List.filter fst (met lfuel hasTaxid t stream <$> mc)).*2 in
    Some (Ok (match kept with [] => flagBreak | _ => flagContinue end,
              t, kept, replicate (length kept) false)).
Proof.
  intros Hoff Hmc Hst Hinc Hinc' Hfuel Hret.
  destruct mc as [|q suf]; [done|]. destruct stream as [|[code taxid] rest];
    [done|]. clear Hmc Hst.
  unfold interFile. change (index (q :: suf) 0) with (Some q).
  pose proof (interLoop_spec lfuel hasTaxid t fuel Hoff [] q suf [] code taxid
                rest eq_refl Hinc Hinc') as Hloop.
  rewrite !app_nil_l in Hloop.
  change (Z.of_nat (length (@nil CT.CodeTaxid))) with 0 in Hloop.
  change (replicate (length (q :: suf)) false)
    with (replicate (S (length suf)) false).
  cbv beta iota.
  rewrite Hloop; [|simpl in Hfuel; simpl; lia|done].
  set (l := met lfuel hasTaxid t ((code, taxid) :: rest) <$> q :: suf).
  assert (H2 : (fun x => (met lfuel hasTaxid t ((code, taxid) :: rest) x).2)
               <$> q :: suf = l.*2) by (unfold l; by rewrite <- list_fmap_compose).
  assert (H1 : (fun x => (met lfuel hasTaxid t ((code, taxid) :: rest) x).1)
               <$> q :: suf = l.*1) by (unfold l; by rewrite <- list_fmap_compose).
  rewrite H2, H1.
  pose proof (collect_spec l [] []) as Hcol. rewrite !app_nil_l in Hcol.
  change (Z.of_nat (length (@nil CT.CodeTaxid))) with 0 in Hcol. rewrite Hcol.
  cbv zeta. destruct ((List.filter fst l).*2); done.
Qed.

(** A later file against the k-mers kept so far, with caching off: when both
    are non-empty and strictly increasing in their codes, the closure keeps,
    in order, the entries whose code occurs in the file; with taxids it
    replaces the taxid of a kept entry by the LCA of its taxid and the
    file's; it resets the marks, and it breaks off exactly when nothing is
    kept. *)
Theorem interFile_intersects (fuel lfuel : nat) (hasTaxid : bool)
    (t : Taxonomy) (mc : list CT.CodeTaxid) (stream : list (Z * Z)) :
  cacheLCA t = false -> mc <> [] -> stream <> [] ->
  increasing (CT.Code <$> mc) -> increasing stream.*1 ->
  (length mc + length stream <= fuel)%nat ->
  (hasTaxid = true -> forall x r, x ∈ mc -> r ∈ stream ->
     is_Some (lca lfuel t (CT.Taxid x) r.2)) ->
  exists kept,
    interFile fuel lfuel hasTaxid t mc (replicate (length mc) false) stream
    = Some (Ok (match kept with [] => flagBreak | _ => flagContinue end,
                t, kept, replicate (length kept) false))
    /\ CT.Code <$> kept
       = CT.Code <$> List.filter (fun x => bool_decide (CT.Code x ∈ stream.*1)) mc
    /\ forall y, y ∈ kept ->
         exists x r, x ∈ mc /\ r ∈ stream /\ r.1 = CT.Code x
           /\ CT.Code y = CT.Code x
           /\ if hasTaxid
              then lca lfuel t (CT.Taxid x) r.2 = Some (CT.Taxid y)
              else CT.Taxid y = CT.Taxid x.
Proof.
  intros Hoff Hmc Hst Hinc Hinc' Hfuel Hret.
  eexists. split; [by apply interFile_eval; auto|]. split; [apply filter_met|].
  intros y Hy. apply list_elem_of_fmap in Hy as ([b y'] & -> & Hin).
  apply list_elem_of_In, filter_In in Hin as [Hin Hb]. simpl in Hb. subst b.
  apply list_elem_of_In, list_elem_of_fmap in Hin as (x & Hx & Hxin).
  unfold met in Hx.
  destruct (record_of (CT.Code x) stream) as [r|] eqn:Hr; [|done].
  apply record_of_code in Hr as [Hrin Hrc]. injection Hx as ->.
  exists x, r. split; [done|]. split; [done|]. split; [done|].
  destruct hasTaxid eqn:Hh; simpl; [|done]. split; [done|].
  destruct (Hret eq_refl x r Hxin Hrin) as [v Hv]. by rewrite Hv.
Qed.

Lemma interFiles_codes (fuel lfuel : nat) (t : Taxonomy)
    (files : list (list (Z * Z))) :
  forall mc,
    mc <> [] -> increasing (CT.Code <$> mc) ->
    Forall (fun f => f <> [] /\ increasing f.*1
                     /\ (length mc + length f <= fuel)%nat) files ->
    interFiles fuel lfuel false t false mc (replicate (length mc) false) files
    = Some (Ok (t, List.filter
                     (fun x => forallb (fun f : list (Z * Z) =>
                                          bool_decide (CT.Code x ∈ f.*1)) files)
                     mc)).
Proof.
  induction files as [|f files IH]; intros mc Hmc Hinc Hfiles.
  - simpl. by rewrite filter_true.
  - apply Forall_cons in Hfiles as [(Hf & Hfinc & Hfuel) Hfiles].
    cbn [interFiles forallb].
    rewrite interFile_eval by done. cbv zeta. rewrite filter_met_plain.
    set (P := fun x => bool_decide (CT.Code x ∈ f.*1)).
    destruct (List.filter P mc) as [|y kept] eqn:Hkept.
    + symmetry. f_equal. f_equal. f_equal.
      by apply (filter_and_nil P).
    + rewrite <- Hkept, IH.
      * by rewrite filter_and.
      * by rewrite Hkept.
      * by apply increasing_filter.
      * eapply Forall_impl; [exact Hfiles|]. simpl.
        intros g (Hg & Hginc & Hgfuel). split; [done|]. split; [done|].
        pose proof (filter_length_le P mc). lia.
Qed.

(** Without taxids, on files that are non-empty and strictly increasing in
    their codes, the loop over the files ends with the k-mers of the first
    file whose code occurs in every other file, in the order of the first
    file. *)
Theorem inter_codes (fuel lfuel : nat) (t : Taxonomy)
    (first : list (Z * Z)) (others : list (list (Z * Z))) :
  first <> [] -> increasing first.*1 ->
  Forall (fun f => f <> [] /\ increasing f.*1
                   /\ (length first + length f <= fuel)%nat) others ->
  interRun fuel lfuel false t (first :: others)
  = Some (Ok (t, List.filter
                   (fun x => forallb (fun f : list (Z * Z) =>
                                        bool_decide (CT.Code x ∈ f.*1)) others)
                   ((fun r => CT.mk r.1 r.2) <$> first))).
Proof.
  intros Hne Hinc Hothers. unfold interRun. cbn [interFiles].
  rewrite !app_nil_l.
  replace (length first)
    with (length ((fun r : Z * Z => CT.mk r.1 r.2) <$> first))
    by apply length_fmap.
  apply interFiles_codes.
  - by destruct first.
  - by rewrite <- list_fmap_compose.
  - eapply Forall_impl; [exact Hothers|]. simpl.
    intros g (Hg & Hginc & Hgfuel). by rewrite length_fmap.
Qed.


Lemma increasingb_sound (codes : list Z) :
  increasingb codes = true -> increasing codes.
Proof.
  induction codes as [|c codes IH]; intros H; [constructor|].
  apply andb_prop in H as [Hc H]. constructor; [by apply IH|].
  apply Forall_forall. intros x Hx. apply Z.ltb_lt.
  rewrite forallb_forall in Hc. by apply Hc, list_elem_of_In.
Qed.

Lemma interFile_intersects_witness :
  exists kept,
    interFile 10 10 true (store_of 1 demo_nodes None)
      [CT.mk 10 5; CT.mk 20 6; CT.mk 30 7]
      (replicate (length [CT.mk 10 5; CT.mk 20 6; CT.mk 30 7]) false)
      [(5, 1); (20, 5); (30, 5); (40, 1)]
    = Some (Ok (match kept with [] => flagBreak | _ => flagContinue end,
                store_of 1 demo_nodes None, kept,
                replicate (length kept) false))
    /\ CT.Code <$> kept
       = CT.Code <$> List.filter
           (fun x => bool_decide
              (CT.Code x ∈ [(5, 1); (20, 5); (30, 5); (40, 1)].*1))
           [CT.mk 10 5; CT.mk 20 6; CT.mk 30 7]
    /\ forall y, y ∈ kept ->
         exists x r, x ∈ [CT.mk 10 5; CT.mk 20 6; CT.mk 30 7]
           /\ r ∈ [(5, 1); (20, 5); (30, 5); (40, 1)] /\ r.1 = CT.Code x
           /\ CT.Code y = CT.Code x
           /\ lca 10 (store_of 1 demo_nodes None) (CT.Taxid x) r.2
              = Some (CT.Taxid y).
Proof.
  apply (interFile_intersects 10 10 true (store_of 1 demo_nodes None)
           [CT.mk 10 5; CT.mk 20 6; CT.mk 30 7]
           [(5, 1); (20, 5); (30, 5); (40, 1)]).
  - reflexivity.
  - done.
  - done.
  - by apply increasingb_sound.
  - by apply increasingb_sound.
  - simpl. lia.
  - intros _ x r Hx Hr.
    repeat (apply elem_of_cons in Hx as [->|Hx]);
      try (by apply elem_of_nil in Hx);
      repeat (apply elem_of_cons in Hr as [->|Hr]);
      try (by apply elem_of_nil in Hr); vm_compute; eauto.
Defined.

Lemma inter_codes_witness :
  interRun 10 10 false (store_of 1 demo_nodes None)
    ([(10, 5); (20, 6); (30, 7)]
     :: [[(5, 1); (20, 5); (30, 5); (40, 1)]; [(10, 0); (30, 0)]])
  = Some (Ok (store_of 1 demo_nodes None,
              List.filter
                (fun x => forallb (fun f : list (Z * Z) =>
                                     bool_decide (CT.Code x ∈ f.*1))
                            [[(5, 1); (20, 5); (30, 5); (40, 1)];
                             [(10, 0); (30, 0)]])
                ((fun r => CT.mk r.1 r.2) <$> [(10, 5); (20, 6); (30, 7)]))).
Proof.
  apply (inter_codes 10 10 (store_of 1 demo_nodes None)
           [(10, 5); (20, 6); (30, 7)]
           [[(5, 1); (20, 5); (30, 5); (40, 1)]; [(10, 0); (30, 0)]]).
  - done.
  - by apply increasingb_sound.
  - repeat apply Forall_cons_2; [| |apply Forall_nil_2];
      (split; [done|]; split; [by apply increasingb_sound|simpl; lia]).
Defined.

Example inter_codes_demo :
  interRun 10 10 false (store_of 1 demo_nodes None)
    ([(10, 5); (20, 6); (30, 7)]
     :: [[(5, 1); (20, 5); (30, 5); (40, 1)]; [(10, 0); (30, 0)]])
  = Some (Ok (store_of 1 demo_nodes None, [CT.mk 30 7])).
Proof. vm_compute. reflexivity. Qed.
